(** * Luna chess engine: a shallow embedding of the rules and search core

    The development follows the C++ sources of the engine:
    - [ChessRules/include/types.h]      enumerations, squares, moves
    - [ChessRules/src/bitboard.cpp]     64-bit boards and attack tables
    - [ChessEngine/src/zobrist.cpp]     Zobrist keys and hashing
    - [ChessRules/src/position.cpp]     positions, make and undo
    - [ChessRules/src/movegen.cpp]      move generation and attack tests
    - [ChessEngine/src/transposition_table.cpp]
    - [ChessEngine/src/search.cpp]      negamax, quiescence, time polling

    Unsigned 64-bit words are integers in [0, 2^64) with the wrap-around
    written out; arrays are lists read with a default and updated in place
    by index. *)

From Stdlib Require Import ZArith Lia List Bool String Ascii DecimalString.
From stdpp Require Import base tactics list.
Import ListNotations.
Local Open Scope Z_scope.

(* ===================================================================== *)
(** * types.h *)
(* ===================================================================== *)

Inductive Color := White | Black | Color_NB | Color_None.
Inductive PieceType := Pawn | Knight | Bishop | Rook | Queen | King | PieceType_NB.
Inductive Piece :=
  | WhitePawn | WhiteKnight | WhiteBishop | WhiteRook | WhiteQueen | WhiteKing
  | BlackPawn | BlackKnight | BlackBishop | BlackRook | BlackQueen | BlackKing
  | Piece_NB | Piece_None.
Inductive MoveType := Normal | Capture | Castle | EnPassant | Promotion | MoveType_NB.
Inductive Direction :=
  | North | East | South | West | NorthEast | SouthEast | SouthWest | NorthWest.

#[global] Instance Color_eq_dec : EqDecision Color.
Proof. solve_decision. Defined.
#[global] Instance PieceType_eq_dec : EqDecision PieceType.
Proof. solve_decision. Defined.
#[global] Instance Piece_eq_dec : EqDecision Piece.
Proof. solve_decision. Defined.
#[global] Instance MoveType_eq_dec : EqDecision MoveType.
Proof. solve_decision. Defined.
#[global] Instance Direction_eq_dec : EqDecision Direction.
Proof. solve_decision. Defined.

(** Squares, files and ranks are used arithmetically throughout the code
    (offsets are added to them, they index arrays), so they stay integers:
    A1 = 0, ..., H8 = 63, [Square::NB] = 64, [Square::None] = 65. *)
Definition Square := Z.
Definition Square_NB : Square := 64.
Definition Square_None : Square := 65.
Definition File_NB : Z := 8.
Definition Rank_NB : Z := 8.

Definition A1 : Square := 0.
Definition B1 : Square := 1.
Definition C1 : Square := 2.
Definition D1 : Square := 3.
Definition E1 : Square := 4.
Definition F1 : Square := 5.
Definition G1 : Square := 6.
Definition H1 : Square := 7.
Definition A8 : Square := 56.
Definition B8 : Square := 57.
Definition C8 : Square := 58.
Definition D8 : Square := 59.
Definition E8 : Square := 60.
Definition F8 : Square := 61.
Definition G8 : Square := 62.
Definition H8 : Square := 63.

(** [enum class CastlingRights]: the enumerators are bit positions. *)
Definition White_OO : Z := 0.
Definition White_OOO : Z := 1.
Definition Black_OO : Z := 2.
Definition Black_OOO : Z := 3.

Definition Color_to_Z (c : Color) : Z :=
  match c with White => 0 | Black => 1 | Color_NB => 2 | Color_None => 3 end.

Definition PieceType_to_Z (t : PieceType) : Z :=
  match t with
  | Pawn => 0 | Knight => 1 | Bishop => 2 | Rook => 3 | Queen => 4 | King => 5
  | PieceType_NB => 6
  end.

Definition Piece_to_Z (p : Piece) : Z :=
  match p with
  | WhitePawn => 0 | WhiteKnight => 1 | WhiteBishop => 2 | WhiteRook => 3
  | WhiteQueen => 4 | WhiteKing => 5
  | BlackPawn => 6 | BlackKnight => 7 | BlackBishop => 8 | BlackRook => 9
  | BlackQueen => 10 | BlackKing => 11
  | Piece_NB => 12 | Piece_None => 13
  end.

(** [static_cast] back into an enumeration.  Values that name no
    enumerator do not arise for the colours and piece types the engine
    builds pieces from; they are sent to the sentinel. *)
Definition Color_of_Z (z : Z) : Color :=
  match z with 0 => White | 1 => Black | 2 => Color_NB | _ => Color_None end.

Definition PieceType_of_Z (z : Z) : PieceType :=
  match z with
  | 0 => Pawn | 1 => Knight | 2 => Bishop | 3 => Rook | 4 => Queen | 5 => King
  | _ => PieceType_NB
  end.

Definition Piece_of_Z (z : Z) : Piece :=
  match z with
  | 0 => WhitePawn | 1 => WhiteKnight | 2 => WhiteBishop | 3 => WhiteRook
  | 4 => WhiteQueen | 5 => WhiteKing
  | 6 => BlackPawn | 7 => BlackKnight | 8 => BlackBishop | 9 => BlackRook
  | 10 => BlackQueen | 11 => BlackKing
  | 12 => Piece_NB | _ => Piece_None
  end.

Definition direction_offset (d : Direction) : Z :=
  match d with
  | North => 8 | East => 1 | South => -8 | West => -1
  | NorthEast => 9 | SouthEast => -7 | SouthWest => -9 | NorthWest => 7
  end.

(** C++ integer division and remainder truncate towards zero. *)
Definition make_square (file rank : Z) : Square := rank * File_NB + file.
Definition file_of (square : Square) : Z := Z.rem square File_NB.
Definition rank_of (square : Square) : Z := Z.quot square File_NB.

Definition make_piece (color : Color) (piece_type : PieceType) : Piece :=
  Piece_of_Z (Color_to_Z color * PieceType_to_Z PieceType_NB + PieceType_to_Z piece_type).

Definition type_of (piece : Piece) : PieceType :=
  PieceType_of_Z (Z.rem (Piece_to_Z piece) (PieceType_to_Z PieceType_NB)).

Definition color_of (piece : Piece) : Color :=
  match piece with
  | Piece_None | Piece_NB => Color_None
  | _ => Color_of_Z (Z.quot (Piece_to_Z piece) (PieceType_to_Z PieceType_NB))
  end.

Definition square_to_string (square : Square) : string :=
  if (square =? Square_None) || (square =? Square_NB) then "None"%string
  else
    let file := ascii_of_nat (Z.to_nat (97 + Z.rem square File_NB)) in
    let rank := ascii_of_nat (Z.to_nat (49 + Z.quot square File_NB)) in
    String file (String rank EmptyString).

Definition tolower (c : ascii) : ascii :=
  let n := nat_of_ascii c in
  if ((65 <=? n) && (n <=? 90))%nat then ascii_of_nat (n + 32) else c.

Definition piece_to_string (piece : Piece) : string :=
  match piece with
  | Piece_None => "None"%string
  | Piece_NB => "NB"%string
  | _ =>
      let piece_char :=
        match type_of piece with
        | Pawn => "P" | Knight => "N" | Bishop => "B"
        | Rook => "R" | Queen => "Q" | _ => "K"
        end%char in
      String (if decide (color_of piece = White) then piece_char
              else tolower piece_char) EmptyString
  end.

(** [struct Move]: the move description and the undo scratch filled in by
    [make_move]. *)
Record Move := mkMove {
  from_square : Square;
  to_square : Square;
  move_type : MoveType;
  promotion_piece : Piece;
  captured_piece : Piece;
  previous_castling_rights : Z;
  previous_en_passant_square : Square;
  previous_halfmove_clock : Z
}.

#[global] Instance Move_eq_dec : EqDecision Move.
Proof. solve_decision. Defined.

(** [Move()] *)
Definition Move_default : Move :=
  mkMove Square_None Square_None Normal Piece_None Piece_None 0 Square_None 0.

(** [Move(from, to, type, promotion = Piece::None)] *)
Definition Move_new (from to : Square) (type : MoveType) (promotion : Piece) : Move :=
  mkMove from to type promotion Piece_None 0 Square_None 0.

(** [Move::operator==] compares the description only. *)
Definition Move_eqb (a b : Move) : bool :=
  (from_square a =? from_square b) && (to_square a =? to_square b)
  && bool_decide (move_type a = move_type b)
  && bool_decide (promotion_piece a = promotion_piece b).

(* ===================================================================== *)
(** * bitboard.cpp *)
(* ===================================================================== *)

Definition U64 (z : Z) : Z := z mod 2^64.
Definition U8 (z : Z) : Z := z mod 2^8.

(** A [Bitboard] is its [uint64_t] member. *)
Definition Bitboard := Z.

(** [1ULL << bit_index] with [bit_index = static_cast<uint8_t>(square)]. *)
Definition bit_of (square : Square) : Z := U64 (Z.shiftl 1 (U8 square)).

Definition set_bit (bb : Bitboard) (square : Square) : Bitboard :=
  Z.lor bb (bit_of square).

Definition clear_bit (bb : Bitboard) (square : Square) : Bitboard :=
  Z.land bb (U64 (Z.lnot (bit_of square))).

Definition is_bit_set (bb : Bitboard) (square : Square) : bool :=
  negb (Z.land bb (bit_of square) =? 0).

(** [index_of_mask]: [while ((lsb_mask >> index) != 1) ++index;].  The
    loop is cut at 64 rounds, the width of the word. *)
Fixpoint index_of_mask_loop (fuel : nat) (lsb_mask index : Z) : Z :=
  match fuel with
  | O => index
  | S fuel' =>
      if Z.shiftr lsb_mask index =? 1 then index
      else index_of_mask_loop fuel' lsb_mask (index + 1)
  end.

Definition index_of_mask (lsb_mask : Z) : Z := index_of_mask_loop 64 lsb_mask 0.

(** [bitboard & (~bitboard + 1)] *)
Definition lsb_mask_of (bb : Bitboard) : Z :=
  Z.land bb (U64 (U64 (Z.lnot bb) + 1)).

Definition get_lsb_index (bb : Bitboard) : Z :=
  if bb =? 0 then Square_None else index_of_mask (lsb_mask_of bb).

(** [pop_lsb] returns the index and leaves the reduced board behind. *)
Definition pop_lsb (bb : Bitboard) : Z * Bitboard :=
  if bb =? 0 then (Square_None, bb)
  else
    let lsb_mask := lsb_mask_of bb in
    let index := index_of_mask lsb_mask in
    (index, Z.land bb (U64 (Z.lnot lsb_mask))).

(** [count_bits]: [while (bb_copy) { count += bb_copy & 1; bb_copy >>= 1; }] *)
Fixpoint count_bits_loop (fuel : nat) (bb_copy count : Z) : Z :=
  match fuel with
  | O => count
  | S fuel' =>
      if bb_copy =? 0 then count
      else count_bits_loop fuel' (Z.shiftr bb_copy 1) (U8 (count + Z.land bb_copy 1))
  end.

Definition count_bits (bb : Bitboard) : Z := count_bits_loop 64 bb 0.

(** [get_msb_index]: [index = 63; while (((bitboard >> index) & 1) == 0) --index;] *)
Fixpoint msb_loop (fuel : nat) (bb index : Z) : Z :=
  match fuel with
  | O => index
  | S fuel' =>
      if Z.land (Z.shiftr bb index) 1 =? 0 then msb_loop fuel' bb (index - 1)
      else index
  end.

Definition get_msb_index (bb : Bitboard) : Z :=
  if bb =? 0 then Square_None else msb_loop 64 bb 63.

(** Guarded [bb |= 1ULL << (sq + offset)] of the table initialisers. *)
Definition add_if (cond : bool) (bb : Z) (target : Z) : Z :=
  if cond then Z.lor bb (U64 (Z.shiftl 1 target)) else bb.

(** [init_knight_attacks], the body of the loop for one square. *)
Definition knight_attacks_entry (sq : Z) : Bitboard :=
  let f := file_of sq in
  let r := rank_of sq in
  let N := direction_offset North in
  let E := direction_offset East in
  let S := direction_offset South in
  let W := direction_offset West in
  let bb := 0 in
  let bb := add_if ((r + 2 <? Rank_NB) && (f + 1 <? File_NB)) bb (sq + (N + N + E)) in
  let bb := add_if ((r + 1 <? Rank_NB) && (f + 2 <? File_NB)) bb (sq + (N + E + E)) in
  let bb := add_if ((r - 1 >=? 0) && (f + 2 <? File_NB)) bb (sq + (S + E + E)) in
  let bb := add_if ((r - 2 >=? 0) && (f + 1 <? File_NB)) bb (sq + (S + S + E)) in
  let bb := add_if ((r - 2 >=? 0) && (f - 1 >=? 0)) bb (sq + (S + S + W)) in
  let bb := add_if ((r - 1 >=? 0) && (f - 2 >=? 0)) bb (sq + (S + W + W)) in
  let bb := add_if ((r + 1 <? Rank_NB) && (f - 2 >=? 0)) bb (sq + (N + W + W)) in
  let bb := add_if ((r + 2 <? Rank_NB) && (f - 1 >=? 0)) bb (sq + (N + N + W)) in
  bb.

(** [init_king_attacks], the body of the loop for one square. *)
Definition king_attacks_entry (sq : Z) : Bitboard :=
  let f := file_of sq in
  let r := rank_of sq in
  let bb := 0 in
  let bb := add_if (r + 1 <? Rank_NB) bb (sq + direction_offset North) in
  let bb := add_if ((r + 1 <? Rank_NB) && (f + 1 <? File_NB)) bb (sq + direction_offset NorthEast) in
  let bb := add_if (f + 1 <? File_NB) bb (sq + direction_offset East) in
  let bb := add_if ((r - 1 >=? 0) && (f + 1 <? File_NB)) bb (sq + direction_offset SouthEast) in
  let bb := add_if (r - 1 >=? 0) bb (sq + direction_offset South) in
  let bb := add_if ((r - 1 >=? 0) && (f - 1 >=? 0)) bb (sq + direction_offset SouthWest) in
  let bb := add_if (f - 1 >=? 0) bb (sq + direction_offset West) in
  let bb := add_if ((r + 1 <? Rank_NB) && (f - 1 >=? 0)) bb (sq + direction_offset NorthWest) in
  bb.

(** [init_pawn_attacks], the body of the loop for one square and colour. *)
Definition pawn_attacks_entry (color : Color) (sq : Z) : Bitboard :=
  let f := file_of sq in
  let r := rank_of sq in
  match color with
  | White =>
      if r + 1 <? Rank_NB then
        let bb := add_if (f + 1 <? File_NB) 0 (sq + direction_offset NorthEast) in
        add_if (f - 1 >=? 0) bb (sq + direction_offset NorthWest)
      else 0
  | _ =>
      if r - 1 >=? 0 then
        let bb := add_if (f + 1 <? File_NB) 0 (sq + direction_offset SouthEast) in
        add_if (f - 1 >=? 0) bb (sq + direction_offset SouthWest)
      else 0
  end.

Definition in_board (sq : Z) : bool := (0 <=? sq) && (sq <? Square_NB).

(** The lookup functions read the tables filled by [init_attack_tables];
    a table entry is what its initialiser computed for that square. *)
Definition knight_attacks (square : Square) : Bitboard :=
  if (square =? Square_NB) || (square =? Square_None) then 0
  else if in_board square then knight_attacks_entry square else 0.

Definition king_attacks (square : Square) : Bitboard :=
  if (square =? Square_NB) || (square =? Square_None) then 0
  else if in_board square then king_attacks_entry square else 0.

Definition pawn_attacks (square : Square) (color : Color) : Bitboard :=
  if (square =? Square_NB) || (square =? Square_None)
     || bool_decide (color = Color_NB) then 0
  else if in_board square then
    match color with
    | White | Black => pawn_attacks_entry color square
    | _ => 0
    end
  else 0.

Definition all_directions : list Direction :=
  [North; NorthEast; East; SouthEast; South; SouthWest; West; NorthWest].

(** The loop bound of [generate_ray]: the last [i] for which the loop body
    runs, per direction as in the [switch]. *)
Definition ray_steps (square : Square) (direction : Direction) : Z :=
  let rank := rank_of square in
  let file := file_of square in
  match direction with
  | North => 8 - rank - 1
  | South => rank
  | East => 8 - file - 1
  | West => file
  | NorthEast => Z.min (8 - rank) (8 - file) - 1
  | NorthWest => Z.min (8 - rank) (file + 1) - 1
  | SouthEast => Z.min (rank + 1) (8 - file) - 1
  | SouthWest => Z.min (rank + 1) (file + 1) - 1
  end.

(** [for (int i = 1; i <= steps; i++) ray.set_bit(sq + i * direction_offset)] *)
Fixpoint ray_loop (n : nat) (i : Z) (sq off : Z) (ray : Bitboard) : Bitboard :=
  match n with
  | O => ray
  | S n' => ray_loop n' (i + 1) sq off (set_bit ray (sq + i * off))
  end.

Definition generate_ray (square : Square) (direction : Direction) : Bitboard :=
  ray_loop (Z.to_nat (ray_steps square direction)) 1 square
           (direction_offset direction) 0.

(** [ray_table[dir][sq]] as filled by [init_ray_table]. *)
Definition ray_table (dir_index : nat) (sq : Z) : Bitboard :=
  match all_directions !! dir_index with
  | Some direction => if in_board sq then generate_ray sq direction else 0
  | None => 0
  end.

(** The search for [dir] in [all_directions]. *)
Fixpoint find_dir_index (dir : Direction) (l : list Direction) (j : nat) : nat :=
  match l with
  | [] => O
  | d :: l' => if decide (d = dir) then j else find_dir_index dir l' (S j)
  end.

Definition dir_index_of (dir : Direction) : nat := find_dir_index dir all_directions 0.

(** One round of the direction loop shared by [bishop_attacks] and
    [rook_attacks]; [use_lsb] is the test on [dir] that selects the
    nearest blocker. *)
Definition slider_step (square : Square) (occupied : Bitboard)
    (use_lsb : Direction -> bool) (attacks : Bitboard) (dir : Direction) : Bitboard :=
  let dir_index := dir_index_of dir in
  let ray := ray_table dir_index square in
  let attacks := Z.lor attacks ray in
  let blockers := Z.land ray occupied in
  if negb (blockers =? 0) then
    let blocker_sq :=
      if use_lsb dir then get_lsb_index blockers else get_msb_index blockers in
    let beyond_blocker := generate_ray blocker_sq dir in
    Z.land attacks (U64 (Z.lnot beyond_blocker))
  else attacks.

Definition bishop_directions : list Direction :=
  [NorthEast; NorthWest; SouthEast; SouthWest].

Definition rook_directions : list Direction := [North; East; South; West].

Definition bishop_use_lsb (dir : Direction) : bool :=
  bool_decide (dir = NorthEast) || bool_decide (dir = NorthWest).

Definition rook_use_lsb (dir : Direction) : bool :=
  bool_decide (dir = North) || bool_decide (dir = East).

Definition bishop_attacks (square : Square) (occupied : Bitboard) : Bitboard :=
  fold_left (slider_step square occupied bishop_use_lsb) bishop_directions 0.

Definition rook_attacks (square : Square) (occupied : Bitboard) : Bitboard :=
  fold_left (slider_step square occupied rook_use_lsb) rook_directions 0.

Definition queen_attacks (square : Square) (occupied : Bitboard) : Bitboard :=
  Z.lor (bishop_attacks square occupied) (rook_attacks square occupied).

(* ===================================================================== *)
(** * zobrist.cpp: the keys *)
(* ===================================================================== *)

(** [std::mt19937_64], the 64-bit Mersenne twister of the C++ standard
    library ([mersenne_twister_engine] with w = 64, n = 312, m = 156,
    r = 31), which [ZobristHash::initialize] seeds with a fixed value.
    The state is kept as the window of the last 312 words, oldest first. *)
Module MT.

Definition f := 6364136223846793005.
Definition a := 0xb5026f5aa96619e9.
Definition upper_mask := 0xFFFFFFFF80000000.
Definition lower_mask := 0x7FFFFFFF.

Fixpoint seed_loop (k : nat) (i : Z) (prev : Z) : list Z :=
  match k with
  | O => []
  | S k' =>
      let x := U64 (f * Z.lxor prev (Z.shiftr prev 62) + i) in
      x :: seed_loop k' (i + 1) x
  end.

Definition seed (value : Z) : list Z :=
  let x0 := U64 value in x0 :: seed_loop 311 1 x0.

Definition next_word (st : list Z) : Z :=
  let x0 := nth 0 st 0 in
  let x1 := nth 1 st 0 in
  let xm := nth 156 st 0 in
  let y := Z.lor (Z.land x0 upper_mask) (Z.land x1 lower_mask) in
  let alpha := if Z.testbit y 0 then a else 0 in
  Z.lxor (Z.lxor xm (Z.shiftr y 1)) alpha.

Definition temper (x : Z) : Z :=
  let z1 := Z.lxor x (Z.land (Z.shiftr x 29) 0x5555555555555555) in
  let z2 := Z.lxor z1 (Z.land (U64 (Z.shiftl z1 17)) 0x71d67fffeda60000) in
  let z3 := Z.lxor z2 (Z.land (U64 (Z.shiftl z2 37)) 0xfff7eee000000000) in
  Z.lxor z3 (Z.shiftr z3 43).

(** The first [k] results of [rng()]. *)
Fixpoint outputs (k : nat) (st : list Z) : list Z :=
  match k with
  | O => []
  | S k' =>
      let x := next_word st in
      temper x :: outputs k' (tl st ++ [x])
  end.

End MT.

(** [ZobristHash::initialize] draws, in this order, the 64 x 12 piece keys,
    the 16 castling keys, the 8 en-passant keys and the side key. *)
Definition zobrist_draws : list Z :=
  Eval vm_compute in MT.outputs (64 * 12 + 16 + 8 + 1) (MT.seed 0x1234567890ABCDEF).

Definition piece_keys_ (square : Z) (piece : Z) : Z :=
  nth (Z.to_nat (square * 12 + piece)) zobrist_draws 0.

Definition castling_keys_ (rights : Z) : Z :=
  nth (Z.to_nat (64 * 12 + rights)) zobrist_draws 0.

Definition en_passant_keys_ (file : Z) : Z :=
  nth (Z.to_nat (64 * 12 + 16 + file)) zobrist_draws 0.

Definition side_to_move_key_ : Z :=
  nth (64 * 12 + 16 + 8) zobrist_draws 0.

Definition piece_index (piece : Piece) : Z := Piece_to_Z piece.

(* ===================================================================== *)
(** * position.h / position.cpp *)
(* ===================================================================== *)

(** [pieces_] is the array [Bitboard[Color::NB][PieceType::NB]] laid out
    row by row; [move_history_] is the vector, oldest move first.  The
    [int] clocks are not wrapped: signed overflow is undefined in C++ and
    does not occur for the clocks of a game. *)
Record Position := mkPosition {
  pieces_ : list Bitboard;
  occupied_by_color_ : list Bitboard;
  occupied_ : Bitboard;
  board_ : list Piece;
  side_to_move_ : Color;
  castling_rights_ : Z;
  en_passant_square_ : Square;
  halfmove_clock_ : Z;
  fullmove_number_ : Z;
  move_history_ : list Move;
  hash_key_ : Z
}.

Definition pieces_index (color : Color) (type : PieceType) : nat :=
  Z.to_nat (Color_to_Z color * PieceType_to_Z PieceType_NB + PieceType_to_Z type).

Definition pieces (P : Position) (color : Color) (type : PieceType) : Bitboard :=
  default 0 (pieces_ P !! pieces_index color type).

Definition occupied (P : Position) : Bitboard := occupied_ P.

Definition occupied_by_color (P : Position) (color : Color) : Bitboard :=
  default 0 (occupied_by_color_ P !! Z.to_nat (Color_to_Z color)).

Definition piece_on (P : Position) (square : Square) : Piece :=
  default Piece_None (board_ P !! Z.to_nat square).

Definition side_to_move (P : Position) : Color := side_to_move_ P.
Definition en_passant_square (P : Position) : Square := en_passant_square_ P.
Definition castling_rights (P : Position) : Z := castling_rights_ P.
Definition halfmove_clock (P : Position) : Z := halfmove_clock_ P.
Definition fullmove_number (P : Position) : Z := fullmove_number_ P.
Definition hash_key (P : Position) : Z := hash_key_ P.
Definition move_count (P : Position) : Z := Z.of_nat (length (move_history_ P)).

Definition opposite_color (c : Color) : Color :=
  match c with White => Black | _ => White end.

(** Field assignments. *)
Definition with_pieces (l : list Bitboard) (P : Position) : Position :=
  mkPosition l (occupied_by_color_ P) (occupied_ P) (board_ P) (side_to_move_ P)
    (castling_rights_ P) (en_passant_square_ P) (halfmove_clock_ P)
    (fullmove_number_ P) (move_history_ P) (hash_key_ P).

Definition with_occupancy (by_color : list Bitboard) (occ : Bitboard) (P : Position) : Position :=
  mkPosition (pieces_ P) by_color occ (board_ P) (side_to_move_ P)
    (castling_rights_ P) (en_passant_square_ P) (halfmove_clock_ P)
    (fullmove_number_ P) (move_history_ P) (hash_key_ P).

Definition with_board (b : list Piece) (P : Position) : Position :=
  mkPosition (pieces_ P) (occupied_by_color_ P) (occupied_ P) b (side_to_move_ P)
    (castling_rights_ P) (en_passant_square_ P) (halfmove_clock_ P)
    (fullmove_number_ P) (move_history_ P) (hash_key_ P).

Definition with_side_to_move (c : Color) (P : Position) : Position :=
  mkPosition (pieces_ P) (occupied_by_color_ P) (occupied_ P) (board_ P) c
    (castling_rights_ P) (en_passant_square_ P) (halfmove_clock_ P)
    (fullmove_number_ P) (move_history_ P) (hash_key_ P).

Definition with_castling_rights (cr : Z) (P : Position) : Position :=
  mkPosition (pieces_ P) (occupied_by_color_ P) (occupied_ P) (board_ P) (side_to_move_ P)
    cr (en_passant_square_ P) (halfmove_clock_ P)
    (fullmove_number_ P) (move_history_ P) (hash_key_ P).

Definition with_en_passant_square (ep : Square) (P : Position) : Position :=
  mkPosition (pieces_ P) (occupied_by_color_ P) (occupied_ P) (board_ P) (side_to_move_ P)
    (castling_rights_ P) ep (halfmove_clock_ P)
    (fullmove_number_ P) (move_history_ P) (hash_key_ P).

Definition with_halfmove_clock (n : Z) (P : Position) : Position :=
  mkPosition (pieces_ P) (occupied_by_color_ P) (occupied_ P) (board_ P) (side_to_move_ P)
    (castling_rights_ P) (en_passant_square_ P) n
    (fullmove_number_ P) (move_history_ P) (hash_key_ P).

Definition with_fullmove_number (n : Z) (P : Position) : Position :=
  mkPosition (pieces_ P) (occupied_by_color_ P) (occupied_ P) (board_ P) (side_to_move_ P)
    (castling_rights_ P) (en_passant_square_ P) (halfmove_clock_ P)
    n (move_history_ P) (hash_key_ P).

Definition with_move_history (h : list Move) (P : Position) : Position :=
  mkPosition (pieces_ P) (occupied_by_color_ P) (occupied_ P) (board_ P) (side_to_move_ P)
    (castling_rights_ P) (en_passant_square_ P) (halfmove_clock_ P)
    (fullmove_number_ P) h (hash_key_ P).

Definition with_hash_key (h : Z) (P : Position) : Position :=
  mkPosition (pieces_ P) (occupied_by_color_ P) (occupied_ P) (board_ P) (side_to_move_ P)
    (castling_rights_ P) (en_passant_square_ P) (halfmove_clock_ P)
    (fullmove_number_ P) (move_history_ P) h.

(** [pieces_[color][type].set_bit(sq)] and [.clear_bit(sq)] *)
Definition pieces_set_bit (color : Color) (type : PieceType) (sq : Square)
    (P : Position) : Position :=
  with_pieces (<[pieces_index color type := set_bit (pieces P color type) sq]> (pieces_ P)) P.

Definition pieces_clear_bit (color : Color) (type : PieceType) (sq : Square)
    (P : Position) : Position :=
  with_pieces (<[pieces_index color type := clear_bit (pieces P color type) sq]> (pieces_ P)) P.

(** [board_[sq] = piece] *)
Definition board_put (sq : Square) (piece : Piece) (P : Position) : Position :=
  with_board (<[Z.to_nat sq := piece]> (board_ P)) P.

(** [castling_rights_ &= ~(1 << right)] on the [uint8_t] field. *)
Definition clear_castling_right (right : Z) (P : Position) : Position :=
  with_castling_rights
    (U8 (Z.land (castling_rights_ P) (Z.lnot (Z.shiftl 1 right)))) P.

Definition has_castling_right (rights : Z) (right : Z) : bool :=
  negb (Z.land rights (Z.shiftl 1 right) =? 0).

Definition color_range : list Color := [White; Black].
Definition piece_type_range : list PieceType :=
  [Pawn; Knight; Bishop; Rook; Queen; King].

(** [Position::update_bitboards] *)
Definition update_bitboards (P : Position) : Position :=
  let by_color :=
    map (fun c => fold_left (fun acc pt => Z.lor acc (pieces P c pt)) piece_type_range 0)
        color_range in
  let occ := fold_left Z.lor by_color 0 in
  with_occupancy by_color occ P.

(** [ZobristHash::hash_position] *)
Definition hash_position (P : Position) : Z :=
  let hash :=
    fold_left
      (fun hash square =>
         let piece := piece_on P square in
         if decide (piece <> Piece_None)
         then Z.lxor hash (piece_keys_ square (piece_index piece))
         else hash)
      (map Z.of_nat (seq 0 64)) 0 in
  let hash := Z.lxor hash (castling_keys_ (castling_rights P)) in
  let hash :=
    if negb (en_passant_square P =? Square_None)
    then Z.lxor hash (en_passant_keys_ (file_of (en_passant_square P)))
    else hash in
  if decide (side_to_move P = Black) then Z.lxor hash side_to_move_key_ else hash.

Definition king_square (P : Position) (color : Color) : Square :=
  get_lsb_index (pieces P color King).

(** The rook's squares for a castling move, by the king's destination. *)
Definition castle_rook_squares (to : Square) : Square * Square :=
  if to =? G1 then (H1, F1)
  else if to =? C1 then (A1, D1)
  else if to =? G8 then (H8, F8)
  else (A8, D8).

Definition with_captured_piece (p : Piece) (m : Move) : Move :=
  mkMove (from_square m) (to_square m) (move_type m) (promotion_piece m) p
    (previous_castling_rights m) (previous_en_passant_square m)
    (previous_halfmove_clock m).

(** The [switch (move.move_type)] of [make_move], entered after the
    moving piece has been taken off its source square. *)
Definition make_move_switch (move : Move) (moving_piece captured : Piece)
    (move_with_state : Move) (P : Position) : Position * Move :=
  let to := to_square move in
  let color := color_of moving_piece in
  let type := type_of moving_piece in
  match move_type move with
  | Normal | Capture =>
      let P :=
        if decide (captured <> Piece_None) then
          let P := pieces_clear_bit (color_of captured) (type_of captured) to P in
          with_halfmove_clock 0 P
        else if decide (type <> Pawn) then
          with_halfmove_clock (halfmove_clock_ P + 1) P
        else with_halfmove_clock 0 P in
      let P := pieces_set_bit color type to P in
      (board_put to moving_piece P, move_with_state)
  | Castle =>
      let P := pieces_set_bit color King to P in
      let P := board_put to moving_piece P in
      let '(rook_from, rook_to) := castle_rook_squares to in
      let rook := piece_on P rook_from in
      let P := pieces_clear_bit color Rook rook_from P in
      let P := pieces_set_bit color Rook rook_to P in
      let P := board_put rook_from Piece_None P in
      let P := board_put rook_to rook P in
      (with_halfmove_clock (halfmove_clock_ P + 1) P, move_with_state)
  | EnPassant =>
      let P := pieces_set_bit color type to P in
      let P := board_put to moving_piece P in
      let captured_pawn_sq :=
        if decide (color = White) then to - 8 else to + 8 in
      let enemy_color := opposite_color color in
      let move_with_state :=
        with_captured_piece (make_piece enemy_color Pawn) move_with_state in
      let P := pieces_clear_bit enemy_color Pawn captured_pawn_sq P in
      let P := board_put captured_pawn_sq Piece_None P in
      (with_halfmove_clock 0 P, move_with_state)
  | Promotion =>
      let P :=
        if decide (captured <> Piece_None) then
          pieces_clear_bit (color_of captured) (type_of captured) to P
        else P in
      let promo_type := type_of (promotion_piece move) in
      let P := pieces_set_bit color promo_type to P in
      let P := board_put to (promotion_piece move) P in
      (with_halfmove_clock 0 P, move_with_state)
  | MoveType_NB => (P, move_with_state)
  end.

(** The castling-rights block of [make_move]. *)
Definition make_move_castling_rights (type : PieceType) (color : Color)
    (from to : Square) (P : Position) : Position :=
  (* Remove castling rights if king moves *)
  let P :=
    if decide (type = King) then
      if decide (color = White) then
        clear_castling_right White_OOO (clear_castling_right White_OO P)
      else
        clear_castling_right Black_OOO (clear_castling_right Black_OO P)
    else P in
  (* Remove castling rights if rook moves from original square *)
  let P := if from =? A1 then clear_castling_right White_OOO P else P in
  let P := if from =? H1 then clear_castling_right White_OO P else P in
  let P := if from =? A8 then clear_castling_right Black_OOO P else P in
  let P := if from =? H8 then clear_castling_right Black_OO P else P in
  (* Remove castling rights if rook is captured on original square *)
  let P := if to =? A1 then clear_castling_right White_OOO P else P in
  let P := if to =? H1 then clear_castling_right White_OO P else P in
  let P := if to =? A8 then clear_castling_right Black_OOO P else P in
  if to =? H8 then clear_castling_right Black_OO P else P.

(** The en-passant block of [make_move]. *)
Definition make_move_en_passant (type : PieceType) (color : Color)
    (from to : Square) (P : Position) : Position :=
  let P := with_en_passant_square Square_None P in
  if decide (type = Pawn) then
    let from_rank := rank_of from in
    let to_rank := rank_of to in
    if Z.abs (to_rank - from_rank) =? 2 then
      if decide (color = White)
      then with_en_passant_square (to - 8) P
      else with_en_passant_square (to + 8) P
    else P
  else P.

(** The end of [make_move]: aggregates, side to move, move number,
    history and hash. *)
Definition make_move_finish (move_with_state : Move) (P : Position) : Position :=
  let P := update_bitboards P in
  let P := with_side_to_move (opposite_color (side_to_move_ P)) P in
  let P :=
    if decide (side_to_move_ P = White)
    then with_fullmove_number (fullmove_number_ P + 1) P else P in
  let P := with_move_history (move_history_ P ++ [move_with_state]) P in
  with_hash_key (hash_position P) P.

(** [Position::make_move] *)
Definition make_move (move : Move) (P : Position) : Position :=
  let move_with_state :=
    mkMove (from_square move) (to_square move) (move_type move)
      (promotion_piece move) (captured_piece move)
      (castling_rights_ P) (en_passant_square_ P) (halfmove_clock_ P) in
  let from := from_square move in
  let to := to_square move in
  let moving_piece := piece_on P from in
  let captured := piece_on P to in
  let move_with_state := with_captured_piece captured move_with_state in
  let color := color_of moving_piece in
  let type := type_of moving_piece in
  (* Remove piece from source square *)
  let P := pieces_clear_bit color type from P in
  let P := board_put from Piece_None P in
  (* Handle different move types *)
  let '(P, move_with_state) :=
    make_move_switch move moving_piece captured move_with_state P in
  let P := make_move_castling_rights type color from to P in
  let P := make_move_en_passant type color from to P in
  make_move_finish move_with_state P.

(** The [switch (move.move_type)] of [undo_move]. *)
Definition undo_move_switch (move : Move) (moving_piece : Piece) (P : Position)
    : Position :=
  let from := from_square move in
  let to := to_square move in
  let color := color_of moving_piece in
  let type := type_of moving_piece in
  match move_type move with
  | Normal | Capture =>
      let P := pieces_clear_bit color type to P in
      let P := board_put to Piece_None P in
      let P := pieces_set_bit color type from P in
      let P := board_put from moving_piece P in
      if decide (captured_piece move <> Piece_None) then
        let P := pieces_set_bit (color_of (captured_piece move))
                   (type_of (captured_piece move)) to P in
        board_put to (captured_piece move) P
      else P
  | Castle =>
      let P := pieces_clear_bit color King to P in
      let P := pieces_set_bit color King from P in
      let P := board_put to Piece_None P in
      let P := board_put from moving_piece P in
      let '(rook_to, rook_from) := castle_rook_squares to in
      let rook := piece_on P rook_from in
      let P := pieces_clear_bit color Rook rook_from P in
      let P := pieces_set_bit color Rook rook_to P in
      let P := board_put rook_from Piece_None P in
      board_put rook_to rook P
  | EnPassant =>
      let P := pieces_clear_bit color Pawn to P in
      let P := board_put to Piece_None P in
      let P := pieces_set_bit color Pawn from P in
      let P := board_put from moving_piece P in
      let captured_pawn_sq :=
        if decide (color = White) then to - 8 else to + 8 in
      let enemy_color := opposite_color color in
      let P := pieces_set_bit enemy_color Pawn captured_pawn_sq P in
      board_put captured_pawn_sq (captured_piece move) P
  | Promotion =>
      let promo_type := type_of (promotion_piece move) in
      let P := pieces_clear_bit color promo_type to P in
      let P := board_put to Piece_None P in
      let P := pieces_set_bit color Pawn from P in
      let P := board_put from (make_piece color Pawn) P in
      if decide (captured_piece move <> Piece_None) then
        let P := pieces_set_bit (color_of (captured_piece move))
                   (type_of (captured_piece move)) to P in
        board_put to (captured_piece move) P
      else P
  | MoveType_NB => P
  end.

(** [Position::undo_move] *)
Definition undo_move (P : Position) : Position :=
  match last (move_history_ P) with
  | None => P
  | Some move =>
      let P := with_side_to_move (opposite_color (side_to_move_ P)) P in
      let P :=
        if decide (side_to_move_ P = Black)
        then with_fullmove_number (fullmove_number_ P - 1) P else P in
      let P := with_castling_rights (previous_castling_rights move) P in
      let P := with_en_passant_square (previous_en_passant_square move) P in
      let P := with_halfmove_clock (previous_halfmove_clock move) P in
      let moving_piece :=
        if decide (move_type move = Promotion)
        then make_piece (side_to_move_ P) Pawn
        else piece_on P (to_square move) in
      let P := undo_move_switch move moving_piece P in
      let P := update_bitboards P in
      let P := with_move_history (removelast (move_history_ P)) P in
      with_hash_key (hash_position P) P
  end.

(** Decimal output of an [int], as [operator<<] prints it. *)
Definition string_of_Z (z : Z) : string := NilZero.string_of_int (Z.to_int z).

(** [Position::to_fen] *)
Definition fen_rank (P : Position) (rank : Z) : string :=
  let '(out, empty_count) :=
    fold_left
      (fun '(out, empty_count) file =>
         let piece := piece_on P (make_square file rank) in
         if decide (piece = Piece_None) then (out, empty_count + 1)
         else
           let out :=
             if empty_count >? 0 then String.append out (string_of_Z empty_count)
             else out in
           (String.append out (piece_to_string piece), 0))
      (map Z.of_nat (seq 0 8)) (EmptyString, 0) in
  let out :=
    if empty_count >? 0 then String.append out (string_of_Z empty_count) else out in
  if rank >? 0 then String.append out "/" else out.

Definition fen_castling (rights : Z) : string :=
  let s := EmptyString in
  let s := if has_castling_right rights White_OO then String.append s "K" else s in
  let s := if has_castling_right rights White_OOO then String.append s "Q" else s in
  let s := if has_castling_right rights Black_OO then String.append s "k" else s in
  let s := if has_castling_right rights Black_OOO then String.append s "q" else s in
  if String.eqb s EmptyString then "-"%string else s.

Definition to_fen (P : Position) : string :=
  let board :=
    fold_left (fun out rank => String.append out (fen_rank P rank))
      (map (fun k => 7 - Z.of_nat k) (seq 0 8)) EmptyString in
  let fen := String.append board " " in
  let fen := String.append fen (if decide (side_to_move_ P = White) then "w" else "b") in
  let fen := String.append fen " " in
  let fen := String.append fen (fen_castling (castling_rights_ P)) in
  let fen := String.append fen " " in
  let fen :=
    String.append fen
      (if en_passant_square_ P =? Square_None then "-"%string
       else square_to_string (en_passant_square_ P)) in
  let fen := String.append fen " " in
  let fen := String.append fen (string_of_Z (halfmove_clock_ P)) in
  let fen := String.append fen " " in
  String.append fen (string_of_Z (fullmove_number_ P)).

(** ** Reading a FEN string ([Position::load_fen]) *)

Definition is_space (c : ascii) : bool :=
  let n := nat_of_ascii c in
  ((n =? 32) || ((9 <=? n) && (n <=? 13)))%nat.

(** The input stream is the list of characters still to be read. *)
Fixpoint skip_ws (s : list ascii) : list ascii :=
  match s with
  | c :: s' => if is_space c then skip_ws s' else s
  | [] => []
  end.

Fixpoint read_word (s : list ascii) : list ascii * list ascii :=
  match s with
  | c :: s' =>
      if is_space c then ([], s)
      else let '(w, rest) := read_word s' in (c :: w, rest)
  | [] => ([], [])
  end.

(** [ss >> word] for a [std::string]: leading whitespace is skipped and
    the extraction fails when nothing is left. *)
Definition extract_word (s : list ascii) : option (list ascii * list ascii) :=
  match skip_ws s with
  | [] => None
  | s' => Some (read_word s')
  end.

Definition digit_of (c : ascii) : option Z :=
  let n := nat_of_ascii c in
  if ((48 <=? n) && (n <=? 57))%nat then Some (Z.of_nat n - 48) else None.

(** The run of digits at the head of the stream: its value, whether a
    digit was seen, and the rest of the stream. *)
Fixpoint read_digits (s : list ascii) (acc : Z) (seen : bool) : Z * bool * list ascii :=
  match s with
  | c :: s' =>
      match digit_of c with
      | Some d => read_digits s' (10 * acc + d) true
      | None => (acc, seen, s)
      end
  | [] => (acc, seen, [])
  end.

Definition INT_MAX : Z := 2^31 - 1.
Definition INT_MIN : Z := - 2^31.

(** The outcome of [ss >> n] for an [int] member [n]: a value and the rest
    of the stream; a failure that stores a value in [n] all the same (zero
    when no digit could be read, the nearest bound on overflow); or a
    failure at the end of the stream, which leaves [n] alone. *)
Inductive IntExtract :=
  | IntOk (value : Z) (rest : list ascii)
  | IntFailStored (value : Z)
  | IntFailUntouched.

Definition extract_int (s : list ascii) : IntExtract :=
  match skip_ws s with
  | [] => IntFailUntouched
  | c :: s' =>
      let '(negative, digits) :=
        if (nat_of_ascii c =? 45)%nat then (true, s')
        else if (nat_of_ascii c =? 43)%nat then (false, s')
        else (false, c :: s') in
      let '(magnitude, seen, rest) := read_digits digits 0 false in
      if negb seen then IntFailStored 0
      else
        let value := if negative then - magnitude else magnitude in
        if value >? INT_MAX then IntFailStored INT_MAX
        else if value <? INT_MIN then IntFailStored INT_MIN
        else IntOk value rest
  end.

Definition isupper (c : ascii) : bool :=
  let n := nat_of_ascii c in ((65 <=? n) && (n <=? 90))%nat.

Definition piece_type_of_char (c : ascii) : option PieceType :=
  match tolower c with
  | "p" => Some Pawn | "n" => Some Knight | "b" => Some Bishop
  | "r" => Some Rook | "q" => Some Queen | "k" => Some King
  | _ => None
  end%char.

(** The loop over [board_part]; the boolean is [false] when the loop was
    left by the [return false] of the [default] branch. *)
Fixpoint parse_board (l : list ascii) (rank file : Z) (P : Position) : bool * Position :=
  match l with
  | [] => (true, P)
  | ch :: l' =>
      if Ascii.eqb ch "/" then parse_board l' (rank - 1) 0 P
      else
        let n := Z.of_nat (nat_of_ascii ch) in
        if (49 <=? n) && (n <=? 56) then parse_board l' rank (file + (n - 48)) P
        else
          let color := if isupper ch then White else Black in
          match piece_type_of_char ch with
          | None => (false, P)
          | Some type =>
              let sq := make_square file rank in
              let piece := make_piece color type in
              let P := board_put sq piece P in
              let P := pieces_set_bit color type sq P in
              parse_board l' rank (file + 1) P
          end
  end.

Definition parse_castling (l : list ascii) : Z :=
  fold_left
    (fun rights ch =>
       match ch with
       | "K" => Z.lor rights (Z.shiftl 1 White_OO)
       | "Q" => Z.lor rights (Z.shiftl 1 White_OOO)
       | "k" => Z.lor rights (Z.shiftl 1 Black_OO)
       | "q" => Z.lor rights (Z.shiftl 1 Black_OOO)
       | _ => rights
       end%char) l 0.

Definition string_to_square (s : list ascii) : Square :=
  match s with
  | c0 :: c1 :: _ =>
      let file := Z.of_nat (nat_of_ascii (tolower c0)) in
      let rank := Z.of_nat (nat_of_ascii c1) in
      if (file <? 97) || (file >? 104) || (rank <? 49) || (rank >? 56)
      then Square_None
      else (rank - 49) * File_NB + (file - 97)
  | _ => Square_NB
  end.

(** The part of [load_fen] after the six fields have been extracted. *)
Definition load_fen_fields (board_part active_color castling ep_square : list ascii)
    (P : Position) : bool * Position :=
  (* Clear current position *)
  let P := with_pieces (replicate 12 0) P in
  let P := with_board (replicate 64 Piece_None) P in
  let P := with_move_history [] P in
  match parse_board board_part 7 0 P with
  | (false, P) => (false, P)
  | (true, P) =>
      let P :=
        with_side_to_move
          (match active_color with ["w"%char] => White | _ => Black end) P in
      let P := with_castling_rights (parse_castling castling) P in
      let P :=
        with_en_passant_square
          (match ep_square with
           | ["-"%char] => Square_None
           | _ => string_to_square ep_square
           end) P in
      let P := update_bitboards P in
      (true, with_hash_key (hash_position P) P)
  end.

(** [Position::load_fen]; the boolean is the function's result.  The
    two clocks are extracted straight into the members. *)
Definition load_fen (fen : string) (P : Position) : bool * Position :=
  let ss := list_ascii_of_string fen in
  match extract_word ss with
  | None => (false, P)
  | Some (board_part, ss) =>
  match extract_word ss with
  | None => (false, P)
  | Some (active_color, ss) =>
  match extract_word ss with
  | None => (false, P)
  | Some (castling, ss) =>
  match extract_word ss with
  | None => (false, P)
  | Some (ep_square, ss) =>
  match extract_int ss with
  | IntFailUntouched => (false, P)
  | IntFailStored v => (false, with_halfmove_clock v P)
  | IntOk halfmove ss =>
      let P := with_halfmove_clock halfmove P in
      match extract_int ss with
      | IntFailUntouched => (false, P)
      | IntFailStored v => (false, with_fullmove_number v P)
      | IntOk fullmove _ =>
          let P := with_fullmove_number fullmove P in
          load_fen_fields board_part active_color castling ep_square P
      end
  end end end end end.

Definition starting_fen : string :=
  "rnbqkbnr/pppppppp/8/8/8/8/PPPPPPPP/RNBQKBNR w KQkq - 0 1".

(** [Position::Position()]: everything empty, then the starting position. *)
Definition Position_empty : Position :=
  mkPosition (replicate 12 0) (replicate 2 0) 0 (replicate 64 Piece_None)
    White 0 Square_None 0 0 [] 0.

Definition Position_new : Position := snd (load_fen starting_fen Position_empty).

(** A position set up from a FEN string, as the UCI [position fen] command
    and the tests do. *)
Definition position_of_fen (fen : string) : Position :=
  snd (load_fen fen Position_new).

(* ===================================================================== *)
(** * movegen.cpp *)
(* ===================================================================== *)

(** [while (bb.count_bits() > 0) { sq = bb.pop_lsb(); body }]: the loop
    runs at most once per bit of the word. *)
Fixpoint bb_loop {A : Type} (fuel : nat) (bb : Bitboard)
    (body : Square -> A -> A) (acc : A) : A :=
  match fuel with
  | O => acc
  | S fuel' =>
      if count_bits bb >? 0 then
        let '(sq, bb') := pop_lsb bb in
        bb_loop fuel' bb' body (body sq acc)
      else acc
  end.

Definition for_each_square {A : Type} (bb : Bitboard)
    (body : Square -> A -> A) (acc : A) : A :=
  bb_loop 64 bb body acc.

(** The inner loop over the destination squares of a piece standing on
    [from]. *)
Definition push_attacks (P : Position) (from : Square) (attacks : Bitboard)
    (moves : list Move) : list Move :=
  for_each_square attacks
    (fun to moves =>
       let type :=
         if decide (piece_on P to <> Piece_None) then Capture else Normal in
       moves ++ [Move_new from to type Piece_None])
    moves.

Definition generate_knight_moves (P : Position) (moves : list Move) (color : Color)
    : list Move :=
  let knights := pieces P color Knight in
  let own_pieces := occupied_by_color P color in
  for_each_square knights
    (fun from moves =>
       let attacks := knight_attacks from in
       let attacks := Z.land attacks (U64 (Z.lnot own_pieces)) in
       push_attacks P from attacks moves)
    moves.

Definition generate_bishop_moves (P : Position) (moves : list Move) (color : Color)
    : list Move :=
  let bishops := pieces P color Bishop in
  let own_pieces := occupied_by_color P color in
  for_each_square bishops
    (fun from moves =>
       let attacks := bishop_attacks from (occupied P) in
       let attacks := Z.land attacks (U64 (Z.lnot own_pieces)) in
       push_attacks P from attacks moves)
    moves.

Definition generate_rook_moves (P : Position) (moves : list Move) (color : Color)
    : list Move :=
  let rooks := pieces P color Rook in
  let own_pieces := occupied_by_color P color in
  for_each_square rooks
    (fun from moves =>
       let attacks := rook_attacks from (occupied P) in
       let attacks := Z.land attacks (U64 (Z.lnot own_pieces)) in
       push_attacks P from attacks moves)
    moves.

Definition generate_queen_moves (P : Position) (moves : list Move) (color : Color)
    : list Move :=
  let queens := pieces P color Queen in
  let own_pieces := occupied_by_color P color in
  for_each_square queens
    (fun from moves =>
       let attacks := queen_attacks from (occupied P) in
       let attacks := Z.land attacks (U64 (Z.lnot own_pieces)) in
       push_attacks P from attacks moves)
    moves.

Definition generate_king_moves (P : Position) (moves : list Move) (color : Color)
    : list Move :=
  let kings := pieces P color King in
  let own_pieces := occupied_by_color P color in
  if count_bits kings >? 0 then
    let '(from, _) := pop_lsb kings in
    let attacks := king_attacks from in
    let attacks := Z.land attacks (U64 (Z.lnot own_pieces)) in
    push_attacks P from attacks moves
  else moves.

(** The four promotion moves of a pawn reaching the last rank. *)
Definition push_promotions (from to : Square) (color : Color) (moves : list Move)
    : list Move :=
  moves ++ [Move_new from to Promotion (make_piece color Queen);
            Move_new from to Promotion (make_piece color Rook);
            Move_new from to Promotion (make_piece color Bishop);
            Move_new from to Promotion (make_piece color Knight)].

Definition generate_pawn_moves (P : Position) (moves : list Move) (color : Color)
    : list Move :=
  let pawns := pieces P color Pawn in
  let enemy_pieces :=
    occupied_by_color P (if decide (color = White) then Black else White) in
  let push_dir := if decide (color = White) then North else South in
  let push_offset := direction_offset push_dir in
  let start_rank := if decide (color = White) then 1 else 6 in
  let promo_rank := if decide (color = White) then 7 else 0 in
  for_each_square pawns
    (fun from moves =>
       let from_rank := rank_of from in
       (* Single push *)
       let to := from + push_offset in
       let moves :=
         if (to >=? A1) && (to <=? H8) && negb (is_bit_set (occupied P) to) then
           if rank_of to =? promo_rank then push_promotions from to color moves
           else
             let moves := moves ++ [Move_new from to Normal Piece_None] in
             if from_rank =? start_rank then
               let double_to := from + 2 * push_offset in
               if negb (is_bit_set (occupied P) double_to)
               then moves ++ [Move_new from double_to Normal Piece_None]
               else moves
             else moves
         else moves in
       (* Captures *)
       let attacks := Z.land (pawn_attacks from color) enemy_pieces in
       let moves :=
         for_each_square attacks
           (fun cap_sq moves =>
              if rank_of cap_sq =? promo_rank
              then push_promotions from cap_sq color moves
              else moves ++ [Move_new from cap_sq Capture Piece_None])
           moves in
       (* En passant captures *)
       if negb (en_passant_square P =? Square_None) then
         let ep_attacks := pawn_attacks from color in
         if is_bit_set ep_attacks (en_passant_square P)
         then moves ++ [Move_new from (en_passant_square P) EnPassant Piece_None]
         else moves
       else moves)
    moves.

(** The pawn test of [is_square_attacked]: an enemy pawn on one of the
    two squares from which it attacks [square]. *)
Definition is_square_attacked_by_pawn (P : Position) (square : Square) (by_color : Color)
    : bool :=
  if decide (by_color = White) then
    if rank_of square >? 0 then
      ((file_of square >? 0)
         && bool_decide (piece_on P (square - 9) = WhitePawn))
      || ((file_of square <? 7)
            && bool_decide (piece_on P (square - 7) = WhitePawn))
    else false
  else
    if rank_of square <? 7 then
      ((file_of square >? 0)
         && bool_decide (piece_on P (square + 7) = BlackPawn))
      || ((file_of square <? 7)
            && bool_decide (piece_on P (square + 9) = BlackPawn))
    else false.

(** [MoveGenerator::is_square_attacked] *)
Definition is_square_attacked (P : Position) (square : Square) (by_color : Color) : bool :=
  if is_square_attacked_by_pawn P square by_color then true
  else if count_bits (Z.land (knight_attacks square) (pieces P by_color Knight)) >? 0
  then true
  else if count_bits (Z.land (king_attacks square) (pieces P by_color King)) >? 0
  then true
  else if count_bits
            (Z.land (bishop_attacks square (occupied P))
               (Z.lor (pieces P by_color Bishop) (pieces P by_color Queen))) >? 0
  then true
  else if count_bits
            (Z.land (rook_attacks square (occupied P))
               (Z.lor (pieces P by_color Rook) (pieces P by_color Queen))) >? 0
  then true
  else false.

(** [Position::is_in_check] *)
Definition is_in_check (P : Position) : bool :=
  let king_sq := king_square P (side_to_move_ P) in
  let enemy_color := opposite_color (side_to_move_ P) in
  is_square_attacked P king_sq enemy_color.

(** One of the four blocks of [generate_castling_moves]. *)
Definition castling_block (P : Position) (right : Z) (between : list Square)
    (crossed : list Square) (enemy : Color) (rook_sq : Square) (rook : Piece)
    (king_from king_to : Square) (moves : list Move) : list Move :=
  if has_castling_right (castling_rights P) right then
    if forallb (fun sq => negb (is_bit_set (occupied P) sq)) between then
      if forallb (fun sq => negb (is_square_attacked P sq enemy)) crossed then
        if decide (piece_on P rook_sq = rook)
        then moves ++ [Move_new king_from king_to Castle Piece_None]
        else moves
      else moves
    else moves
  else moves.

Definition generate_castling_moves (P : Position) (moves : list Move) (color : Color)
    : list Move :=
  if is_in_check P then moves
  else
    let king_sq := king_square P color in
    if (bool_decide (color = White) && negb (king_sq =? E1))
       || (bool_decide (color = Black) && negb (king_sq =? E8))
    then moves
    else if decide (color = White) then
      let moves :=
        castling_block P White_OO [F1; G1] [F1; G1] Black H1 WhiteRook E1 G1 moves in
      castling_block P White_OOO [D1; C1; B1] [D1; C1] Black A1 WhiteRook E1 C1 moves
    else
      let moves :=
        castling_block P Black_OO [F8; G8] [F8; G8] White H8 BlackRook E8 G8 moves in
      castling_block P Black_OOO [D8; C8; B8] [D8; C8] White A8 BlackRook E8 C8 moves.

(** [MoveGenerator::generate_all_moves] *)
Definition generate_all_moves (P : Position) (moves : list Move) (color : Color)
    : list Move :=
  let moves := generate_pawn_moves P moves color in
  let moves := generate_knight_moves P moves color in
  let moves := generate_bishop_moves P moves color in
  let moves := generate_rook_moves P moves color in
  let moves := generate_queen_moves P moves color in
  let moves := generate_king_moves P moves color in
  generate_castling_moves P moves color.

(** The opening test of [generate_legal_moves]: no piece other than kings. *)
Definition only_kings (P : Position) : bool :=
  forallb
    (fun c =>
       forallb
         (fun pt =>
            negb (negb (bool_decide (pt = King)) && (count_bits (pieces P c pt) >? 0)))
         piece_type_range)
    color_range.

(** The test applied to each pseudo-legal move, on a copy of the position. *)
Definition leaves_king_safe (P : Position) (move : Move) : bool :=
  let test_pos := make_move move P in
  let enemy_color := if decide (side_to_move P = White) then Black else White in
  let our_king := king_square test_pos (side_to_move P) in
  negb (is_square_attacked test_pos our_king enemy_color).

(** [MoveGenerator::generate_legal_moves] *)
Definition generate_legal_moves (P : Position) : list Move :=
  if only_kings P then []
  else
    let pseudo_legal := generate_all_moves P [] (side_to_move P) in
    filter (fun move => leaves_king_safe P move = true) pseudo_legal.

#[global] Instance Position_eq_dec : EqDecision Position.
Proof. solve_decision. Defined.

(* ===================================================================== *)
(** * constants.h *)
(* ===================================================================== *)

Definition MAX_PLY : Z := 64.
Definition INFINITY_SCORE : Z := 1000000.
Definition MATE_SCORE : Z := 100000.
Definition CHECK_FREQUENCY : Z := 2048.
Definition PAWN_VALUE : Z := 100.
Definition KNIGHT_VALUE : Z := 320.
Definition BISHOP_VALUE : Z := 330.
Definition ROOK_VALUE : Z := 500.
Definition QUEEN_VALUE : Z := 900.
Definition KING_VALUE : Z := 20000.
Definition WINNING_CAPTURE_SCORE : Z := 10000.
Definition PROMOTION_SCORE : Z := 9500.
Definition KILLER_MOVE_1_SCORE : Z := 8000.
Definition KILLER_MOVE_2_SCORE : Z := 7000.
Definition TT_MOVE_SCORE : Z := 15000.
Definition DEFAULT_HASH_SIZE_MB : Z := 64.

Definition MVV_LVA_OFFSET : list (list Z) :=
  [ [105; 205; 305; 405; 505; 605];
    [104; 204; 304; 404; 504; 604];
    [103; 203; 303; 403; 503; 603];
    [102; 202; 302; 402; 502; 602];
    [101; 201; 301; 401; 501; 601];
    [100; 200; 300; 400; 500; 600] ].

(* ===================================================================== *)
(** * transposition_table.h / transposition_table.cpp *)
(* ===================================================================== *)

Inductive BoundType := NONE | EXACT | LOWER_BOUND | UPPER_BOUND.

#[global] Instance BoundType_eq_dec : EqDecision BoundType.
Proof. solve_decision. Defined.

Definition BoundType_to_Z (b : BoundType) : Z :=
  match b with NONE => 0 | EXACT => 1 | LOWER_BOUND => 2 | UPPER_BOUND => 3 end.

Definition BoundType_of_Z (z : Z) : BoundType :=
  match z with 1 => EXACT | 2 => LOWER_BOUND | 3 => UPPER_BOUND | _ => NONE end.

(** [static_cast<int16_t>]: the value modulo 2^16, read as signed. *)
Definition S16 (z : Z) : Z := (z + 2^15) mod 2^16 - 2^15.

Record TTEntry := mkTTEntry {
  key : Z;
  score : Z;
  depth : Z;
  bound_type : Z;
  age : Z;
  best_move : Move
}.

#[global] Instance TTEntry_eq_dec : EqDecision TTEntry.
Proof. solve_decision. Defined.

(** [TTEntry()] *)
Definition TTEntry_default : TTEntry := mkTTEntry 0 0 (-1) 0 0 Move_default.

Definition is_valid (e : TTEntry) : bool := depth e >=? 0.

Record TranspositionTable := mkTranspositionTable {
  table_ : list TTEntry;
  table_size_ : Z;
  current_age_ : Z
}.

(** [sizeof(TTEntry)] under the usual 64-bit layout: 8 + 2 + 2 + 1 + 1,
    padding to 16, and the 32 bytes of a [Move]. *)
Definition sizeof_TTEntry : Z := 48.

(** [resize], which ends with [clear]. *)
Definition TT_resize (size_mb : Z) (tt : TranspositionTable) : TranspositionTable :=
  let bytes := size_mb * 1024 * 1024 in
  let table_size := bytes / sizeof_TTEntry in
  mkTranspositionTable (replicate (Z.to_nat table_size) TTEntry_default)
    table_size (current_age_ tt).

(** [TranspositionTable(size_mb)] *)
Definition TT_new (size_mb : Z) : TranspositionTable :=
  TT_resize size_mb (mkTranspositionTable [] 0 0).

Definition TT_new_search (tt : TranspositionTable) : TranspositionTable :=
  mkTranspositionTable (table_ tt) (table_size_ tt) (U8 (current_age_ tt + 1)).

Definition get_index (tt : TranspositionTable) (k : Z) : Z := k mod table_size_ tt.

Definition TT_entry (tt : TranspositionTable) (index : Z) : TTEntry :=
  default TTEntry_default (table_ tt !! Z.to_nat index).

Definition should_replace (existing : TTEntry) (new_depth new_age : Z) : bool :=
  if negb (is_valid existing) then true
  else if negb (new_age =? age existing) then true
  else new_depth >=? depth existing.

(** [TranspositionTable::store] *)
Definition TT_store (tt : TranspositionTable) (k : Z) (sc : Z) (d : Z)
    (bound : BoundType) (bm : Move) (ply : Z) : TranspositionTable :=
  let index := get_index tt k in
  let entry := TT_entry tt index in
  let store_score :=
    if sc >? MATE_SCORE - MAX_PLY then sc + ply
    else if sc <? - MATE_SCORE + MAX_PLY then sc - ply
    else sc in
  if negb (is_valid entry) || should_replace entry d (current_age_ tt) then
    let entry :=
      mkTTEntry k (S16 store_score) (S16 d) (BoundType_to_Z bound)
        (current_age_ tt) bm in
    mkTranspositionTable (<[Z.to_nat index := entry]> (table_ tt))
      (table_size_ tt) (current_age_ tt)
  else tt.

(** [TranspositionTable::probe]: [None] is the [false] result, otherwise
    the values written through the reference parameters. *)
Definition TT_probe (tt : TranspositionTable) (k : Z) (ply : Z)
    : option (Z * Z * BoundType * Move) :=
  let index := get_index tt k in
  let entry := TT_entry tt index in
  if negb (is_valid entry) || negb (key entry =? k) then None
  else
    let sc := score entry in
    let sc :=
      if sc >? MATE_SCORE - MAX_PLY then sc - ply
      else if sc <? - MATE_SCORE + MAX_PLY then sc + ply
      else sc in
    Some (sc, depth entry, BoundType_of_Z (bound_type entry), best_move entry).

(* ===================================================================== *)
(** * time_manager.cpp *)
(* ===================================================================== *)

Record TimeManager := mkTimeManager {
  start_time_ : Z;
  allocated_time_ms_ : Z
}.

(* ===================================================================== *)
(** * search.cpp *)
(* ===================================================================== *)

(** The search object.  [steady_clock_] gives the successive readings of
    the monotonic clock in milliseconds and [clock_reads_] counts the
    readings taken so far; [evaluator_] stands for the evaluator the
    search was constructed with. *)
Record Search := mkSearch {
  evaluator_ : Position -> Z;
  time_manager_ : option TimeManager;
  steady_clock_ : nat -> Z;
  clock_reads_ : nat;
  nodes_searched_ : Z;
  stop_search_ : bool;
  tt_ : TranspositionTable;
  killer_moves_ : list (Move * Move);
  nodes_since_time_check_ : Z;
  tt_hits_ : Z;
  tt_cutoffs_ : Z
}.

Definition with_clock_reads (n : nat) (se : Search) : Search :=
  mkSearch (evaluator_ se) (time_manager_ se) (steady_clock_ se) n (nodes_searched_ se)
    (stop_search_ se) (tt_ se) (killer_moves_ se) (nodes_since_time_check_ se)
    (tt_hits_ se) (tt_cutoffs_ se).

Definition with_nodes_searched (n : Z) (se : Search) : Search :=
  mkSearch (evaluator_ se) (time_manager_ se) (steady_clock_ se) (clock_reads_ se) n
    (stop_search_ se) (tt_ se) (killer_moves_ se) (nodes_since_time_check_ se)
    (tt_hits_ se) (tt_cutoffs_ se).

Definition with_stop_search (b : bool) (se : Search) : Search :=
  mkSearch (evaluator_ se) (time_manager_ se) (steady_clock_ se) (clock_reads_ se)
    (nodes_searched_ se) b (tt_ se) (killer_moves_ se) (nodes_since_time_check_ se)
    (tt_hits_ se) (tt_cutoffs_ se).

Definition with_tt (tt : TranspositionTable) (se : Search) : Search :=
  mkSearch (evaluator_ se) (time_manager_ se) (steady_clock_ se) (clock_reads_ se)
    (nodes_searched_ se) (stop_search_ se) tt (killer_moves_ se)
    (nodes_since_time_check_ se) (tt_hits_ se) (tt_cutoffs_ se).

Definition with_killer_moves (k : list (Move * Move)) (se : Search) : Search :=
  mkSearch (evaluator_ se) (time_manager_ se) (steady_clock_ se) (clock_reads_ se)
    (nodes_searched_ se) (stop_search_ se) (tt_ se) k (nodes_since_time_check_ se)
    (tt_hits_ se) (tt_cutoffs_ se).

Definition with_nodes_since_time_check (n : Z) (se : Search) : Search :=
  mkSearch (evaluator_ se) (time_manager_ se) (steady_clock_ se) (clock_reads_ se)
    (nodes_searched_ se) (stop_search_ se) (tt_ se) (killer_moves_ se) n
    (tt_hits_ se) (tt_cutoffs_ se).

Definition with_tt_stats (hits cutoffs : Z) (se : Search) : Search :=
  mkSearch (evaluator_ se) (time_manager_ se) (steady_clock_ se) (clock_reads_ se)
    (nodes_searched_ se) (stop_search_ se) (tt_ se) (killer_moves_ se)
    (nodes_since_time_check_ se) hits cutoffs.

(** [TimeManager::should_stop], taking one reading of the clock. *)
Definition TimeManager_should_stop (tm : TimeManager) (se : Search) : bool * Search :=
  let current_time := steady_clock_ se (clock_reads_ se) in
  let elapsed := current_time - start_time_ tm in
  (elapsed >=? allocated_time_ms_ tm, with_clock_reads (Datatypes.S (clock_reads_ se)) se).

(** [Search::should_check_time] *)
Definition should_check_time (se : Search) : bool * Search :=
  let n := nodes_since_time_check_ se + 1 in
  if n >=? CHECK_FREQUENCY then
    let se := with_nodes_since_time_check 0 se in
    match time_manager_ se with
    | None => (false, se)
    | Some tm => TimeManager_should_stop tm se
    end
  else (false, with_nodes_since_time_check n se).

Definition get_piece_value (pt : PieceType) : Z :=
  match pt with
  | Pawn => PAWN_VALUE | Knight => KNIGHT_VALUE | Bishop => BISHOP_VALUE
  | Rook => ROOK_VALUE | Queen => QUEEN_VALUE | King => KING_VALUE
  | PieceType_NB => 0
  end.

(** [killer_moves_[ply][slot]]; the array is zero-filled by [memset]. *)
Definition Move_zero : Move := mkMove 0 0 Normal WhitePawn WhitePawn 0 0 0.

Definition killer_index (pos : Position) : nat :=
  Z.to_nat (Z.min (move_count pos) (MAX_PLY - 1)).

Definition killer (se : Search) (ply : nat) : Move * Move :=
  default (Move_zero, Move_zero) (killer_moves_ se !! ply).

(** [killer[ply][1] = killer[ply][0]; killer[ply][0] = move] *)
Definition update_killers (ply : nat) (move : Move) (se : Search) : Search :=
  with_killer_moves (<[ply := (move, fst (killer se ply))]> (killer_moves_ se)) se.

Definition mvv_lva (attacker_index victim_index : Z) : Z :=
  default 0 (default [] (MVV_LVA_OFFSET !! Z.to_nat attacker_index)
               !! Z.to_nat victim_index).

(** The score [order_moves] gives one move. *)
Definition move_order_score (se : Search) (pos : Position) (tt_move move : Move) : Z :=
  if negb (from_square tt_move =? Square_None) && Move_eqb move tt_move then
    TT_MOVE_SCORE
  else if bool_decide (move_type move = Capture)
          || bool_decide (move_type move = EnPassant) then
    let victim := piece_on pos (to_square move) in
    let victim :=
      if decide (move_type move = EnPassant) then
        if decide (side_to_move pos = White) then BlackPawn else WhitePawn
      else victim in
    let attacker := piece_on pos (from_square move) in
    if bool_decide (attacker <> Piece_None) && bool_decide (victim <> Piece_None) then
      WINNING_CAPTURE_SCORE
      + mvv_lva (PieceType_to_Z (type_of attacker)) (PieceType_to_Z (type_of victim))
    else 0
  else if decide (move_type move = Promotion) then
    PROMOTION_SCORE + get_piece_value (type_of (promotion_piece move))
  else if Move_eqb move (fst (killer se (killer_index pos))) then KILLER_MOVE_1_SCORE
  else if Move_eqb move (snd (killer se (killer_index pos))) then KILLER_MOVE_2_SCORE
  else 0.

Section Search.

(** [std::sort] with the comparator [a.second > b.second].  The order it
    leaves among moves of equal score is the library's choice, so the
    sorting function is a parameter of the search. *)
Variable std_sort : list (Move * Z) -> list (Move * Z).

(** [Search::order_moves] *)
Definition order_moves (se : Search) (moves : list Move) (pos : Position)
    (tt_move : Move) : list Move :=
  let scores := map (move_order_score se pos tt_move) moves in
  let move_score_pairs := zip moves scores in
  map fst (std_sort move_score_pairs).

(** The result of a search routine: the score with the search object
    and the position as the call leaves them. *)
Definition Result : Type := Z * Search * Position.

(** The state of the move loop of [negamax] and [negamax_root]. *)
Record LoopState := mkLoopState {
  ls_alpha : Z;
  ls_best_score : Z;
  ls_best_move : Move
}.

(** How a move loop ended: it ran through or broke out ([Fallthrough]),
    or it left the function with a [return] ([Returned]). *)
Inductive LoopExit :=
  | Fallthrough (ls : LoopState)
  | Returned (value : Z) (ls : LoopState).

Section Loops.

(** The recursive call [negamax(pos, depth, alpha, beta, ply)]. *)
Variable rec : Position -> Z -> Z -> Z -> Z -> Search -> option Result.

(** [for (const Move& move : legal_moves)] of [negamax] *)
Fixpoint negamax_loop (moves : list Move) (depth beta ply : Z)
    (ls : LoopState) (se : Search) (pos : Position)
    : option (LoopState * Search * Position) :=
  match moves with
  | [] => Some (ls, se, pos)
  | move :: moves' =>
      if stop_search_ se then Some (ls, se, pos)
      else
        let pos := make_move move pos in
        match rec pos (depth - 1) (- beta) (- ls_alpha ls) (ply + 1) se with
        | None => None
        | Some (r, se, pos) =>
            let sc := - r in
            let pos := undo_move pos in
            if stop_search_ se then Some (ls, se, pos)
            else
              let ls :=
                if sc >? ls_best_score ls then
                  mkLoopState
                    (if sc >? ls_alpha ls then sc else ls_alpha ls) sc move
                else ls in
              if sc >=? beta then
                let killer_ply := killer_index pos in
                let se :=
                  if decide (move_type move <> Capture)
                  then update_killers killer_ply move se else se in
                Some (mkLoopState (ls_alpha ls) beta move, se, pos)
              else negamax_loop moves' depth beta ply ls se pos
        end
  end.

(** [for (const Move& move : legal_moves)] of [negamax_root] *)
Fixpoint negamax_root_loop (moves : list Move) (depth beta ply : Z)
    (ls : LoopState) (se : Search) (pos : Position)
    : option (LoopExit * Search * Position) :=
  match moves with
  | [] => Some (Fallthrough ls, se, pos)
  | move :: moves' =>
      if stop_search_ se then Some (Fallthrough ls, se, pos)
      else
        let pos := make_move move pos in
        match rec pos (depth - 1) (- beta) (- ls_alpha ls) (ply + 1) se with
        | None => None
        | Some (r, se, pos) =>
            let sc := - r in
            let pos := undo_move pos in
            if stop_search_ se then Some (Fallthrough ls, se, pos)
            else
              let ls :=
                if sc >? ls_best_score ls then
                  mkLoopState
                    (if sc >? ls_alpha ls then sc else ls_alpha ls) sc move
                else ls in
              if sc >=? beta then
                let se :=
                  if decide (move_type move <> Capture)
                  then update_killers 0 move se else se in
                Some (Returned beta ls, se, pos)
              else negamax_root_loop moves' depth beta ply ls se pos
        end
  end.

End Loops.

Section Quiescence.

(** The recursive call [quiescence(pos, alpha, beta, ply)]. *)
Variable rec : Position -> Z -> Z -> Z -> Search -> option Result.

(** [for (const Move& move : captures)]: the result is the value the
    function returns after or from within the loop. *)
Fixpoint quiescence_loop (captures : list Move) (alpha beta ply : Z)
    (se : Search) (pos : Position) : option Result :=
  match captures with
  | [] => Some (alpha, se, pos)
  | move :: captures' =>
      if stop_search_ se then Some (alpha, se, pos)
      else
        let pos := make_move move pos in
        match rec pos (- beta) (- alpha) (ply + 1) se with
        | None => None
        | Some (r, se, pos) =>
            let sc := - r in
            let pos := undo_move pos in
            if sc >=? beta then Some (beta, se, pos)
            else
              let alpha := if sc >? alpha then sc else alpha in
              quiescence_loop captures' alpha beta ply se pos
        end
  end.

End Quiescence.

Definition is_noisy (move : Move) : bool :=
  bool_decide (move_type move = Capture)
  || bool_decide (move_type move = EnPassant)
  || bool_decide (move_type move = Promotion).

(** [Search::quiescence].  The recursion is bounded by the captures
    left on the board, not by a counter; [fuel] bounds it here and
    [None] means the bound was too small. *)
Fixpoint quiescence (fuel : nat) (pos : Position) (alpha beta ply : Z) (se : Search)
    : option Result :=
  match fuel with
  | O => None
  | Datatypes.S fuel' =>
      let '(timeout, se) := should_check_time se in
      if timeout then Some (0, with_stop_search true se, pos)
      else
        let se := with_nodes_searched (nodes_searched_ se + 1) se in
        let stand_pat := evaluator_ se pos in
        if stand_pat >=? beta then Some (beta, se, pos)
        else
          let alpha := if alpha <? stand_pat then stand_pat else alpha in
          let all_moves := generate_legal_moves pos in
          let captures := List.filter is_noisy all_moves in
          let captures := order_moves se captures pos Move_default in
          quiescence_loop (quiescence fuel') captures alpha beta ply se pos
  end.

(** The terminal score of a node without legal moves. *)
Definition game_over_score (pos : Position) : Z :=
  if is_in_check pos then - MATE_SCORE + move_count pos else 0.

(** The use [negamax] makes of a table hit: [inl] is a [return] with
    that score, [inr] the window and statistics to continue with. *)
Definition use_tt_entry (se : Search) (depth alpha beta : Z)
    (tt_score tt_depth : Z) (tt_bound : BoundType)
    : (Z * Search) + (Z * Z * Search) :=
  let hit se := with_tt_stats (tt_hits_ se + 1) (tt_cutoffs_ se) se in
  let cut se := with_tt_stats (tt_hits_ se) (tt_cutoffs_ se + 1) se in
  if tt_depth >=? depth then
    let step : (Z * Search) + (Z * Z * Search) :=
      match tt_bound with
      | EXACT => inl (tt_score, cut (hit se))
      | LOWER_BOUND =>
          if tt_score >=? beta then inl (tt_score, cut (hit se))
          else inr (Z.max alpha tt_score, beta, hit se)
      | UPPER_BOUND =>
          if tt_score <=? alpha then inl (tt_score, cut (hit se))
          else inr (alpha, Z.min beta tt_score, hit se)
      | NONE => inr (alpha, beta, se)
      end in
    match step with
    | inl r => inl r
    | inr (alpha, beta, se) =>
        if alpha >=? beta then inl (tt_score, cut se) else inr (alpha, beta, se)
    end
  else inr (alpha, beta, hit se).

(** [Search::negamax] *)
Fixpoint negamax (fuel : nat) (pos : Position) (depth alpha beta ply : Z)
    (se : Search) : option Result :=
  match fuel with
  | O => None
  | Datatypes.S fuel' =>
      let '(timeout, se) := should_check_time se in
      if timeout then Some (0, with_stop_search true se, pos)
      else
        let se := with_nodes_searched (nodes_searched_ se + 1) se in
        let original_alpha := alpha in
        let hk := hash_key pos in
        let probe := TT_probe (tt_ se) hk ply in
        let tt_move :=
          match probe with
          | Some (_, _, _, m) => m
          | None => Move_default
          end in
        let after_probe : (Z * Search) + (Z * Z * Search) :=
          match probe with
          | Some (tt_score, tt_depth, tt_bound, _) =>
              use_tt_entry se depth alpha beta tt_score tt_depth tt_bound
          | None => inr (alpha, beta, se)
          end in
        match after_probe with
        | inl (r, se) => Some (r, se, pos)
        | inr (alpha, beta, se) =>
            let legal_moves := generate_legal_moves pos in
            match legal_moves with
            | [] => Some (game_over_score pos, se, pos)
            | _ :: _ =>
                if depth =? 0 then quiescence fuel' pos alpha beta ply se
                else
                  let legal_moves := order_moves se legal_moves pos tt_move in
                  match
                    negamax_loop
                      (fun pos depth alpha beta ply se =>
                         negamax fuel' pos depth alpha beta ply se)
                      legal_moves depth beta ply
                      (mkLoopState alpha (- INFINITY_SCORE) Move_default) se pos
                  with
                  | None => None
                  | Some (ls, se, pos) =>
                      let best_score := ls_best_score ls in
                      let bound :=
                        if best_score <=? original_alpha then UPPER_BOUND
                        else if best_score >=? beta then LOWER_BOUND
                        else EXACT in
                      let se :=
                        with_tt
                          (TT_store (tt_ se) hk best_score depth bound
                             (ls_best_move ls) ply) se in
                      Some (best_score, se, pos)
                  end
            end
        end
  end.

(** [Search::negamax_root]; the move written through [best_move] is
    returned with the score. *)
Definition negamax_root (fuel : nat) (pos : Position) (depth alpha beta : Z)
    (best_move : Move) (ply : Z) (se : Search) : option (Z * Move * Search * Position) :=
  let '(timeout, se) := should_check_time se in
  if timeout then Some (0, best_move, with_stop_search true se, pos)
  else
    let se := with_nodes_searched (nodes_searched_ se + 1) se in
    let legal_moves := generate_legal_moves pos in
    match legal_moves with
    | [] => Some (game_over_score pos, best_move, se, pos)
    | _ :: _ =>
        let legal_moves := order_moves se legal_moves pos Move_default in
        match
          negamax_root_loop
            (fun pos depth alpha beta ply se => negamax fuel pos depth alpha beta ply se)
            legal_moves depth beta ply
            (mkLoopState alpha (- INFINITY_SCORE) best_move) se pos
        with
        | None => None
        | Some (Returned value ls, se, pos) =>
            Some (value, ls_best_move ls, se, pos)
        | Some (Fallthrough ls, se, pos) =>
            Some (ls_best_score ls, ls_best_move ls, se, pos)
        end
    end.

End Search.

(* ===================================================================== *)
(** * zobrist.cpp: the incremental update *)
(* ===================================================================== *)

(** [ZobristHash::update_hash_make_move] *)
Definition update_hash_make_move (current_hash : Z) (pos : Position) (move : Move) : Z :=
  let from := from_square move in
  let to := to_square move in
  let hash := Z.lxor current_hash side_to_move_key_ in
  let moving_piece := piece_on pos from in
  let hash := Z.lxor hash (piece_keys_ from (piece_index moving_piece)) in
  let hash :=
    match move_type move with
    | Normal => Z.lxor hash (piece_keys_ to (piece_index moving_piece))
    | Capture =>
        let hash :=
          if decide (captured_piece move <> Piece_None)
          then Z.lxor hash (piece_keys_ to (piece_index (captured_piece move)))
          else hash in
        Z.lxor hash (piece_keys_ to (piece_index moving_piece))
    | Castle =>
        let hash := Z.lxor hash (piece_keys_ to (piece_index moving_piece)) in
        if to =? G1 then
          Z.lxor (Z.lxor hash (piece_keys_ H1 (piece_index WhiteRook)))
            (piece_keys_ F1 (piece_index WhiteRook))
        else if to =? C1 then
          Z.lxor (Z.lxor hash (piece_keys_ A1 (piece_index WhiteRook)))
            (piece_keys_ D1 (piece_index WhiteRook))
        else if to =? G8 then
          Z.lxor (Z.lxor hash (piece_keys_ H8 (piece_index BlackRook)))
            (piece_keys_ F8 (piece_index BlackRook))
        else if to =? C8 then
          Z.lxor (Z.lxor hash (piece_keys_ A8 (piece_index BlackRook)))
            (piece_keys_ D8 (piece_index BlackRook))
        else hash
    | EnPassant =>
        let hash := Z.lxor hash (piece_keys_ to (piece_index moving_piece)) in
        let captured_square :=
          if decide (side_to_move pos = White) then to - 8 else to + 8 in
        let captured_pawn :=
          if decide (side_to_move pos = White) then BlackPawn else WhitePawn in
        Z.lxor hash (piece_keys_ captured_square (piece_index captured_pawn))
    | Promotion =>
        let hash := Z.lxor hash (piece_keys_ to (piece_index (promotion_piece move))) in
        if decide (captured_piece move <> Piece_None)
        then Z.lxor hash (piece_keys_ to (piece_index (captured_piece move)))
        else hash
    | MoveType_NB => hash
    end in
  let hash := Z.lxor hash (castling_keys_ (castling_rights pos)) in
  if negb (en_passant_square pos =? Square_None)
  then Z.lxor hash (en_passant_keys_ (file_of (en_passant_square pos)))
  else hash.

(* ===================================================================== *)
(** * The invariants of a position *)
(* ===================================================================== *)

Definition all_squares : list Square := map Z.of_nat (seq 0 64).

(** Mailbox and bitboards agree on one square: the bitboard of a piece has
    the bit exactly when the mailbox names that piece there, and the
    mailbox holds a piece or [Piece::None]. *)
Definition sync_at (P : Position) (sq : Square) : bool :=
  negb (bool_decide (piece_on P sq = Piece_NB))
  && forallb
       (fun c =>
          forallb
            (fun t =>
               Bool.eqb (Z.testbit (pieces P c t) sq)
                        (bool_decide (piece_on P sq = make_piece c t)))
            piece_type_range)
       color_range.

(** The en-passant square is unset, or it is the empty square a pawn of
    the side that has just moved crossed in a double push. *)
Definition en_passant_ok (P : Position) : bool :=
  let ep := en_passant_square_ P in
  (ep =? Square_None)
  || (bool_decide (side_to_move_ P = White)
        && (40 <=? ep) && (ep <? 48)
        && bool_decide (piece_on P ep = Piece_None)
        && bool_decide (piece_on P (ep - 8) = BlackPawn))
  || (bool_decide (side_to_move_ P = Black)
        && (16 <=? ep) && (ep <? 24)
        && bool_decide (piece_on P ep = Piece_None)
        && bool_decide (piece_on P (ep + 8) = WhitePawn)).

(** The invariants of the data model: array sizes, 64-bit boards, mailbox
    in step with the bitboards, aggregates equal to the unions, a side to
    move, a consistent en-passant square, and the stored hash equal to the
    hash of the position. *)
Definition valid_position (P : Position) : bool :=
  (length (pieces_ P) =? 12)%nat
  && (length (board_ P) =? 64)%nat
  && forallb (fun bb => (0 <=? bb) && (bb <? 2^64)) (pieces_ P)
  && forallb (sync_at P) all_squares
  && bool_decide (update_bitboards P = P)
  && (bool_decide (side_to_move_ P = White) || bool_decide (side_to_move_ P = Black))
  && en_passant_ok P
  && (hash_key_ P =? hash_position P).

(* ===================================================================== *)
(** * Predicates used in the statements *)
(* ===================================================================== *)

(** The values of a [uint64_t]. *)
Definition bb_range (bb : Z) : Prop := 0 <= bb < 2^64.

(** [k] is the lowest (resp. highest) set bit of [bb]. *)
Definition is_lowest (bb k : Z) : Prop :=
  0 <= k < 64 /\ Z.testbit bb k = true /\ forall j, 0 <= j < k -> Z.testbit bb j = false.

Definition is_highest (bb k : Z) : Prop :=
  0 <= k < 64 /\ Z.testbit bb k = true /\ forall j, k < j -> Z.testbit bb j = false.

(** The [k]-th square from [s] in direction [d]. *)
Definition ray_square (s : Square) (d : Direction) (k : Z) : Square :=
  s + k * direction_offset d.

(** [t] lies on the ray from [s] in direction [d] and no square strictly
    between [s] and [t] is occupied. *)
Definition visible_along (s : Square) (occ : Bitboard) (d : Direction) (t : Square) : Prop :=
  exists k,
    1 <= k <= ray_steps s d /\ t = ray_square s d k
    /\ forall j, 1 <= j < k -> Z.testbit occ (ray_square s d j) = false.

(** The steps of a direction along files and ranks. *)
Definition file_delta (d : Direction) : Z :=
  match d with
  | North | South => 0
  | East | NorthEast | SouthEast => 1
  | West | NorthWest | SouthWest => -1
  end.

Definition rank_delta (d : Direction) : Z :=
  match d with
  | East | West => 0
  | North | NorthEast | NorthWest => 1
  | South | SouthEast | SouthWest => -1
  end.

(** The directions whose offset is positive: N, NE, E, NW. *)
Definition positive_direction (d : Direction) : bool := 0 <? direction_offset d.

(** The nearest blocker as the claim describes it: the LSB of the
    blockers for a positive direction, the MSB for a negative one. *)
Definition nearest_blocker (d : Direction) (blockers : Bitboard) : Square :=
  if positive_direction d then get_lsb_index blockers else get_msb_index blockers.

(** [ray[dir][s]], the table entry of a direction. *)
Definition ray (d : Direction) (s : Square) : Bitboard := ray_table (dir_index_of d) s.

(** What the claim says of one ray of a slider's attack set [attacks]:
    the part of [attacks] on the ray is the squares up to and including
    the first occupied one; a ray without blocker is there whole; with
    blockers, the nearest one (LSB or MSB by direction) is the first
    occupied square of the ray, it is attacked, and nothing beyond it is. *)
Definition ray_truncated (attacks : Bitboard) (s : Square) (occ : Bitboard)
    (d : Direction) : Prop :=
  (forall t, Z.testbit (Z.land attacks (ray d s)) t = true <-> visible_along s occ d t)
  /\ (Z.land (ray d s) occ = 0 -> Z.land attacks (ray d s) = ray d s)
  /\ (Z.land (ray d s) occ <> 0 ->
      exists k,
        1 <= k <= ray_steps s d
        /\ nearest_blocker d (Z.land (ray d s) occ) = ray_square s d k
        /\ Z.testbit occ (ray_square s d k) = true
        /\ (forall j, 1 <= j < k -> Z.testbit occ (ray_square s d j) = false)
        /\ Z.testbit attacks (ray_square s d k) = true
        /\ forall m, k < m <= ray_steps s d ->
                     Z.testbit attacks (ray_square s d m) = false).

(** The colours and piece types of actual pieces. *)
Definition real_color (c : Color) : Prop := c = White \/ c = Black.
Definition real_type (t : PieceType) : Prop := t <> PieceType_NB.

(** An array entry read the way the code reads it. *)
Definition entry (l : list Bitboard) (i : nat) : Bitboard := default 0 (l !! i).
Definition cell (b : list Piece) (i : nat) : Piece := default Piece_None (b !! i).

(** [l[i].set_bit(s)] and [l[i].clear_bit(s)] on the flattened array. *)
Definition pl_set (l : list Bitboard) (i : nat) (s : Square) : list Bitboard :=
  <[i := set_bit (entry l i) s]> l.
Definition pl_clear (l : list Bitboard) (i : nat) (s : Square) : list Bitboard :=
  <[i := clear_bit (entry l i) s]> l.

(** What the generator guarantees of a pseudo-legal move of the side to
    move: the squares are on the board, the moving piece is the mover's
    own, and the destination suits the kind of move. *)
Definition own_piece_at (P : Position) (sq : Square) : Prop :=
  color_of (piece_on P sq) = side_to_move_ P.

Definition not_own_at (P : Position) (sq : Square) : Prop :=
  color_of (piece_on P sq) <> side_to_move_ P.

Definition castle_ok (P : Position) (m : Move) : Prop :=
  let c := side_to_move_ P in
  let from := from_square m in
  let to := to_square m in
  ((c = White /\ from = E1 /\ (to = G1 \/ to = C1))
   \/ (c = Black /\ from = E8 /\ (to = G8 \/ to = C8)))
  /\ piece_on P from = make_piece c King
  /\ piece_on P (fst (castle_rook_squares to)) = make_piece c Rook
  /\ piece_on P to = Piece_None
  /\ piece_on P (snd (castle_rook_squares to)) = Piece_None.

Definition move_ok (P : Position) (m : Move) : Prop :=
  0 <= from_square m < 64 /\ 0 <= to_square m < 64
  /\ own_piece_at P (from_square m)
  /\ match move_type m with
     | Normal | Capture => not_own_at P (to_square m)
     | Castle => castle_ok P m
     | EnPassant =>
         type_of (piece_on P (from_square m)) = Pawn
         /\ to_square m = en_passant_square_ P
     | Promotion =>
         type_of (piece_on P (from_square m)) = Pawn
         /\ not_own_at P (to_square m)
         /\ exists t, promotion_piece m = make_piece (side_to_move_ P) t
                      /\ real_type t /\ t <> Pawn
     | MoveType_NB => False
     end.

(** A pseudo-legal move that is not a castling move. *)
Definition quiet_ok (P : Position) (m : Move) : Prop :=
  move_ok P m /\ move_type m <> Castle.

Record valid_facts (P : Position) : Prop := {
  vf_pieces_length : length (pieces_ P) = 12%nat;
  vf_board_length : length (board_ P) = 64%nat;
  vf_range : forall k, bb_range (entry (pieces_ P) k);
  vf_not_nb : forall sq, 0 <= sq < 64 -> piece_on P sq <> Piece_NB;
  vf_sync : forall sq c t, 0 <= sq < 64 -> real_color c -> real_type t ->
      (Z.testbit (pieces P c t) sq = true <-> piece_on P sq = make_piece c t);
  vf_aggregates : update_bitboards P = P;
  vf_side : real_color (side_to_move_ P);
  vf_en_passant : en_passant_ok P = true;
  vf_hash : hash_key_ P = hash_position P
}.

(** Two positions with the same piece placement, side to move, move
    number and history: what the castling-rights and en-passant blocks
    of [make_move] leave alone. *)
Definition keeps_board (A B : Position) : Prop :=
  pieces_ A = pieces_ B /\ board_ A = board_ B
  /\ side_to_move_ A = side_to_move_ B
  /\ fullmove_number_ A = fullmove_number_ B
  /\ move_history_ A = move_history_ B.

(** Two positions that differ at most in the piece placement: what the
    two [switch] statements leave alone, the halfmove clock apart. *)
Definition keeps_state (A B : Position) : Prop :=
  side_to_move_ A = side_to_move_ B
  /\ castling_rights_ A = castling_rights_ B
  /\ en_passant_square_ A = en_passant_square_ B
  /\ fullmove_number_ A = fullmove_number_ B
  /\ move_history_ A = move_history_ B.

(** The conditions of one castling move, as the claim lists them: the
    side to move is [color] and is not in check, its king stands on
    [king_from], the right is still held, the squares of [between] are
    empty, those of [crossed] are not attacked by the other side, and the
    rook of [color] stands on [rook_sq]. *)
Definition castle_conditions (P : Position) (color : Color) (right : Z)
    (king_from rook_sq : Square) (between crossed : list Square) : Prop :=
  side_to_move_ P = color
  /\ is_in_check P = false
  /\ king_square P color = king_from
  /\ has_castling_right (castling_rights_ P) right = true
  /\ (forall sq, In sq between -> piece_on P sq = Piece_None)
  /\ (forall sq, In sq crossed -> is_square_attacked P sq (opposite_color color) = false)
  /\ piece_on P rook_sq = make_piece color Rook.

(** [m] is one of the four castling moves and its conditions hold. *)
Definition castling_allowed (P : Position) (m : Move) : Prop :=
  (m = Move_new E1 G1 Castle Piece_None
   /\ castle_conditions P White White_OO E1 H1 [F1; G1] [F1; G1])
  \/ (m = Move_new E1 C1 Castle Piece_None
      /\ castle_conditions P White White_OOO E1 A1 [D1; C1; B1] [D1; C1])
  \/ (m = Move_new E8 G8 Castle Piece_None
      /\ castle_conditions P Black Black_OO E8 H8 [F8; G8] [F8; G8])
  \/ (m = Move_new E8 C8 Castle Piece_None
      /\ castle_conditions P Black Black_OOO E8 A8 [D8; C8; B8] [D8; C8]).

(** Whether the table probe of [negamax] ends the call with a stored
    score. *)
Definition tt_returns (se : Search) (pos : Position) (depth alpha beta ply : Z) : bool :=
  match TT_probe (tt_ se) (hash_key pos) ply with
  | Some (tt_score, tt_depth, tt_bound, _) =>
      match use_tt_entry se depth alpha beta tt_score tt_depth tt_bound with
      | inl _ => true
      | inr _ => false
      end
  | None => false
  end.

(* ===================================================================== *)
(** * Concrete data used in the examples *)
(* ===================================================================== *)

(** A stable insertion sort by descending score, one admissible behaviour
    of [std::sort] with the comparator of [order_moves]. *)
Fixpoint insert_desc (x : Move * Z) (l : list (Move * Z)) : list (Move * Z) :=
  match l with
  | [] => [x]
  | y :: l' => if snd x >=? snd y then x :: l else y :: insert_desc x l'
  end.

Definition sort_desc (l : list (Move * Z)) : list (Move * Z) :=
  fold_right insert_desc [] l.

(** A search object as [Search(eval)] builds it, with a table of the given
    size, a time manager and a clock. *)
Definition Search_new (eval : Position -> Z) (size_mb : Z)
    (tm : option TimeManager) (clock : nat -> Z) : Search :=
  mkSearch eval tm clock 0 0 false (TT_new size_mb)
    (replicate 64 (Move_zero, Move_zero)) 0 0 0.

(** The second perft reference position, where White may castle on
    either side. *)
Definition kiwipete_position : Position :=
  position_of_fen "r3k2r/p1ppqpb1/bn2pnp1/3PN3/1p2P3/2N2Q1p/PPPBBPPP/R3K2R w KQkq - 0 1".

Definition mate_position : Position :=
  position_of_fen "R6k/8/7K/8/8/8/8/8 b - - 0 1".

Definition stalemate_position : Position :=
  position_of_fen "k7/8/1K1Q4/8/8/8/8/8 b - - 0 1".

(** A time manager whose budget of 100 ms is spent, with a clock that
    reads 1000 ms. *)
Definition expired_time_manager : TimeManager := mkTimeManager 0 100.
Definition late_clock : nat -> Z := fun _ => 1000.

(** A search object as the engine holds it (64 MB table), one node short
    of the next time poll. *)
Definition search_before_poll : Search :=
  with_nodes_since_time_check (CHECK_FREQUENCY - 2)
    (Search_new (fun _ => 0) DEFAULT_HASH_SIZE_MB (Some expired_time_manager) late_clock).

(** The same search object with the stop flag already raised, as
    [Search::stop] does from the command loop. *)
Definition search_stopped : Search :=
  with_stop_search true
    (Search_new (fun _ => 0) DEFAULT_HASH_SIZE_MB (Some expired_time_manager) late_clock).

(** A search object with a small table and no time manager. *)
Definition search_plain : Search := Search_new (fun _ => 0) 1 None late_clock.

Definition is_inl {A B : Type} (x : A + B) : bool :=
  match x with inl _ => true | inr _ => false end.


(** What a [negamax] call reports: its score, the stop flag it leaves, and
    whether the table then answers a probe for [pos] at [ply]. *)
Definition negamax_report (pos : Position) (depth alpha beta ply : Z) (se : Search)
    : option (Z * bool * bool) :=
  option_map
    (fun r =>
       (fst (fst r), stop_search_ (snd (fst r)),
        bool_decide (TT_probe (tt_ (snd (fst r))) (hash_key pos) ply <> None)))
    (negamax sort_desc 3 pos depth alpha beta ply se).


(** The position after 1. a3, with one move in its history. *)
Definition position_after_a3 : Position :=
  make_move (Move_new 8 16 Normal Piece_None) Position_new.

(** The first reply [order_moves] puts in front there: a7-a6. *)
Definition reply_a6 : Move := Move_new 48 40 Normal Piece_None.

(** The killer entries at two indices after a [negamax] call, with the
    score of the call. *)
Definition killers_report (pos : Position) (depth alpha beta ply : Z) (se : Search)
    (i j : nat) : option (Z * (Move * Move) * (Move * Move)) :=
  option_map
    (fun r => (fst (fst r), killer (snd (fst r)) i, killer (snd (fst r)) j))
    (negamax sort_desc 3 pos depth alpha beta ply se).

Definition bad_piece_fen : string :=
  "rnbqkbnr/ppppxppp/8/8/8/8/PPPPPPPP/RNBQKBNR w KQkq - 0 1".

Definition move_e2e4 : Move := Move_new 12 28 Normal Piece_None.


(* ===================================================================== *)
(** * Bit-level facts about 64-bit boards *)
(* ===================================================================== *)

Lemma bits_above_range bb i : bb_range bb -> 64 <= i -> Z.testbit bb i = false.
Proof.
  intros [H0 H1] Hi.
  destruct (Z.eq_dec bb 0) as [->|Hne]; [apply Z.bits_0|].
  apply Z.bits_above_log2; [lia|].
  assert (Z.log2 bb < 64) by (apply Z.log2_lt_pow2; lia). lia.
Qed.

Lemma range_of_bits bb :
  0 <= bb -> (forall i, 64 <= i -> Z.testbit bb i = false) -> bb_range bb.
Proof.
  intros H0 Hhi.
  assert (E : bb = bb mod 2^64).
  { apply Z.bits_inj'. intros n Hn. rewrite Z.testbit_mod_pow2 by lia.
    destruct (n <? 64) eqn:E; [reflexivity|]. simpl.
    apply Z.ltb_ge in E. apply Hhi. lia. }
  rewrite E. apply Z.mod_pos_bound. lia.
Qed.

Lemma U64_range z : bb_range (U64 z).
Proof. unfold bb_range, U64. apply Z.mod_pos_bound. lia. Qed.

Lemma U64_id z : bb_range z -> U64 z = z.
Proof. intros H. unfold U64. apply Z.mod_small. exact H. Qed.

Lemma testbit_U64 z i : Z.testbit (U64 z) i = (i <? 64) && Z.testbit z i.
Proof. unfold U64. apply Z.testbit_mod_pow2. lia. Qed.

Lemma bit_of_pow2 sq : 0 <= sq < 64 -> bit_of sq = 2 ^ sq.
Proof.
  intros H. unfold bit_of, U8.
  rewrite (Z.mod_small sq) by lia.
  rewrite Z.shiftl_1_l. apply U64_id. split; [lia|].
  apply Z.pow_lt_mono_r; lia.
Qed.

Lemma testbit_bit_of sq i :
  0 <= sq < 64 -> Z.testbit (bit_of sq) i = (sq =? i).
Proof. intros H. rewrite bit_of_pow2 by lia. apply Z.pow2_bits_eqb. lia. Qed.

Lemma testbit_set_bit bb sq i :
  0 <= sq < 64 -> Z.testbit (set_bit bb sq) i = (sq =? i) || Z.testbit bb i.
Proof.
  intros H. unfold set_bit. rewrite Z.lor_spec, testbit_bit_of by lia.
  apply orb_comm.
Qed.

Lemma testbit_clear_bit bb sq i :
  0 <= sq < 64 -> bb_range bb ->
  Z.testbit (clear_bit bb sq) i = negb (sq =? i) && Z.testbit bb i.
Proof.
  intros H Hbb. unfold clear_bit.
  rewrite Z.land_spec, testbit_U64.
  destruct (Z_lt_ge_dec i 0) as [Hneg|Hpos].
  { rewrite !Z.testbit_neg_r by lia. now rewrite !andb_false_r. }
  rewrite Z.lnot_spec, testbit_bit_of by lia.
  destruct (i <? 64) eqn:E; simpl.
  - apply andb_comm.
  - apply Z.ltb_ge in E.
    rewrite (bits_above_range bb i) by (auto; lia). now rewrite !andb_false_r.
Qed.

Lemma set_bit_range bb sq : 0 <= sq < 64 -> bb_range bb -> bb_range (set_bit bb sq).
Proof.
  intros H Hbb. apply range_of_bits.
  - unfold set_bit. apply Z.lor_nonneg. split; [apply Hbb|].
    rewrite bit_of_pow2 by lia. lia.
  - intros i Hi. rewrite testbit_set_bit by lia.
    rewrite (bits_above_range bb i) by (auto; lia).
    destruct (sq =? i) eqn:E; [apply Z.eqb_eq in E; lia|reflexivity].
Qed.

Lemma clear_bit_range bb sq : bb_range bb -> bb_range (clear_bit bb sq).
Proof.
  intros Hbb. apply range_of_bits.
  - unfold clear_bit. apply Z.land_nonneg. left. apply Hbb.
  - intros i Hi. unfold clear_bit. rewrite Z.land_spec.
    rewrite (bits_above_range bb i) by (auto; lia). reflexivity.
Qed.

Lemma is_bit_set_spec bb sq :
  0 <= sq < 64 -> is_bit_set bb sq = Z.testbit bb sq.
Proof.
  intros H. unfold is_bit_set. rewrite bit_of_pow2 by lia.
  destruct (Z.testbit bb sq) eqn:E.
  - destruct (Z.land bb (2 ^ sq) =? 0) eqn:E0; [|reflexivity].
    apply Z.eqb_eq in E0.
    assert (Z.testbit (Z.land bb (2 ^ sq)) sq = true)
      by (rewrite Z.land_spec, E, Z.pow2_bits_true by lia; reflexivity).
    rewrite E0, Z.bits_0 in H0. discriminate.
  - assert (Z.land bb (2 ^ sq) = 0).
    { apply Z.bits_inj'. intros n Hn. rewrite Z.land_spec, Z.bits_0.
      rewrite Z.pow2_bits_eqb by lia.
      destruct (sq =? n) eqn:E1; [|apply andb_false_r].
      apply Z.eqb_eq in E1. subst. now rewrite E. }
    rewrite H0. reflexivity.
Qed.

Lemma land_range_l a b : bb_range a -> 0 <= b -> bb_range (Z.land a b).
Proof.
  intros Ha Hb. apply range_of_bits.
  - apply Z.land_nonneg. left. apply Ha.
  - intros i Hi. rewrite Z.land_spec, (bits_above_range a i) by (auto; lia).
    reflexivity.
Qed.

Lemma land_range a b : bb_range a -> bb_range (Z.land a b).
Proof.
  intros Ha. apply range_of_bits.
  - apply Z.land_nonneg. left. apply Ha.
  - intros i Hi. rewrite Z.land_spec, (bits_above_range a i) by (auto; lia).
    reflexivity.
Qed.

Lemma lor_range a b : bb_range a -> bb_range b -> bb_range (Z.lor a b).
Proof.
  intros Ha Hb. apply range_of_bits.
  - apply Z.lor_nonneg. split; [apply Ha|apply Hb].
  - intros i Hi. rewrite Z.lor_spec, (bits_above_range a i), (bits_above_range b i)
      by (auto; lia). reflexivity.
Qed.

Lemma nonzero_has_bit bb :
  bb_range bb -> bb <> 0 -> exists i, 0 <= i < 64 /\ Z.testbit bb i = true.
Proof.
  intros Hbb Hne. exists (Z.log2 bb).
  assert (0 < bb) by (unfold bb_range in Hbb; lia).
  split; [|now apply Z.bit_log2].
  split; [apply Z.log2_nonneg|]. apply Z.log2_lt_pow2; [lia|apply Hbb].
Qed.

Lemma zero_no_bit bb i : bb = 0 -> Z.testbit bb i = false.
Proof. intros ->. apply Z.bits_0. Qed.

(** ** [count_bits] *)

Lemma count_bits_loop_spec fuel :
  forall bb count,
    0 <= bb < 2 ^ Z.of_nat fuel -> 0 <= count -> count + Z.of_nat fuel < 256 ->
    count <= count_bits_loop fuel bb count <= count + Z.of_nat fuel
    /\ (bb <> 0 -> count < count_bits_loop fuel bb count).
Proof.
  induction fuel as [|fuel IH]; intros bb count Hbb Hc Hsum.
  - simpl in *. split; [lia|]. intros. lia.
  - cbn [count_bits_loop].
    destruct (bb =? 0) eqn:E.
    + apply Z.eqb_eq in E. split; [lia|]. intros. lia.
    + apply Z.eqb_neq in E.
      assert (Hland : Z.land bb 1 = bb mod 2)
        by (change 1 with (Z.ones 1); rewrite Z.land_ones by lia; reflexivity).
      assert (Hm : 0 <= bb mod 2 < 2) by (apply Z.mod_pos_bound; lia).
      assert (HU : U8 (count + Z.land bb 1) = count + bb mod 2).
      { unfold U8. rewrite Hland. apply Z.mod_small. lia. }
      rewrite HU.
      assert (Hshift : Z.shiftr bb 1 = bb / 2)
        by (rewrite Z.shiftr_div_pow2 by lia; reflexivity).
      rewrite Hshift.
      assert (Hpow : 2 ^ Z.of_nat (S fuel) = 2 * 2 ^ Z.of_nat fuel).
      { rewrite Nat2Z.inj_succ, Z.pow_succ_r by lia. reflexivity. }
      assert (Hdiv : 0 <= bb / 2 < 2 ^ Z.of_nat fuel).
      { split; [apply Z.div_pos; lia|]. apply Z.div_lt_upper_bound; lia. }
      destruct (IH (bb / 2) (count + bb mod 2) Hdiv ltac:(lia) ltac:(lia)) as [IH1 IH2].
      split; [lia|]. intros _.
      destruct (Z.eq_dec (bb / 2) 0) as [Hz|Hnz].
      * assert (bb mod 2 = 1).
        { pose proof (Z.div_mod bb 2 ltac:(lia)). lia. }
        lia.
      * specialize (IH2 Hnz). lia.
Qed.

Lemma count_bits_pos bb : bb_range bb -> (count_bits bb >? 0) = negb (bb =? 0).
Proof.
  intros Hbb.
  destruct (Z.eq_dec bb 0) as [->|Hne]; [vm_compute; reflexivity|].
  unfold count_bits.
  assert (Hbb' : 0 <= bb < 2 ^ Z.of_nat 64)
    by (change (Z.of_nat 64) with 64; exact Hbb).
  assert (Hsum : 0 + Z.of_nat 64 < 256) by (change (Z.of_nat 64) with 64; lia).
  destruct (count_bits_loop_spec 64 bb 0 Hbb' ltac:(lia) Hsum) as [_ H2].
  specialize (H2 Hne). revert H2.
  generalize (count_bits_loop 64 bb 0). intros c H2.
  replace (bb =? 0) with false by (symmetry; apply Z.eqb_neq; assumption).
  cbn [negb]. apply Z.gtb_lt. exact H2.
Qed.

(** ** The lowest set bit *)

Lemma land_double a b : Z.land (2 * a) (2 * b) = 2 * Z.land a b.
Proof.
  apply Z.bits_inj'. intros n Hn.
  destruct (Z.eq_dec n 0) as [->|Hne].
  - rewrite Z.land_spec, !Z.testbit_even_0. reflexivity.
  - replace n with (Z.succ (n - 1)) by lia.
    rewrite Z.land_spec, !Z.testbit_even_succ by lia.
    now rewrite Z.land_spec.
Qed.

Lemma land_odd a b : Z.land (2 * a + 1) (2 * b + 1) = 2 * Z.land a b + 1.
Proof.
  apply Z.bits_inj'. intros n Hn.
  destruct (Z.eq_dec n 0) as [->|Hne].
  - rewrite Z.land_spec, !Z.testbit_odd_0. reflexivity.
  - replace n with (Z.succ (n - 1)) by lia.
    rewrite Z.land_spec, !Z.testbit_odd_succ by lia.
    now rewrite Z.land_spec.
Qed.

Lemma lowest_bit_pos (p : positive) :
  exists k, 0 <= k /\ Z.land (Z.pos p) (- Z.pos p) = 2 ^ k
            /\ Z.testbit (Z.pos p) k = true
            /\ forall j, 0 <= j < k -> Z.testbit (Z.pos p) j = false.
Proof.
  induction p as [p IH|p IH|].
  - exists 0. split; [lia|].
    replace (Z.pos p~1) with (2 * Z.pos p + 1) by lia.
    replace (- (2 * Z.pos p + 1)) with (2 * Z.lnot (Z.pos p) + 1)
      by (unfold Z.lnot; lia).
    rewrite land_odd, Z.land_lnot_diag. split; [reflexivity|split].
    + apply Z.testbit_odd_0.
    + intros j Hj. lia.
  - destruct IH as (k & Hk & Hland & Hbit & Hlow).
    exists (k + 1). split; [lia|].
    replace (Z.pos p~0) with (2 * Z.pos p) by lia.
    replace (- (2 * Z.pos p)) with (2 * (- Z.pos p)) by lia.
    rewrite land_double, Hland. split; [|split].
    + rewrite Z.pow_add_r by lia. lia.
    + replace (k + 1) with (Z.succ k) by lia.
      rewrite Z.testbit_even_succ by lia. exact Hbit.
    + intros j Hj. destruct (Z.eq_dec j 0) as [->|Hne].
      * apply Z.testbit_even_0.
      * replace j with (Z.succ (j - 1)) by lia.
        rewrite Z.testbit_even_succ by lia. apply Hlow. lia.
  - exists 0. split; [lia|]. split; [reflexivity|]. split; [reflexivity|].
    intros j Hj. lia.
Qed.

Lemma lsb_mask_of_opp bb : bb_range bb -> lsb_mask_of bb = Z.land bb (- bb).
Proof.
  intros Hbb. unfold lsb_mask_of.
  assert (HU : U64 (U64 (Z.lnot bb) + 1) = U64 (- bb)).
  { unfold U64. rewrite Z.add_mod_idemp_l by lia. f_equal.
    unfold Z.lnot. lia. }
  rewrite HU.
  apply Z.bits_inj'. intros n Hn.
  rewrite !Z.land_spec, testbit_U64.
  destruct (n <? 64) eqn:E; [reflexivity|].
  apply Z.ltb_ge in E.
  rewrite (bits_above_range bb n) by (auto; lia). reflexivity.
Qed.

Lemma lsb_mask_spec bb :
  bb_range bb -> bb <> 0 -> exists k, is_lowest bb k /\ lsb_mask_of bb = 2 ^ k.
Proof.
  intros Hbb Hne.
  destruct bb as [|p|p]; [congruence| |unfold bb_range in Hbb; lia].
  destruct (lowest_bit_pos p) as (k & Hk & Hland & Hbit & Hlow).
  exists k. split.
  - split; [|split; assumption].
    split; [lia|].
    destruct (Z_lt_ge_dec k 64); [assumption|].
    rewrite (bits_above_range (Z.pos p) k) in Hbit by (auto; lia). discriminate.
  - rewrite lsb_mask_of_opp by assumption. exact Hland.
Qed.

Lemma is_lowest_unique bb k1 k2 : is_lowest bb k1 -> is_lowest bb k2 -> k1 = k2.
Proof.
  intros (R1 & B1 & L1) (R2 & B2 & L2).
  destruct (Z.lt_trichotomy k1 k2) as [H|[H|H]]; [|assumption|].
  - rewrite (L2 k1) in B1 by lia. discriminate.
  - rewrite (L1 k2) in B2 by lia. discriminate.
Qed.

Lemma is_highest_unique bb k1 k2 : is_highest bb k1 -> is_highest bb k2 -> k1 = k2.
Proof.
  intros (R1 & B1 & L1) (R2 & B2 & L2).
  destruct (Z.lt_trichotomy k1 k2) as [H|[H|H]]; [|assumption|].
  - rewrite (L1 k2) in B2 by lia. discriminate.
  - rewrite (L2 k1) in B1 by lia. discriminate.
Qed.

Lemma index_of_mask_loop_pow2 fuel :
  forall k index,
    0 <= index <= k -> k - index < Z.of_nat fuel ->
    index_of_mask_loop fuel (2 ^ k) index = k.
Proof.
  induction fuel as [|fuel IH]; intros k index Hi Hf.
  - simpl in Hf. lia.
  - cbn [index_of_mask_loop].
    rewrite Z.shiftr_div_pow2 by lia.
    replace (2 ^ k) with (2 ^ (k - index) * 2 ^ index)
      by (rewrite <- Z.pow_add_r by lia; f_equal; lia).
    rewrite Z.div_mul by (apply Z.pow_nonzero; lia).
    destruct (Z.eq_dec index k) as [->|Hne].
    + rewrite Z.sub_diag. reflexivity.
    + assert (1 < 2 ^ (k - index)).
      { change 1 with (2 ^ 0). apply Z.pow_lt_mono_r; lia. }
      destruct (2 ^ (k - index) =? 1) eqn:E; [apply Z.eqb_eq in E; lia|].
      replace (2 ^ (k - index) * 2 ^ index) with (2 ^ k)
        by (rewrite <- Z.pow_add_r by lia; f_equal; lia).
      apply IH; lia.
Qed.

Lemma index_of_mask_pow2 k : 0 <= k < 64 -> index_of_mask (2 ^ k) = k.
Proof. intros H. unfold index_of_mask. apply index_of_mask_loop_pow2; simpl; lia. Qed.

Lemma get_lsb_index_spec bb :
  bb_range bb -> bb <> 0 -> is_lowest bb (get_lsb_index bb).
Proof.
  intros Hbb Hne. unfold get_lsb_index.
  destruct (bb =? 0) eqn:E; [apply Z.eqb_eq in E; congruence|].
  destruct (lsb_mask_spec bb Hbb Hne) as (k & Hlow & Hmask).
  rewrite Hmask, index_of_mask_pow2 by apply Hlow. exact Hlow.
Qed.

Lemma pop_lsb_spec bb :
  bb_range bb -> bb <> 0 ->
  exists k, is_lowest bb k /\ pop_lsb bb = (k, clear_bit bb k).
Proof.
  intros Hbb Hne. unfold pop_lsb.
  destruct (bb =? 0) eqn:E; [apply Z.eqb_eq in E; congruence|].
  destruct (lsb_mask_spec bb Hbb Hne) as (k & Hlow & Hmask).
  exists k. split; [exact Hlow|].
  rewrite Hmask, index_of_mask_pow2 by apply Hlow.
  unfold clear_bit. rewrite bit_of_pow2 by apply Hlow. reflexivity.
Qed.

(** ** The highest set bit *)

Lemma msb_test bb i :
  0 <= i -> (Z.land (Z.shiftr bb i) 1 =? 0) = negb (Z.testbit bb i).
Proof.
  intros Hi. change 1 with (Z.ones 1). rewrite Z.land_ones by lia.
  change (2 ^ 1) with 2. rewrite <- Z.bit0_mod, Z.shiftr_spec by lia.
  rewrite Z.add_0_l. destruct (Z.testbit bb i); reflexivity.
Qed.

Lemma msb_loop_spec fuel :
  forall bb i k,
    is_highest bb k -> k <= i -> i - k < Z.of_nat fuel ->
    msb_loop fuel bb i = k.
Proof.
  induction fuel as [|fuel IH]; intros bb i k Hk Hi Hf.
  - simpl in Hf. lia.
  - cbn [msb_loop]. destruct Hk as (Hr & Hb & Hh).
    rewrite msb_test by lia.
    destruct (Z.eq_dec i k) as [->|Hne].
    + rewrite Hb. reflexivity.
    + rewrite (Hh i) by lia. simpl.
      apply IH; [exact (conj Hr (conj Hb Hh))|lia|lia].
Qed.

Lemma highest_exists bb : bb_range bb -> bb <> 0 -> is_highest bb (Z.log2 bb).
Proof.
  intros Hbb Hne. assert (0 < bb) by (unfold bb_range in Hbb; lia).
  split; [split|split].
  - apply Z.log2_nonneg.
  - apply Z.log2_lt_pow2; [lia|apply Hbb].
  - now apply Z.bit_log2.
  - intros j Hj. apply Z.bits_above_log2; lia.
Qed.

Lemma get_msb_index_spec bb :
  bb_range bb -> bb <> 0 -> is_highest bb (get_msb_index bb).
Proof.
  intros Hbb Hne. unfold get_msb_index.
  destruct (bb =? 0) eqn:E; [apply Z.eqb_eq in E; congruence|].
  pose proof (highest_exists bb Hbb Hne) as Hh.
  rewrite (msb_loop_spec 64 bb 63 (Z.log2 bb) Hh); [exact Hh| |].
  - destruct Hh as (Hr & _). lia.
  - destruct Hh as (Hr & _). simpl. lia.
Qed.


(* ===================================================================== *)
(** * The empty board and [pop_lsb] *)
(* ===================================================================== *)

Lemma pop_lsb_clears bb k :
  bb_range bb -> is_lowest bb k ->
  forall i, Z.testbit (clear_bit bb k) i = negb (k =? i) && Z.testbit bb i.
Proof. intros Hbb (Hk & _) i. apply testbit_clear_bit; assumption. Qed.

(** C10: on the empty board [pop_lsb], [get_lsb_index] and [get_msb_index]
    return 65, the value of [Square::None], and [pop_lsb] leaves the board
    as it is; on a non-empty board [pop_lsb] returns the index of the
    least significant set bit and clears exactly that bit. *)
Theorem lsb_msb_sentinel_and_pop :
  pop_lsb 0 = (65, 0) /\ get_lsb_index 0 = 65 /\ get_msb_index 0 = 65
  /\ Square_None = 65
  /\ forall bb, bb_range bb -> bb <> 0 ->
       exists k bb',
         pop_lsb bb = (k, bb')
         /\ 0 <= k < 64 /\ Z.testbit bb k = true
         /\ (forall j, 0 <= j < k -> Z.testbit bb j = false)
         /\ Z.testbit bb' k = false
         /\ (forall i, i <> k -> Z.testbit bb' i = Z.testbit bb i).
Proof.
  split; [reflexivity|]. split; [reflexivity|]. split; [reflexivity|].
  split; [reflexivity|].
  intros bb Hbb Hne.
  destruct (pop_lsb_spec bb Hbb Hne) as (k & Hlow & Hpop).
  exists k, (clear_bit bb k). split; [exact Hpop|].
  pose proof Hlow as (Hk & Hbit & Hbelow).
  split; [exact Hk|]. split; [exact Hbit|]. split; [exact Hbelow|].
  split.
  - rewrite (pop_lsb_clears bb k Hbb Hlow), Z.eqb_refl. reflexivity.
  - intros i Hi. rewrite (pop_lsb_clears bb k Hbb Hlow).
    replace (k =? i) with false by (symmetry; apply Z.eqb_neq; congruence).
    reflexivity.
Qed.

Lemma lsb_msb_sentinel_and_pop_witness :
  exists k bb',
    pop_lsb 40 = (k, bb')
    /\ 0 <= k < 64 /\ Z.testbit 40 k = true
    /\ (forall j, 0 <= j < k -> Z.testbit 40 j = false)
    /\ Z.testbit bb' k = false
    /\ (forall i, i <> k -> Z.testbit bb' i = Z.testbit 40 i).
Proof.
  destruct lsb_msb_sentinel_and_pop as (_ & _ & _ & _ & H).
  apply (H 40); [unfold bb_range; lia | lia].
Defined.

(* ===================================================================== *)
(** * The transposition table *)
(* ===================================================================== *)

Lemma S16_id z : - 2^15 <= z < 2^15 -> S16 z = z.
Proof. intros H. unfold S16. rewrite Z.mod_small by lia. lia. Qed.

Lemma BoundType_round_trip b : BoundType_of_Z (BoundType_to_Z b) = b.
Proof. destruct b; reflexivity. Qed.

Lemma get_index_lt tt k :
  0 < table_size_ tt -> Z.of_nat (length (table_ tt)) = table_size_ tt ->
  (Z.to_nat (get_index tt k) < length (table_ tt))%nat.
Proof.
  intros Hpos Hlen. unfold get_index.
  pose proof (Z.mod_pos_bound k (table_size_ tt) Hpos). lia.
Qed.

(** C5, the claim as stated fails: a store that the replacement policy
    declines (same age, smaller depth) leaves the deeper entry in place,
    and the probe returns that entry's values. *)
Lemma probe_after_declined_store :
  let tt := TT_store (TT_new 1) 12345 10 5 EXACT Move_default 0 in
  TT_probe (TT_store tt 12345 20 3 LOWER_BOUND Move_default 0) 12345 0
  = Some (10, 5, EXACT, Move_default)
  /\ TT_probe (TT_store tt 12345 20 3 LOWER_BOUND Move_default 0) 12345 0
     <> Some (20, 3, LOWER_BOUND, Move_default).
Proof.
  assert (E : TT_probe
                (TT_store (TT_store (TT_new 1) 12345 10 5 EXACT Move_default 0)
                   12345 20 3 LOWER_BOUND Move_default 0) 12345 0
              = Some (10, 5, EXACT, Move_default))
    by (vm_compute; reflexivity).
  cbv zeta. rewrite E. split; [reflexivity|discriminate].
Qed.

(** C5 as amended: when the slot accepts the store (it is empty, of
    another age, or not deeper than the new entry), the depth is in
    [0, 32767] and the score fits the 16-bit field, a probe with the same
    key right after the store returns the stored score, depth, bound and
    move. *)
Theorem probe_after_accepted_store tt k sc d b m ply :
  0 < table_size_ tt ->
  Z.of_nat (length (table_ tt)) = table_size_ tt ->
  negb (is_valid (TT_entry tt (get_index tt k)))
  || should_replace (TT_entry tt (get_index tt k)) d (current_age_ tt) = true ->
  0 <= d < 2^15 ->
  - 2^15 <= sc < 2^15 ->
  TT_probe (TT_store tt k sc d b m ply) k ply = Some (sc, d, b, m).
Proof.
  intros Hsize Hlen Hrep Hd Hsc.
  unfold TT_store. rewrite Hrep.
  assert (Hsmall1 : (sc >? MATE_SCORE - MAX_PLY) = false)
    by (unfold MATE_SCORE, MAX_PLY; lia).
  assert (Hsmall2 : (sc <? - MATE_SCORE + MAX_PLY) = false)
    by (unfold MATE_SCORE, MAX_PLY; lia).
  rewrite Hsmall1, Hsmall2.
  unfold TT_probe, get_index, TT_entry. cbn [table_ table_size_].
  rewrite list_lookup_insert_eq by (apply get_index_lt; assumption).
  cbn [default from_option id is_valid depth key score bound_type best_move].
  rewrite !S16_id by lia.
  unfold is_valid. cbn [depth].
  replace (d >=? 0) with true by lia.
  rewrite Z.eqb_refl. cbn [negb orb].
  rewrite Hsmall1, Hsmall2, BoundType_round_trip. reflexivity.
Qed.

Lemma probe_after_accepted_store_witness :
  TT_probe (TT_store (TT_new 1) 12345 10 5 EXACT Move_default 0) 12345 0
  = Some (10, 5, EXACT, Move_default).
Proof.
  apply (probe_after_accepted_store (TT_new 1) 12345 10 5 EXACT Move_default 0).
  - vm_compute; reflexivity.
  - vm_compute; reflexivity.
  - vm_compute; reflexivity.
  - lia.
  - lia.
Defined.

(* ===================================================================== *)
(** * The search: terminal nodes *)
(* ===================================================================== *)

Lemma should_check_time_tt se : tt_ (snd (should_check_time se)) = tt_ se.
Proof.
  unfold should_check_time.
  destruct (nodes_since_time_check_ se + 1 >=? CHECK_FREQUENCY); [|reflexivity].
  cbn [time_manager_ with_nodes_since_time_check].
  destruct (time_manager_ se); reflexivity.
Qed.

Lemma use_tt_entry_side se1 se2 depth alpha beta tt_score tt_depth tt_bound :
  is_inl (use_tt_entry se1 depth alpha beta tt_score tt_depth tt_bound)
  = is_inl (use_tt_entry se2 depth alpha beta tt_score tt_depth tt_bound).
Proof.
  unfold use_tt_entry.
  destruct (tt_depth >=? depth); [|reflexivity].
  destruct tt_bound; cbn [is_inl].
  - destruct (alpha >=? beta); reflexivity.
  - reflexivity.
  - destruct (tt_score >=? beta); [reflexivity|].
    destruct (Z.max alpha tt_score >=? beta); reflexivity.
  - destruct (tt_score <=? alpha); [reflexivity|].
    destruct (alpha >=? Z.min beta tt_score); reflexivity.
Qed.

Lemma tt_returns_ext se1 se2 pos depth alpha beta ply :
  tt_ se1 = tt_ se2 ->
  tt_returns se1 pos depth alpha beta ply = tt_returns se2 pos depth alpha beta ply.
Proof.
  intros E. unfold tt_returns. rewrite E.
  destruct (TT_probe (tt_ se2) (hash_key pos) ply) as [[[[s d] b] m]|]; [|reflexivity].
  pose proof (use_tt_entry_side se1 se2 depth alpha beta s d b) as H.
  destruct (use_tt_entry se1 depth alpha beta s d b),
           (use_tt_entry se2 depth alpha beta s d b); cbn [is_inl] in H;
    congruence.
Qed.

(** C4, the claim as stated fails: at a checkmated node [negamax] returns
    the score of a matching table entry when there is one, and 0 when the
    time poll fires on entry; neither is [-MATE_SCORE + p]. *)
Lemma negamax_at_mate_other_scores :
  generate_legal_moves mate_position = []
  /\ is_in_check mate_position = true
  /\ - MATE_SCORE + move_count mate_position = -100000
  /\ option_map (fun r => fst (fst r))
       (negamax sort_desc 1 mate_position 1 (- INFINITY_SCORE) INFINITY_SCORE 0
          (with_tt (TT_store (tt_ search_plain) (hash_key mate_position) 17 3 EXACT
                      Move_default 0) search_plain))
     = Some 17
  /\ option_map (fun r => fst (fst r))
       (negamax sort_desc 1 mate_position 1 (- INFINITY_SCORE) INFINITY_SCORE 0
          (with_nodes_since_time_check (CHECK_FREQUENCY - 1) search_before_poll))
     = Some 0.
Proof. repeat split; vm_compute; reflexivity. Qed.

(** C4 as amended: at a node without legal moves where the time poll on
    entry does not fire, the root search returns [-MATE_SCORE + p] when the
    side to move is in check, [p] being the number of moves in the
    position's history, and 0 otherwise; [negamax] returns the same
    whenever its table probe does not end the call first. *)
Theorem game_over_score_returned std_sort fuel pos depth alpha beta best_move ply se :
  fst (should_check_time se) = false ->
  generate_legal_moves pos = [] ->
  (tt_returns se pos depth alpha beta ply = false ->
   exists se',
     negamax std_sort (S fuel) pos depth alpha beta ply se
     = Some (game_over_score pos, se', pos))
  /\ (exists se',
        negamax_root std_sort fuel pos depth alpha beta best_move ply se
        = Some (game_over_score pos, best_move, se', pos))
  /\ (is_in_check pos = true -> game_over_score pos = - MATE_SCORE + move_count pos)
  /\ (is_in_check pos = false -> game_over_score pos = 0).
Proof.
  intros Htime Hmoves. split; [|split; [|split]].
  - intros Htt. cbn [negamax].
    pose proof (should_check_time_tt se) as Hsame.
    destruct (should_check_time se) as [timeout se1]. cbn [fst snd] in *. subst timeout.
    set (se2 := with_nodes_searched (nodes_searched_ se1 + 1) se1).
    rewrite (tt_returns_ext se se2) in Htt by (symmetry; exact Hsame).
    unfold tt_returns in Htt.
    destruct (TT_probe (tt_ se2) (hash_key pos) ply) as [[[[s d] b] m]|].
    + destruct (use_tt_entry se2 depth alpha beta s d b) as [[r se3]|[[a' b'] se3]];
        [discriminate|].
      rewrite Hmoves. eexists. reflexivity.
    + rewrite Hmoves. eexists. reflexivity.
  - unfold negamax_root.
    destruct (should_check_time se) as [timeout se1]. cbn [fst] in Htime. subst timeout.
    rewrite Hmoves. eexists. reflexivity.
  - intros H. unfold game_over_score. rewrite H. reflexivity.
  - intros H. unfold game_over_score. rewrite H. reflexivity.
Qed.

Lemma game_over_score_returned_witness :
  (exists se',
     negamax sort_desc 1 mate_position 1 (- INFINITY_SCORE) INFINITY_SCORE 0 search_plain
     = Some (game_over_score mate_position, se', mate_position))
  /\ game_over_score mate_position = - MATE_SCORE + move_count mate_position.
Proof.
  destruct (game_over_score_returned sort_desc 0 mate_position 1
              (- INFINITY_SCORE) INFINITY_SCORE Move_default 0 search_plain)
    as (H1 & _ & H3 & _).
  - vm_compute; reflexivity.
  - vm_compute; reflexivity.
  - split.
    + apply H1. vm_compute; reflexivity.
    + apply H3. vm_compute; reflexivity.
Defined.

(* ===================================================================== *)
(** * The search: unwinding after a stop *)
(* ===================================================================== *)

(** C7 on the code: from the starting position at depth 1, with the time
    poll firing in the first child (or with the stop flag raised from
    outside before the call), the unwinding [negamax] call returns
    [-INFINITY_SCORE], not 0, and writes an entry for its position into a
    table that had none. *)
Theorem negamax_unwind_stores :
  TT_probe (tt_ search_before_poll) (hash_key Position_new) 1 = None
  /\ negamax_report Position_new 1 (- INFINITY_SCORE) INFINITY_SCORE 1 search_before_poll
     = Some (- INFINITY_SCORE, true, true)
  /\ TT_probe (tt_ search_stopped) (hash_key Position_new) 1 = None
  /\ negamax_report Position_new 1 (- INFINITY_SCORE) INFINITY_SCORE 1 search_stopped
     = Some (- INFINITY_SCORE, true, true).
Proof. repeat split; vm_compute; reflexivity. Qed.

(* ===================================================================== *)
(** * The search: killer moves *)
(* ===================================================================== *)

Lemma killer_update_lookup ply move se j :
  (ply < length (killer_moves_ se))%nat ->
  killer (update_killers ply move se) j
  = if decide (j = ply) then (move, fst (killer se ply)) else killer se j.
Proof.
  intros Hlen. unfold killer, update_killers. cbn [killer_moves_ with_killer_moves].
  destruct (decide (j = ply)) as [->|Hne].
  - rewrite list_lookup_insert_eq by assumption. reflexivity.
  - rewrite list_lookup_insert_ne by congruence. reflexivity.
Qed.

Lemma killer_index_lt pos : (killer_index pos < 64)%nat.
Proof. unfold killer_index, move_count, MAX_PLY. lia. Qed.

(** C9, the claim as stated fails: a cutoff by a quiet move in a call
    with ply 5, at a position with one move in its history, writes the
    killer entry of index 1 and leaves the entry of index 5 alone. *)
Lemma killer_index_is_not_ply :
  move_count position_after_a3 = 1
  /\ killers_report position_after_a3 1 (- INFINITY_SCORE) (-999999) 5 search_plain 1 5
     = Some (-999999, (reply_a6, Move_zero), (Move_zero, Move_zero)).
Proof. split; vm_compute; reflexivity. Qed.

(** C9 as amended: when a move scores at least beta in the move loop of
    [negamax] and its type is not [Capture], the killer entry at index
    [min(pos.move_count(), MAX_PLY - 1)] is updated, slot 0 moving into
    slot 1 and the cutoff move into slot 0, every other entry is left
    alone, and the loop ends with beta as the best score; [order_moves]
    reads the killers at that same index. *)
Theorem killer_update_on_cutoff
    (rec : Position -> Z -> Z -> Z -> Z -> Search -> option (Z * Search * Position))
    move moves depth beta ply ls se pos r se1 pos1 :
  stop_search_ se = false ->
  rec (make_move move pos) (depth - 1) (- beta) (- ls_alpha ls) (ply + 1) se
  = Some (r, se1, pos1) ->
  stop_search_ se1 = false ->
  beta <= - r ->
  move_type move <> Capture ->
  length (killer_moves_ se1) = 64%nat ->
  let pos' := undo_move pos1 in
  let idx := Z.to_nat (Z.min (move_count pos') (MAX_PLY - 1)) in
  exists ls' se',
    negamax_loop rec (move :: moves) depth beta ply ls se pos = Some (ls', se', pos')
    /\ ls_best_score ls' = beta /\ ls_best_move ls' = move
    /\ killer se' idx = (move, fst (killer se1 idx))
    /\ (forall j, j <> idx -> killer se' j = killer se1 j)
    /\ tt_ se' = tt_ se1
    /\ (move_type move <> EnPassant -> move_type move <> Promotion ->
        move_order_score se' pos' Move_default move = KILLER_MOVE_1_SCORE).
Proof.
  intros Hstop Hrec Hstop1 Hcut Htype Hlen pos' idx.
  assert (Hidx : (idx < length (killer_moves_ se1))%nat)
    by (rewrite Hlen; apply killer_index_lt).
  cbn [negamax_loop]. rewrite Hstop, Hrec, Hstop1.
  replace (- r >=? beta) with true by lia.
  destruct (decide (move_type move <> Capture)) as [_|Hc]; [|contradiction].
  fold pos'. change (killer_index pos') with idx.
  eexists. eexists. split; [reflexivity|].
  split; [reflexivity|]. split; [reflexivity|].
  split; [|split; [|split]].
  - rewrite killer_update_lookup by assumption.
    destruct (decide (idx = idx)); [reflexivity|congruence].
  - intros j Hj. rewrite killer_update_lookup by assumption.
    destruct (decide (j = idx)); [congruence|reflexivity].
  - reflexivity.
  - intros Hep Hpr. unfold move_order_score.
    change (from_square Move_default =? Square_None) with true. cbn [negb andb].
    rewrite !bool_decide_eq_false_2 by assumption. cbn [orb].
    destruct (decide (move_type move = Promotion)); [contradiction|].
    change (killer_index pos') with idx.
    rewrite killer_update_lookup by assumption.
    destruct (decide (idx = idx)); [|congruence]. cbn [fst].
    assert (Hrefl : Move_eqb move move = true).
    { unfold Move_eqb. rewrite !Z.eqb_refl, !bool_decide_eq_true_2 by reflexivity.
      reflexivity. }
    rewrite Hrefl. reflexivity.
Qed.

Lemma killer_update_on_cutoff_witness :
  exists ls' se',
    negamax_loop (fun pos _ _ _ _ se => Some (999999, se, pos))
      [reply_a6] 1 (-999999) 5
      (mkLoopState (- INFINITY_SCORE) (- INFINITY_SCORE) Move_default)
      search_plain position_after_a3
    = Some (ls', se', undo_move (make_move reply_a6 position_after_a3))
    /\ killer se' 1 = (reply_a6, Move_zero).
Proof.
  destruct (killer_update_on_cutoff
              (fun pos _ _ _ _ se => Some (999999, se, pos))
              reply_a6 [] 1 (-999999) 5
              (mkLoopState (- INFINITY_SCORE) (- INFINITY_SCORE) Move_default)
              search_plain position_after_a3 999999 search_plain
              (make_move reply_a6 position_after_a3))
    as (ls' & se' & Hloop & _ & _ & Hk & _).
  - reflexivity.
  - reflexivity.
  - reflexivity.
  - lia.
  - discriminate.
  - vm_compute; reflexivity.
  - exists ls', se'. split; [exact Hloop|].
    replace 1%nat with
      (Z.to_nat (Z.min (move_count (undo_move (make_move reply_a6 position_after_a3)))
                   (MAX_PLY - 1))) by (vm_compute; reflexivity).
    rewrite Hk. vm_compute; reflexivity.
Defined.

(* ===================================================================== *)
(** * The incremental hash and the FEN loader on the code *)
(* ===================================================================== *)

(** C6 on the code: for the legal move e2-e4 from the starting position
    the incremental update differs from the hash of the position after
    the move. *)
Theorem incremental_hash_diverges :
  In move_e2e4 (generate_legal_moves Position_new)
  /\ update_hash_make_move (hash_key Position_new) Position_new move_e2e4
     <> hash_position (make_move move_e2e4 Position_new).
Proof.
  split.
  - vm_compute. tauto.
  - vm_compute. discriminate.
Qed.

(** C8 on the code: a FEN string with an unknown piece letter makes
    [load_fen] return false after it has cleared the position and placed
    the pieces read so far. *)
Theorem load_fen_failure_mutates :
  fst (load_fen bad_piece_fen Position_new) = false
  /\ snd (load_fen bad_piece_fen Position_new) <> Position_new
  /\ piece_on Position_new E1 = WhiteKing
  /\ piece_on (snd (load_fen bad_piece_fen Position_new)) E1 = Piece_None.
Proof.
  split; [vm_compute; reflexivity|]. split; [|split; vm_compute; reflexivity].
  intros H.
  assert (E : piece_on (snd (load_fen bad_piece_fen Position_new)) E1 = Piece_None)
    by (vm_compute; reflexivity).
  rewrite H in E. vm_compute in E. discriminate.
Qed.


(* ===================================================================== *)
(** * Board geometry *)
(* ===================================================================== *)

Lemma file_rank_of_coords f r :
  0 <= f < 8 -> 0 <= r -> file_of (8 * r + f) = f /\ rank_of (8 * r + f) = r.
Proof.
  intros Hf Hr. unfold file_of, rank_of, File_NB.
  rewrite Z.rem_mod_nonneg, Z.quot_div_nonneg by lia.
  split.
  - symmetry. apply (Z.mod_unique _ _ r); lia.
  - symmetry. apply (Z.div_unique _ _ _ f); lia.
Qed.

Lemma file_rank_decomp s :
  0 <= s < 64 ->
  exists f r, s = 8 * r + f /\ 0 <= f < 8 /\ 0 <= r < 8
              /\ file_of s = f /\ rank_of s = r.
Proof.
  intros Hs. exists (s mod 8), (s / 8).
  pose proof (Z.div_mod s 8 ltac:(lia)) as Hdm.
  pose proof (Z.mod_pos_bound s 8 ltac:(lia)) as Hm.
  assert (0 <= s / 8 < 8).
  { split; [apply Z.div_pos; lia|apply Z.div_lt_upper_bound; lia]. }
  split; [lia|]. split; [lia|]. split; [lia|].
  unfold file_of, rank_of, File_NB.
  rewrite Z.rem_mod_nonneg, Z.quot_div_nonneg by lia. split; reflexivity.
Qed.

Lemma direction_offset_deltas d :
  direction_offset d = 8 * rank_delta d + file_delta d.
Proof. destruct d; reflexivity. Qed.

(** Along a ray both coordinates stay on the board. *)
Lemma ray_coords f r d k :
  0 <= f < 8 -> 0 <= r < 8 -> 1 <= k <= ray_steps (8 * r + f) d ->
  0 <= f + k * file_delta d < 8 /\ 0 <= r + k * rank_delta d < 8.
Proof.
  intros Hf Hr Hk.
  destruct (file_rank_of_coords f r Hf ltac:(lia)) as [Ef Er].
  unfold ray_steps in Hk. rewrite Ef, Er in Hk.
  destruct d; cbn [file_delta rank_delta] in *; lia.
Qed.

Lemma ray_square_coords f r d k :
  ray_square (8 * r + f) d k = 8 * (r + k * rank_delta d) + (f + k * file_delta d).
Proof. unfold ray_square. rewrite direction_offset_deltas. lia. Qed.

Lemma ray_square_in_board s d k :
  0 <= s < 64 -> 1 <= k <= ray_steps s d -> 0 <= ray_square s d k < 64.
Proof.
  intros Hs Hk.
  destruct (file_rank_decomp s Hs) as (f & r & -> & Hf & Hr & _ & _).
  destruct (ray_coords f r d k Hf Hr Hk) as [H1 H2].
  rewrite ray_square_coords. lia.
Qed.

Lemma ray_steps_shift s d k :
  0 <= s < 64 -> 1 <= k <= ray_steps s d ->
  ray_steps (ray_square s d k) d = ray_steps s d - k.
Proof.
  intros Hs Hk.
  destruct (file_rank_decomp s Hs) as (f & r & -> & Hf & Hr & _ & _).
  destruct (ray_coords f r d k Hf Hr Hk) as [H1 H2].
  rewrite ray_square_coords.
  destruct (file_rank_of_coords f r Hf ltac:(lia)) as [Ef Er].
  destruct (file_rank_of_coords (f + k * file_delta d) (r + k * rank_delta d)
              H1 ltac:(lia)) as [Ef' Er'].
  unfold ray_steps. rewrite Ef, Er, Ef', Er'.
  destruct d; cbn [file_delta rank_delta]; lia.
Qed.

Lemma ray_square_add s d k m :
  ray_square (ray_square s d k) d m = ray_square s d (k + m).
Proof. unfold ray_square. lia. Qed.

Lemma ray_steps_nonneg s d : 0 <= s < 64 -> 0 <= ray_steps s d.
Proof.
  intros Hs.
  destruct (file_rank_decomp s Hs) as (f & r & -> & Hf & Hr & Ef & Er).
  unfold ray_steps. rewrite Ef, Er. destruct d; lia.
Qed.

Lemma ray_steps_le s d : 0 <= s < 64 -> ray_steps s d <= 7.
Proof.
  intros Hs.
  destruct (file_rank_decomp s Hs) as (f & r & -> & Hf & Hr & Ef & Er).
  unfold ray_steps. rewrite Ef, Er. destruct d; lia.
Qed.

(** Rays of different directions from one square share no square. *)
Lemma rays_disjoint s d1 d2 k1 k2 :
  0 <= s < 64 -> d1 <> d2 ->
  1 <= k1 <= ray_steps s d1 -> 1 <= k2 <= ray_steps s d2 ->
  ray_square s d1 k1 <> ray_square s d2 k2.
Proof.
  intros Hs Hne Hk1 Hk2.
  destruct (file_rank_decomp s Hs) as (f & r & -> & Hf & Hr & _ & _).
  destruct (ray_coords f r d1 k1 Hf Hr Hk1) as [A1 A2].
  destruct (ray_coords f r d2 k2 Hf Hr Hk2) as [B1 B2].
  rewrite !ray_square_coords. intros E.
  assert (Ef : f + k1 * file_delta d1 = f + k2 * file_delta d2) by lia.
  assert (Er : r + k1 * rank_delta d1 = r + k2 * rank_delta d2) by lia.
  destruct d1, d2; try congruence; cbn [file_delta rank_delta] in *; lia.
Qed.

Lemma ray_square_inj s d k1 k2 :
  ray_square s d k1 = ray_square s d k2 -> k1 = k2.
Proof. unfold ray_square. destruct d; cbn [direction_offset]; lia. Qed.

(* ===================================================================== *)
(** * Rays *)
(* ===================================================================== *)

Lemma ray_loop_spec n :
  forall i sq off ray t,
    (forall j, 0 <= j < Z.of_nat n -> 0 <= sq + (i + j) * off < 64) ->
    Z.testbit (ray_loop n i sq off ray) t = true
    <-> Z.testbit ray t = true
        \/ exists j, 0 <= j < Z.of_nat n /\ t = sq + (i + j) * off.
Proof.
  induction n as [|n IH]; intros i sq off ray t Hin.
  - cbn [ray_loop]. split; [intros H; left; exact H|].
    intros [H|(j & Hj & _)]; [exact H|lia].
  - cbn [ray_loop]. rewrite IH.
    + rewrite testbit_set_bit.
      2:{ specialize (Hin 0 ltac:(lia)). replace (i + 0) with i in Hin by lia. exact Hin. }
      split.
      * intros [H|(j & Hj & Et)].
        -- apply orb_true_iff in H. destruct H as [H|H]; [|left; exact H].
           apply Z.eqb_eq in H. right. exists 0. split; [lia|].
           rewrite <- H. f_equal. lia.
        -- right. exists (j + 1). split; [lia|]. rewrite Et. f_equal. lia.
      * intros [H|(j & Hj & Et)].
        -- left. rewrite H. apply orb_true_r.
        -- destruct (Z.eq_dec j 0) as [->|Hne].
           ++ left. apply orb_true_iff. left. apply Z.eqb_eq.
              rewrite Et. f_equal. lia.
           ++ right. exists (j - 1). split; [lia|]. rewrite Et. f_equal. lia.
    + intros j Hj. replace (i + 1 + j) with (i + (j + 1)) by lia. apply Hin. lia.
Qed.

Lemma generate_ray_spec s d t :
  0 <= s < 64 ->
  Z.testbit (generate_ray s d) t = true
  <-> exists k, 1 <= k <= ray_steps s d /\ t = ray_square s d k.
Proof.
  intros Hs. unfold generate_ray.
  pose proof (ray_steps_nonneg s d Hs) as Hn.
  rewrite ray_loop_spec.
  - rewrite Z.bits_0. split.
    + intros [H|(j & Hj & Et)]; [discriminate|].
      exists (1 + j). split; [lia|]. exact Et.
    + intros (k & Hk & Et). right. exists (k - 1). split; [lia|].
      rewrite Et. unfold ray_square. f_equal. lia.
  - intros j Hj.
    apply (ray_square_in_board s d (1 + j) Hs). lia.
Qed.

Lemma ray_loop_range n :
  forall i sq off ray,
    bb_range ray ->
    (forall j, 0 <= j < Z.of_nat n -> 0 <= sq + (i + j) * off < 64) ->
    bb_range (ray_loop n i sq off ray).
Proof.
  induction n as [|n IH]; intros i sq off ray Hr Hin; cbn [ray_loop]; [exact Hr|].
  apply IH.
  - apply set_bit_range; [|exact Hr].
    specialize (Hin 0 ltac:(lia)). replace (i + 0) with i in Hin by lia. exact Hin.
  - intros j Hj. replace (i + 1 + j) with (i + (j + 1)) by lia. apply Hin. lia.
Qed.

Lemma generate_ray_range s d : 0 <= s < 64 -> bb_range (generate_ray s d).
Proof.
  intros Hs. unfold generate_ray.
  pose proof (ray_steps_nonneg s d Hs) as Hn.
  apply ray_loop_range; [unfold bb_range; lia|].
  intros j Hj. apply (ray_square_in_board s d (1 + j) Hs). lia.
Qed.

Lemma in_board_true s : 0 <= s < 64 -> in_board s = true.
Proof. intros H. unfold in_board, Square_NB. lia. Qed.

Lemma ray_table_generate s d :
  0 <= s < 64 -> ray_table (dir_index_of d) s = generate_ray s d.
Proof.
  intros Hs. unfold ray_table. rewrite in_board_true by assumption.
  destruct d; reflexivity.
Qed.

(* ===================================================================== *)
(** * Slider attacks *)
(* ===================================================================== *)

Lemma visible_on_ray s occ d t :
  visible_along s occ d t -> exists k, 1 <= k <= ray_steps s d /\ t = ray_square s d k.
Proof. intros (k & Hk & Et & _). exists k. split; assumption. Qed.

Lemma blockers_bit s d occ k :
  0 <= s < 64 -> 1 <= k <= ray_steps s d ->
  Z.testbit (Z.land (generate_ray s d) occ) (ray_square s d k)
  = Z.testbit occ (ray_square s d k).
Proof.
  intros Hs Hk. rewrite Z.land_spec.
  assert (Z.testbit (generate_ray s d) (ray_square s d k) = true) as ->.
  { apply generate_ray_spec; [assumption|]. exists k. split; [assumption|reflexivity]. }
  reflexivity.
Qed.

Lemma ray_square_lt s d j k :
  j < k -> if positive_direction d
           then ray_square s d j < ray_square s d k
           else ray_square s d k < ray_square s d j.
Proof.
  intros H. unfold positive_direction, ray_square.
  destruct d; cbn [direction_offset]; cbn; lia.
Qed.

(** The blocker the code picks is the first occupied square of the ray. *)
Lemma nearest_blocker_spec s d occ :
  0 <= s < 64 -> Z.land (generate_ray s d) occ <> 0 ->
  exists k,
    1 <= k <= ray_steps s d
    /\ nearest_blocker d (Z.land (generate_ray s d) occ) = ray_square s d k
    /\ Z.testbit occ (ray_square s d k) = true
    /\ forall j, 1 <= j < k -> Z.testbit occ (ray_square s d j) = false.
Proof.
  intros Hs Hne.
  set (blockers := Z.land (generate_ray s d) occ) in *.
  assert (Hrange : bb_range blockers)
    by (apply land_range, generate_ray_range; assumption).
  unfold nearest_blocker.
  pose proof (ray_square_lt s d) as Hlt.
  destruct (positive_direction d).
  - destruct (get_lsb_index_spec blockers Hrange Hne) as (Hb & Hbit & Hlow).
    set (b := get_lsb_index blockers) in *.
    assert (Hray : Z.testbit (generate_ray s d) b = true).
    { unfold blockers in Hbit. rewrite Z.land_spec in Hbit.
      apply andb_true_iff in Hbit. apply Hbit. }
    apply generate_ray_spec in Hray; [|assumption].
    destruct Hray as (k & Hk & Eb).
    exists k. split; [assumption|]. split; [assumption|]. split.
    + rewrite <- (blockers_bit s d occ k) by assumption. rewrite <- Eb. exact Hbit.
    + intros j Hj. rewrite <- (blockers_bit s d occ j) by (auto; lia).
      apply Hlow. specialize (Hlt j k ltac:(lia)).
      pose proof (ray_square_in_board s d j Hs ltac:(lia)). lia.
  - destruct (get_msb_index_spec blockers Hrange Hne) as (Hb & Hbit & Hhigh).
    set (b := get_msb_index blockers) in *.
    assert (Hray : Z.testbit (generate_ray s d) b = true).
    { unfold blockers in Hbit. rewrite Z.land_spec in Hbit.
      apply andb_true_iff in Hbit. apply Hbit. }
    apply generate_ray_spec in Hray; [|assumption].
    destruct Hray as (k & Hk & Eb).
    exists k. split; [assumption|]. split; [assumption|]. split.
    + rewrite <- (blockers_bit s d occ k) by assumption. rewrite <- Eb. exact Hbit.
    + intros j Hj. rewrite <- (blockers_bit s d occ j) by (auto; lia).
      apply Hhigh. specialize (Hlt j k ltac:(lia)). lia.
Qed.

Lemma no_blockers_unoccupied s d occ k :
  0 <= s < 64 -> Z.land (generate_ray s d) occ = 0 ->
  1 <= k <= ray_steps s d -> Z.testbit occ (ray_square s d k) = false.
Proof.
  intros Hs Hz Hk. rewrite <- (blockers_bit s d occ k) by assumption.
  rewrite Hz. apply Z.bits_0.
Qed.

Lemma slider_step_unfold s occ use_lsb attacks d :
  0 <= s < 64 -> use_lsb d = positive_direction d ->
  slider_step s occ use_lsb attacks d
  = if negb (Z.land (generate_ray s d) occ =? 0)
    then Z.land (Z.lor attacks (generate_ray s d))
           (U64 (Z.lnot (generate_ray
                           (nearest_blocker d (Z.land (generate_ray s d) occ)) d)))
    else Z.lor attacks (generate_ray s d).
Proof.
  intros Hs Hu. unfold slider_step, nearest_blocker.
  rewrite ray_table_generate by assumption. rewrite Hu. reflexivity.
Qed.

Lemma slider_step_range s occ use_lsb attacks d :
  0 <= s < 64 -> use_lsb d = positive_direction d -> bb_range attacks ->
  bb_range (slider_step s occ use_lsb attacks d).
Proof.
  intros Hs Hu Ha. rewrite slider_step_unfold by assumption.
  assert (bb_range (Z.lor attacks (generate_ray s d)))
    by (apply lor_range; [assumption|apply generate_ray_range; assumption]).
  destruct (negb _); [apply land_range|]; assumption.
Qed.

Lemma slider_step_spec s occ use_lsb attacks d t :
  0 <= s < 64 -> use_lsb d = positive_direction d -> bb_range attacks ->
  (forall u, Z.testbit attacks u = true -> Z.testbit (generate_ray s d) u = false) ->
  Z.testbit (slider_step s occ use_lsb attacks d) t = true
  <-> Z.testbit attacks t = true \/ visible_along s occ d t.
Proof.
  intros Hs Hu Ha Hdisj. rewrite slider_step_unfold by assumption.
  destruct (Z.land (generate_ray s d) occ =? 0) eqn:E; cbn [negb].
  - apply Z.eqb_eq in E. rewrite Z.lor_spec, orb_true_iff. split.
    + intros [H|H]; [left; exact H|right].
      apply generate_ray_spec in H; [|assumption]. destruct H as (k & Hk & Et).
      exists k. split; [assumption|]. split; [assumption|].
      intros j Hj. apply (no_blockers_unoccupied s d occ j Hs E). lia.
    + intros [H|H]; [left; exact H|right].
      apply generate_ray_spec; [assumption|]. apply (visible_on_ray s occ d t H).
  - apply Z.eqb_neq in E.
    destruct (nearest_blocker_spec s d occ Hs E) as (k0 & Hk0 & Eb & Hocc & Hfree).
    rewrite Eb.
    pose proof (ray_square_in_board s d k0 Hs Hk0) as Hb.
    rewrite Z.land_spec, Z.lor_spec, testbit_U64.
    assert (Hbeyond : forall u,
               Z.testbit (generate_ray (ray_square s d k0) d) u = true
               <-> exists k, k0 < k <= ray_steps s d /\ u = ray_square s d k).
    { intros u. rewrite generate_ray_spec by assumption.
      rewrite ray_steps_shift by assumption. split.
      - intros (m & Hm & Eu). exists (k0 + m). split; [lia|].
        rewrite Eu. apply ray_square_add.
      - intros (k & Hk & Eu). exists (k - k0). split; [lia|].
        rewrite Eu, ray_square_add. f_equal. lia. }
    split.
    + intros H. apply andb_true_iff in H. destruct H as [H1 H2].
      apply andb_true_iff in H2. destruct H2 as [Hlt Hnb].
      apply orb_true_iff in H1. destruct H1 as [H1|H1]; [left; exact H1|right].
      apply generate_ray_spec in H1; [|assumption]. destruct H1 as (k & Hk & Et).
      destruct (Z_le_gt_dec k k0) as [Hle|Hgt].
      * exists k. split; [assumption|]. split; [assumption|].
        intros j Hj. apply Hfree. lia.
      * exfalso.
        assert (Hin : Z.testbit (generate_ray (ray_square s d k0) d) t = true)
          by (apply Hbeyond; exists k; split; [lia|assumption]).
        destruct (Z_lt_ge_dec t 0) as [Hneg|Hpos].
        { pose proof (ray_square_in_board s d k Hs Hk). lia. }
        rewrite Z.lnot_spec, Hin in Hnb by lia. discriminate.
    + intros H.
      assert (Ht : 0 <= t < 64 /\ Z.testbit (generate_ray (ray_square s d k0) d) t = false
                   /\ (Z.testbit attacks t || Z.testbit (generate_ray s d) t = true)).
      { destruct H as [H|H].
        - assert (Hr : 0 <= t < 64).
          { destruct (Z_lt_ge_dec t 0) as [Hneg|Hpos];
              [rewrite Z.testbit_neg_r in H by lia; discriminate|].
            destruct (Z_lt_ge_dec t 64) as [Hlt|Hge]; [lia|].
            rewrite (bits_above_range attacks t) in H by (auto; lia). discriminate. }
          split; [exact Hr|]. split; [|rewrite H; reflexivity].
          destruct (Z.testbit (generate_ray (ray_square s d k0) d) t) eqn:Hin;
            [|reflexivity].
          apply Hbeyond in Hin. destruct Hin as (k & Hk & Et).
          assert (Z.testbit (generate_ray s d) t = true).
          { apply generate_ray_spec; [assumption|]. exists k. split; [lia|assumption]. }
          rewrite (Hdisj t H) in H0. discriminate.
        - destruct H as (k & Hk & Et & Hfree').
          split; [rewrite Et; apply ray_square_in_board; assumption|].
          split.
          + destruct (Z.testbit (generate_ray (ray_square s d k0) d) t) eqn:Hin;
              [|reflexivity].
            apply Hbeyond in Hin. destruct Hin as (k' & Hk' & Et').
            assert (k = k') by (apply (ray_square_inj s d); congruence). subst k'.
            rewrite (Hfree' k0) in Hocc by lia. discriminate.
          + apply orb_true_iff. right. apply generate_ray_spec; [assumption|].
            exists k. split; assumption. }
      destruct Ht as (Hr & Hnb & Hor).
      rewrite Hor, Z.lnot_spec, Hnb by lia.
      replace (t <? 64) with true by lia. reflexivity.
Qed.

Lemma slider_fold_spec s occ use_lsb :
  0 <= s < 64 ->
  forall dirs attacks t,
    List.NoDup dirs ->
    (forall d, In d dirs -> use_lsb d = positive_direction d) ->
    bb_range attacks ->
    (forall u d, In d dirs -> Z.testbit attacks u = true ->
                 Z.testbit (generate_ray s d) u = false) ->
    Z.testbit (fold_left (slider_step s occ use_lsb) dirs attacks) t = true
    <-> Z.testbit attacks t = true
        \/ exists d, In d dirs /\ visible_along s occ d t.
Proof.
  intros Hs. induction dirs as [|d dirs IH]; intros attacks t Hnd Hu Ha Hdisj.
  - cbn [fold_left]. split; [intros H; left; exact H|].
    intros [H|(d & [] & _)]; exact H.
  - cbn [fold_left]. inversion Hnd as [|? ? Hnotin Hnd']; subst.
    assert (Hstep : forall u,
               Z.testbit (slider_step s occ use_lsb attacks d) u = true
               <-> Z.testbit attacks u = true \/ visible_along s occ d u).
    { intros u. apply slider_step_spec; try assumption.
      - apply Hu. left. reflexivity.
      - intros v Hv. apply (Hdisj v d); [left; reflexivity|exact Hv]. }
    rewrite IH; try assumption.
    + rewrite Hstep. split.
      * intros [[H|H]|(d' & Hin & H)].
        -- left. exact H.
        -- right. exists d. split; [left; reflexivity|exact H].
        -- right. exists d'. split; [right; exact Hin|exact H].
      * intros [H|(d' & [->|Hin] & H)].
        -- left. left. exact H.
        -- left. right. exact H.
        -- right. exists d'. split; assumption.
    + intros d' Hin. apply Hu. right. exact Hin.
    + apply slider_step_range; try assumption. apply Hu. left. reflexivity.
    + intros u d' Hin Hbit. apply Hstep in Hbit. destruct Hbit as [Hbit|Hvis].
      * apply (Hdisj u d'); [right; exact Hin|exact Hbit].
      * destruct (Z.testbit (generate_ray s d') u) eqn:Hray; [|reflexivity].
        exfalso. apply generate_ray_spec in Hray; [|assumption].
        destruct Hray as (k' & Hk' & Eu').
        destruct (visible_on_ray s occ d u Hvis) as (k & Hk & Eu).
        apply (rays_disjoint s d d' k k' Hs); [|assumption|assumption|congruence].
        intros ->. contradiction.
Qed.

Lemma bishop_attacks_spec s occ t :
  0 <= s < 64 ->
  Z.testbit (bishop_attacks s occ) t = true
  <-> exists d, In d bishop_directions /\ visible_along s occ d t.
Proof.
  intros Hs. unfold bishop_attacks.
  rewrite (slider_fold_spec s occ bishop_use_lsb Hs).
  - rewrite Z.bits_0. split; [intros [H|H]; [discriminate|exact H]|intros H; right; exact H].
  - unfold bishop_directions. repeat constructor; cbn; intuition congruence.
  - intros d Hd. cbn in Hd. destruct Hd as [<-|[<-|[<-|[<-|[]]]]]; reflexivity.
  - unfold bb_range. lia.
  - intros u d _ H. rewrite Z.bits_0 in H. discriminate.
Qed.

Lemma rook_attacks_spec s occ t :
  0 <= s < 64 ->
  Z.testbit (rook_attacks s occ) t = true
  <-> exists d, In d rook_directions /\ visible_along s occ d t.
Proof.
  intros Hs. unfold rook_attacks.
  rewrite (slider_fold_spec s occ rook_use_lsb Hs).
  - rewrite Z.bits_0. split; [intros [H|H]; [discriminate|exact H]|intros H; right; exact H].
  - unfold rook_directions. repeat constructor; cbn; intuition congruence.
  - intros d Hd. cbn in Hd. destruct Hd as [<-|[<-|[<-|[<-|[]]]]]; reflexivity.
  - unfold bb_range. lia.
  - intros u d _ H. rewrite Z.bits_0 in H. discriminate.
Qed.

Lemma visible_unique_direction s occ d d' t k :
  0 <= s < 64 -> 1 <= k <= ray_steps s d -> t = ray_square s d k ->
  visible_along s occ d' t -> d' = d.
Proof.
  intros Hs Hk Et Hvis.
  destruct (visible_on_ray s occ d' t Hvis) as (k' & Hk' & Et').
  destruct (decide (d' = d)) as [E|Hne]; [exact E|exfalso].
  apply (rays_disjoint s d' d k' k Hs Hne Hk' Hk). congruence.
Qed.

Lemma ray_truncated_of_spec s occ dirs attacks :
  0 <= s < 64 ->
  (forall t, Z.testbit attacks t = true
             <-> exists d, In d dirs /\ visible_along s occ d t) ->
  forall d, In d dirs -> ray_truncated attacks s occ d.
Proof.
  intros Hs Hspec d Hd. unfold ray_truncated, ray.
  rewrite ray_table_generate by assumption.
  split; [|split].
  - intros t. rewrite Z.land_spec, andb_true_iff, Hspec. split.
    + intros [(d' & Hd' & Hvis) Hray].
      apply generate_ray_spec in Hray; [|assumption]. destruct Hray as (k & Hk & Et).
      rewrite <- (visible_unique_direction s occ d d' t k Hs Hk Et Hvis). exact Hvis.
    + intros Hvis. split; [exists d; split; assumption|].
      apply generate_ray_spec; [assumption|]. apply (visible_on_ray s occ d t Hvis).
  - intros Hz. apply Z.bits_inj'. intros t Ht. rewrite Z.land_spec.
    destruct (Z.testbit (generate_ray s d) t) eqn:Hray; [|apply andb_false_r].
    rewrite andb_true_r. apply Hspec. exists d. split; [assumption|].
    apply generate_ray_spec in Hray; [|assumption]. destruct Hray as (k & Hk & Et).
    exists k. split; [assumption|]. split; [assumption|].
    intros j Hj. apply (no_blockers_unoccupied s d occ j Hs Hz). lia.
  - intros Hne.
    destruct (nearest_blocker_spec s d occ Hs Hne) as (k & Hk & Eb & Hocc & Hfree).
    exists k. split; [assumption|]. split; [assumption|]. split; [assumption|].
    split; [assumption|]. split.
    + apply Hspec. exists d. split; [assumption|]. exists k. tauto.
    + intros m Hm.
      destruct (Z.testbit attacks (ray_square s d m)) eqn:Hbit; [|reflexivity].
      exfalso. apply Hspec in Hbit. destruct Hbit as (d' & Hd' & Hvis).
      assert (d' = d)
        by (apply (visible_unique_direction s occ d d' (ray_square s d m) m Hs);
            [lia|reflexivity|exact Hvis]).
      subst d'. destruct Hvis as (k' & Hk' & Et & Hfree').
      apply ray_square_inj in Et. subst k'.
      rewrite (Hfree' k) in Hocc by lia. discriminate.
Qed.

Lemma attacks_within_rays s occ dirs attacks :
  0 <= s < 64 ->
  (forall t, Z.testbit attacks t = true
             <-> exists d, In d dirs /\ visible_along s occ d t) ->
  forall t, Z.testbit attacks t = true ->
            exists d, In d dirs /\ Z.testbit (ray d s) t = true.
Proof.
  intros Hs Hspec t Ht. apply Hspec in Ht. destruct Ht as (d & Hd & Hvis).
  exists d. split; [assumption|]. unfold ray.
  rewrite ray_table_generate by assumption.
  apply generate_ray_spec; [assumption|]. apply (visible_on_ray s occ d t Hvis).
Qed.

(** C2: for every origin square and every occupancy, [bishop_attacks] and
    [rook_attacks] hold, on each of the piece's four rays, exactly the
    squares of [ray[dir][s]] up to and including the first occupied one,
    and nothing outside the four rays; the nearest blocker is the LSB of
    the blockers for N, NE, E, NW and the MSB for S, SW, W, SE; the
    blocker stays in the set, the squares beyond it do not, and a ray
    without blocker is included whole. *)
Theorem slider_attacks_truncate_rays s occ :
  0 <= s < 64 ->
  (forall d, In d bishop_directions -> ray_truncated (bishop_attacks s occ) s occ d)
  /\ (forall t, Z.testbit (bishop_attacks s occ) t = true ->
                exists d, In d bishop_directions /\ Z.testbit (ray d s) t = true)
  /\ (forall d, In d rook_directions -> ray_truncated (rook_attacks s occ) s occ d)
  /\ (forall t, Z.testbit (rook_attacks s occ) t = true ->
                exists d, In d rook_directions /\ Z.testbit (ray d s) t = true)
  /\ (forall d, In d bishop_directions -> bishop_use_lsb d = positive_direction d)
  /\ (forall d, In d rook_directions -> rook_use_lsb d = positive_direction d)
  /\ (forall d, positive_direction d = true
                <-> d = North \/ d = NorthEast \/ d = East \/ d = NorthWest).
Proof.
  intros Hs.
  pose proof (fun t => bishop_attacks_spec s occ t Hs) as HB.
  pose proof (fun t => rook_attacks_spec s occ t Hs) as HR.
  split; [exact (ray_truncated_of_spec s occ _ _ Hs HB)|].
  split; [exact (attacks_within_rays s occ _ _ Hs HB)|].
  split; [exact (ray_truncated_of_spec s occ _ _ Hs HR)|].
  split; [exact (attacks_within_rays s occ _ _ Hs HR)|].
  split; [|split].
  - intros d Hd. cbn in Hd. destruct Hd as [<-|[<-|[<-|[<-|[]]]]]; reflexivity.
  - intros d Hd. cbn in Hd. destruct Hd as [<-|[<-|[<-|[<-|[]]]]]; reflexivity.
  - intros d. destruct d; cbn; split; intros H; try discriminate;
      try reflexivity; intuition congruence.
Qed.

Lemma slider_attacks_truncate_rays_witness :
  ray_truncated (rook_attacks 27 (2^29 + 2^30)) 27 (2^29 + 2^30) East.
Proof.
  destruct (slider_attacks_truncate_rays 27 (2^29 + 2^30)) as (_ & _ & H & _).
  - lia.
  - apply H. cbn. tauto.
Defined.


(* ===================================================================== *)
(** * Pieces, colours and array indices *)
(* ===================================================================== *)

Lemma make_piece_color_type c t :
  real_color c -> real_type t ->
  color_of (make_piece c t) = c /\ type_of (make_piece c t) = t.
Proof. intros [-> | ->] Ht; destruct t; try (exfalso; apply Ht; reflexivity); split; reflexivity. Qed.

Lemma piece_cases p :
  p = Piece_None \/ p = Piece_NB
  \/ (real_color (color_of p) /\ real_type (type_of p)
      /\ p = make_piece (color_of p) (type_of p)).
Proof.
  destruct p; try (left; reflexivity); try (right; left; reflexivity);
    right; right; (split; [|split]); try reflexivity; try discriminate;
    try (left; reflexivity); try (right; reflexivity).
Qed.

Lemma make_piece_inj c t c' t' :
  real_color c -> real_type t -> real_color c' -> real_type t' ->
  make_piece c t = make_piece c' t' -> c = c' /\ t = t'.
Proof.
  intros Hc Ht Hc' Ht' E.
  destruct (make_piece_color_type c t Hc Ht) as [E1 E2].
  destruct (make_piece_color_type c' t' Hc' Ht') as [E3 E4].
  split; congruence.
Qed.

Lemma make_piece_real c t :
  real_color c -> real_type t ->
  make_piece c t <> Piece_None /\ make_piece c t <> Piece_NB.
Proof. intros [-> | ->] Ht; destruct t; try (exfalso; apply Ht; reflexivity); split; discriminate. Qed.

Lemma pieces_index_lt c t : real_color c -> real_type t -> (pieces_index c t < 12)%nat.
Proof. intros [-> | ->] Ht; destruct t; try (exfalso; apply Ht; reflexivity); cbv; lia. Qed.

Lemma pieces_index_inj c t c' t' :
  real_color c -> real_type t -> real_color c' -> real_type t' ->
  pieces_index c t = pieces_index c' t' -> c = c' /\ t = t'.
Proof.
  intros [-> | ->] Ht [-> | ->] Ht' E; destruct t, t';
    try (exfalso; apply Ht; reflexivity); try (exfalso; apply Ht'; reflexivity);
    try (split; reflexivity); cbv in E; lia.
Qed.

Lemma real_color_opposite c : real_color (opposite_color c).
Proof. destruct c; cbv; tauto. Qed.

Lemma opposite_color_involutive c : real_color c -> opposite_color (opposite_color c) = c.
Proof. intros [-> | ->]; reflexivity. Qed.

Lemma opposite_color_neq c : real_color c -> opposite_color c <> c.
Proof. intros [-> | ->]; discriminate. Qed.

(* ===================================================================== *)
(** * Updates of the piece array and of the mailbox *)
(* ===================================================================== *)

Lemma length_pl_set l i s : length (pl_set l i s) = length l.
Proof. apply length_insert. Qed.

Lemma length_pl_clear l i s : length (pl_clear l i s) = length l.
Proof. apply length_insert. Qed.

Lemma entry_pl_set l i s k :
  (i < length l)%nat ->
  entry (pl_set l i s) k = if decide (k = i) then set_bit (entry l i) s else entry l k.
Proof.
  intros Hi. unfold pl_set, entry at 1.
  destruct (decide (k = i)) as [->|Hne].
  - rewrite list_lookup_insert_eq by assumption. reflexivity.
  - rewrite list_lookup_insert_ne by congruence. reflexivity.
Qed.

Lemma entry_pl_clear l i s k :
  (i < length l)%nat ->
  entry (pl_clear l i s) k = if decide (k = i) then clear_bit (entry l i) s else entry l k.
Proof.
  intros Hi. unfold pl_clear, entry at 1.
  destruct (decide (k = i)) as [->|Hne].
  - rewrite list_lookup_insert_eq by assumption. reflexivity.
  - rewrite list_lookup_insert_ne by congruence. reflexivity.
Qed.

Lemma cell_insert b i p k :
  (i < length b)%nat ->
  cell (<[i := p]> b) k = if decide (k = i) then p else cell b k.
Proof.
  intros Hi. unfold cell.
  destruct (decide (k = i)) as [->|Hne].
  - rewrite list_lookup_insert_eq by assumption. reflexivity.
  - rewrite list_lookup_insert_ne by congruence. reflexivity.
Qed.

Lemma list_eq_entries (l1 l2 : list Bitboard) :
  length l1 = length l2 -> (forall k, entry l1 k = entry l2 k) -> l1 = l2.
Proof.
  intros Hlen H. apply list_eq. intros k. specialize (H k).
  unfold entry, Bitboard in *.
  destruct (l1 !! k) as [x|] eqn:E1, (l2 !! k) as [y|] eqn:E2; cbn in H.
  - rewrite H. reflexivity.
  - apply lookup_lt_Some in E1. apply lookup_ge_None_1 in E2. exfalso; lia.
  - apply lookup_ge_None_1 in E1. apply lookup_lt_Some in E2. exfalso; lia.
  - reflexivity.
Qed.

Lemma list_eq_cells (l1 l2 : list Piece) :
  length l1 = length l2 -> (forall k, cell l1 k = cell l2 k) -> l1 = l2.
Proof.
  intros Hlen H. apply list_eq. intros k. specialize (H k). unfold cell in H.
  destruct (l1 !! k) as [x|] eqn:E1, (l2 !! k) as [y|] eqn:E2; cbn in H.
  - congruence.
  - apply lookup_lt_Some in E1. apply lookup_ge_None_1 in E2. exfalso; lia.
  - apply lookup_ge_None_1 in E1. apply lookup_lt_Some in E2. exfalso; lia.
  - reflexivity.
Qed.

Lemma bb_eq_of_bits a b :
  bb_range a -> bb_range b ->
  (forall i, 0 <= i < 64 -> Z.testbit a i = Z.testbit b i) -> a = b.
Proof.
  intros Ha Hb H. apply Z.bits_inj'. intros n Hn.
  destruct (Z_lt_ge_dec n 64); [apply H; lia|].
  rewrite !bits_above_range by (auto; lia). reflexivity.
Qed.

Lemma set_clear_same x a :
  0 <= a < 64 -> bb_range x -> Z.testbit x a = true -> set_bit (clear_bit x a) a = x.
Proof.
  intros Ha Hx Hbit. apply bb_eq_of_bits.
  - apply set_bit_range; [assumption|apply clear_bit_range; assumption].
  - assumption.
  - intros i Hi. rewrite testbit_set_bit, testbit_clear_bit by assumption.
    destruct (a =? i) eqn:E; [apply Z.eqb_eq in E; subst; rewrite Hbit|]; reflexivity.
Qed.

Lemma clear_set_same x a :
  0 <= a < 64 -> bb_range x -> Z.testbit x a = false -> clear_bit (set_bit x a) a = x.
Proof.
  intros Ha Hx Hbit. apply bb_eq_of_bits.
  - apply clear_bit_range, set_bit_range; assumption.
  - assumption.
  - intros i Hi.
    rewrite testbit_clear_bit, testbit_set_bit
      by (try assumption; apply set_bit_range; assumption).
    destruct (a =? i) eqn:E; [apply Z.eqb_eq in E; subst; rewrite Hbit|]; reflexivity.
Qed.

Lemma testbit_clear_other x a b :
  0 <= a < 64 -> bb_range x -> a <> b ->
  Z.testbit (clear_bit x a) b = Z.testbit x b.
Proof.
  intros Ha Hx Hne. rewrite testbit_clear_bit by assumption.
  replace (a =? b) with false by (symmetry; apply Z.eqb_neq; assumption). reflexivity.
Qed.

(* ===================================================================== *)
(** * What a valid position provides *)
(* ===================================================================== *)

Lemma in_all_squares sq : 0 <= sq < 64 -> In sq all_squares.
Proof.
  intros H. unfold all_squares. apply in_map_iff. exists (Z.to_nat sq).
  split; [lia|]. apply in_seq. lia.
Qed.


Lemma valid_position_facts P : valid_position P = true -> valid_facts P.
Proof.
  unfold valid_position. intros H.
  repeat (apply andb_true_iff in H; destruct H as [H ?]).
  rename H into Hlen1.
  match goal with
  | H1 : (length (board_ P) =? 64)%nat = true,
    H2 : forallb (fun bb => (0 <=? bb) && (bb <? 2^64)) (pieces_ P) = true,
    H3 : forallb (sync_at P) all_squares = true,
    H4 : bool_decide (update_bitboards P = P) = true,
    H5 : bool_decide (side_to_move_ P = White) || bool_decide (side_to_move_ P = Black) = true,
    H6 : en_passant_ok P = true,
    H7 : (hash_key_ P =? hash_position P) = true |- _ =>
      rename H1 into Hlen2; rename H2 into Hrange; rename H3 into Hsync;
      rename H4 into Hagg; rename H5 into Hside; rename H6 into Hep; rename H7 into Hhash
  end.
  assert (Hsq : forall sq, 0 <= sq < 64 -> sync_at P sq = true).
  { intros sq Hsq. rewrite forallb_forall in Hsync. apply Hsync, in_all_squares, Hsq. }
  split.
  - apply Nat.eqb_eq. exact Hlen1.
  - apply Nat.eqb_eq. exact Hlen2.
  - intros k. unfold entry. destruct (pieces_ P !! k) as [x|] eqn:E; cbn.
    + rewrite forallb_forall in Hrange.
      assert (Hin : In x (pieces_ P)).
      { apply list_elem_of_In. apply list_elem_of_lookup. exists k. exact E. }
      specialize (Hrange x Hin). unfold bb_range. lia.
    + unfold bb_range. lia.
  - intros sq Hs E. specialize (Hsq sq Hs). unfold sync_at in Hsq.
    apply andb_true_iff in Hsq. destruct Hsq as [Hnb _].
    rewrite bool_decide_eq_true_2 in Hnb by assumption. discriminate.
  - intros sq c t Hs Hc Ht. specialize (Hsq sq Hs). unfold sync_at in Hsq.
    apply andb_true_iff in Hsq. destruct Hsq as [_ Hall].
    rewrite forallb_forall in Hall.
    assert (Hinc : In c color_range) by (destruct Hc as [-> | ->]; cbn; tauto).
    specialize (Hall c Hinc). rewrite forallb_forall in Hall.
    assert (Hint : In t piece_type_range)
      by (destruct t; cbn; try tauto; exfalso; apply Ht; reflexivity).
    specialize (Hall t Hint). apply Bool.eqb_prop in Hall. rewrite Hall.
    apply bool_decide_eq_true.
  - apply bool_decide_eq_true in Hagg. exact Hagg.
  - apply orb_true_iff in Hside.
    destruct Hside as [H|H]; apply bool_decide_eq_true in H; [left|right]; exact H.
  - exact Hep.
  - apply Z.eqb_eq. exact Hhash.
Qed.

(** ** Aggregates and the mailbox *)

Lemma pieces_entry P c t : pieces P c t = entry (pieces_ P) (pieces_index c t).
Proof. reflexivity. Qed.

Lemma pieces_range P c t : valid_facts P -> bb_range (pieces P c t).
Proof. intros V. rewrite pieces_entry. apply (vf_range P V). Qed.

Lemma fold_lor_bit (f : PieceType -> Z) (l : list PieceType) acc sq :
  Z.testbit (fold_left (fun a pt => Z.lor a (f pt)) l acc) sq
  = Z.testbit acc sq || existsb (fun pt => Z.testbit (f pt) sq) l.
Proof.
  revert acc. induction l as [|x l IH]; intros acc; cbn [fold_left existsb].
  - now rewrite orb_false_r.
  - rewrite IH, Z.lor_spec, orb_assoc. reflexivity.
Qed.

Lemma occupied_by_color_bit P c sq :
  valid_facts P -> real_color c ->
  Z.testbit (occupied_by_color P c) sq
  = existsb (fun pt => Z.testbit (pieces P c pt) sq) piece_type_range.
Proof.
  intros V Hc. pose proof (vf_aggregates P V) as Hagg.
  unfold update_bitboards in Hagg.
  assert (E : occupied_by_color_ P
              = map (fun c => fold_left (fun acc pt => Z.lor acc (pieces P c pt))
                                piece_type_range 0) color_range).
  { rewrite <- Hagg at 1. reflexivity. }
  unfold occupied_by_color. rewrite E.
  destruct Hc as [-> | ->]; cbn [map color_range Color_to_Z];
    [change (Z.to_nat 0) with 0%nat|change (Z.to_nat 1) with 1%nat];
    simpl (_ !! _); cbn [default from_option id].
  - rewrite !Z.lor_spec, Z.bits_0. cbn [existsb piece_type_range orb].
    rewrite orb_false_r, !orb_assoc. reflexivity.
  - rewrite !Z.lor_spec, Z.bits_0. cbn [existsb piece_type_range orb].
    rewrite orb_false_r, !orb_assoc. reflexivity.
Qed.

Lemma occupied_bit P sq :
  valid_facts P ->
  Z.testbit (occupied P) sq
  = Z.testbit (occupied_by_color P White) sq || Z.testbit (occupied_by_color P Black) sq.
Proof.
  intros V. pose proof (vf_aggregates P V) as Hagg.
  assert (E1 : occupied_by_color_ (update_bitboards P) = occupied_by_color_ P)
    by (rewrite Hagg; reflexivity).
  assert (E2 : occupied_ (update_bitboards P) = occupied_ P)
    by (rewrite Hagg; reflexivity).
  unfold update_bitboards in E1, E2. cbn [occupied_by_color_ occupied_ with_occupancy] in E1, E2.
  unfold occupied, occupied_by_color. rewrite <- E2, <- E1.
  cbn [map color_range fold_left Color_to_Z].
  change (Z.to_nat 0) with 0%nat. change (Z.to_nat 1) with 1%nat.
  simpl (_ !! _). cbn [default from_option id fold_left piece_type_range].
  rewrite !Z.lor_spec, !Z.bits_0. reflexivity.
Qed.

Lemma occupied_by_color_iff P c sq :
  valid_facts P -> 0 <= sq < 64 -> real_color c ->
  (Z.testbit (occupied_by_color P c) sq = true <-> color_of (piece_on P sq) = c).
Proof.
  intros V Hs Hc. rewrite occupied_by_color_bit by assumption.
  rewrite existsb_exists. split.
  - intros (t & Hin & Hbit).
    assert (Ht : real_type t) by (destruct t; cbn in Hin; try discriminate; intuition discriminate).
    apply (vf_sync P V sq c t Hs Hc Ht) in Hbit. rewrite Hbit.
    apply make_piece_color_type; assumption.
  - intros Hcol.
    destruct (piece_cases (piece_on P sq)) as [E|[E|(Hc' & Ht' & E)]].
    + rewrite E in Hcol. cbn in Hcol. destruct Hc; congruence.
    + rewrite E in Hcol. cbn in Hcol. destruct Hc; congruence.
    + exists (type_of (piece_on P sq)). split.
      * destruct (type_of (piece_on P sq)); cbn; try tauto.
        exfalso. apply Ht'. reflexivity.
      * apply (vf_sync P V sq c _ Hs Hc Ht'). rewrite <- Hcol. exact E.
Qed.

Lemma occupied_iff P sq :
  valid_facts P -> 0 <= sq < 64 ->
  (Z.testbit (occupied P) sq = true <-> piece_on P sq <> Piece_None).
Proof.
  intros V Hs. rewrite occupied_bit by assumption. rewrite orb_true_iff.
  rewrite !occupied_by_color_iff by (try assumption; cbv; tauto).
  pose proof (vf_not_nb P V sq Hs) as Hnb.
  destruct (piece_on P sq); cbn; try congruence; intuition congruence.
Qed.

Lemma unoccupied_none P sq :
  valid_facts P -> 0 <= sq < 64 ->
  Z.testbit (occupied P) sq = false -> piece_on P sq = Piece_None.
Proof.
  intros V Hs H. destruct (decide (piece_on P sq = Piece_None)) as [E|Hne]; [exact E|].
  apply (occupied_iff P sq V Hs) in Hne. congruence.
Qed.

Lemma own_piece_real P sq :
  valid_facts P -> own_piece_at P sq ->
  piece_on P sq = make_piece (side_to_move_ P) (type_of (piece_on P sq))
  /\ real_type (type_of (piece_on P sq)).
Proof.
  intros V Hown. unfold own_piece_at in Hown.
  pose proof (vf_side P V) as Hside.
  destruct (piece_cases (piece_on P sq)) as [E|[E|(Hc' & Ht' & E)]].
  - rewrite E in Hown. cbn in Hown. destruct Hside; congruence.
  - rewrite E in Hown. cbn in Hown. destruct Hside; congruence.
  - split; [|exact Ht']. rewrite <- Hown. exact E.
Qed.

(* ===================================================================== *)
(** * The loop over the squares of a board *)
(* ===================================================================== *)

Lemma bb_loop_ind {A : Type} (I : A -> Prop) (bb : Bitboard) (body : Square -> A -> A) :
  (forall sq a, 0 <= sq < 64 -> Z.testbit bb sq = true -> I a -> I (body sq a)) ->
  forall fuel bb' acc,
    bb_range bb' ->
    (forall i, Z.testbit bb' i = true -> Z.testbit bb i = true) ->
    I acc -> I (bb_loop fuel bb' body acc).
Proof.
  intros Hbody. induction fuel as [|fuel IH]; intros bb' acc Hr Hsub Hacc.
  - exact Hacc.
  - cbn [bb_loop]. rewrite count_bits_pos by assumption.
    destruct (bb' =? 0) eqn:E; cbn [negb]; [exact Hacc|].
    apply Z.eqb_neq in E.
    destruct (pop_lsb_spec bb' Hr E) as (k & (Hk & Hbit & _) & Hpop).
    rewrite Hpop. apply IH.
    + apply clear_bit_range. exact Hr.
    + intros i Hi. apply Hsub.
      rewrite testbit_clear_bit in Hi by assumption.
      apply andb_true_iff in Hi. apply Hi.
    + apply Hbody; [exact Hk|apply Hsub; exact Hbit|exact Hacc].
Qed.

Lemma for_each_square_ind {A : Type} (I : A -> Prop) (bb : Bitboard)
    (body : Square -> A -> A) (acc : A) :
  bb_range bb ->
  (forall sq a, 0 <= sq < 64 -> Z.testbit bb sq = true -> I a -> I (body sq a)) ->
  I acc -> I (for_each_square bb body acc).
Proof.
  intros Hr Hbody Hacc. unfold for_each_square.
  apply (bb_loop_ind I bb body Hbody); [exact Hr|auto|exact Hacc].
Qed.

(* ===================================================================== *)
(** * Soundness of the pseudo-legal generator *)
(* ===================================================================== *)

Lemma land_range_r a b : bb_range b -> bb_range (Z.land a b).
Proof. intros H. rewrite Z.land_comm. apply land_range. exact H. Qed.

Lemma fold_lor_range (f : PieceType -> Z) l acc :
  bb_range acc -> (forall t, bb_range (f t)) ->
  bb_range (fold_left (fun a pt => Z.lor a (f pt)) l acc).
Proof.
  revert acc. induction l as [|x l IH]; intros acc Ha Hf; cbn [fold_left]; [exact Ha|].
  apply IH; [apply lor_range; [exact Ha|apply Hf]|exact Hf].
Qed.

Lemma occupied_by_color_range P c : valid_facts P -> real_color c ->
  bb_range (occupied_by_color P c).
Proof.
  intros V Hc. apply range_of_bits.
  - pose proof (vf_aggregates P V) as Hagg.
    assert (E : occupied_by_color_ P
                = map (fun c => fold_left (fun acc pt => Z.lor acc (pieces P c pt))
                                  piece_type_range 0) color_range).
    { rewrite <- Hagg at 1. reflexivity. }
    unfold occupied_by_color. rewrite E.
    destruct Hc as [-> | ->]; cbn [map color_range Color_to_Z];
      [change (Z.to_nat 0) with 0%nat|change (Z.to_nat 1) with 1%nat];
      cbn [lookup list_lookup default from_option id];
      apply (fold_lor_range (pieces P _));
      try (unfold bb_range; lia); intros t; apply pieces_range; exact V.
  - intros i Hi. rewrite occupied_by_color_bit by assumption.
    apply not_true_iff_false. intros H. apply existsb_exists in H.
    destruct H as (t & _ & Hbit).
    rewrite (bits_above_range _ i (pieces_range P c t V) Hi) in Hbit. discriminate.
Qed.

Lemma color_none_not_real c : real_color c -> Color_None <> c.
Proof. intros [-> | ->]; discriminate. Qed.

Lemma not_own_of_mask P attacks to :
  valid_facts P -> 0 <= to < 64 ->
  Z.testbit (Z.land attacks (U64 (Z.lnot (occupied_by_color P (side_to_move_ P))))) to = true ->
  not_own_at P to.
Proof.
  intros V Ht H. rewrite Z.land_spec, testbit_U64, Z.lnot_spec in H by lia.
  apply andb_true_iff in H. destruct H as [_ H].
  apply andb_true_iff in H. destruct H as [_ H].
  apply negb_true_iff in H. unfold not_own_at. intros Hc.
  apply (occupied_by_color_iff P _ to V Ht (vf_side P V)) in Hc. congruence.
Qed.

Lemma not_own_of_empty P to :
  valid_facts P -> piece_on P to = Piece_None -> not_own_at P to.
Proof.
  intros V E. unfold not_own_at. rewrite E. cbn.
  apply color_none_not_real, (vf_side P V).
Qed.

Lemma Forall_snoc {A} (Q : A -> Prop) l x : Forall Q l -> Q x -> Forall Q (l ++ [x]).
Proof. intros Hl Hx. apply Forall_app. split; [exact Hl|]. constructor; [exact Hx|constructor]. Qed.

Lemma push_attacks_ok P from attacks moves :
  valid_facts P -> 0 <= from < 64 -> own_piece_at P from ->
  Forall (quiet_ok P) moves ->
  Forall (quiet_ok P)
    (push_attacks P from
       (Z.land attacks (U64 (Z.lnot (occupied_by_color P (side_to_move_ P))))) moves).
Proof.
  intros V Hf Hown Hmoves. unfold push_attacks.
  apply (for_each_square_ind (Forall (quiet_ok P))).
  - apply land_range_r, U64_range.
  - intros to a Hto Hbit Ha. apply Forall_snoc; [exact Ha|].
    pose proof (not_own_of_mask P attacks to V Hto Hbit) as Hno.
    split.
    + unfold move_ok, Move_new. cbn [from_square to_square move_type].
      split; [exact Hf|]. split; [exact Hto|]. split; [exact Hown|].
      destruct (decide (piece_on P to <> Piece_None)); exact Hno.
    + unfold Move_new. cbn [move_type].
      destruct (decide (piece_on P to <> Piece_None)); discriminate.
  - exact Hmoves.
Qed.

Lemma own_of_bit P t from :
  valid_facts P -> real_type t -> 0 <= from < 64 ->
  Z.testbit (pieces P (side_to_move_ P) t) from = true ->
  piece_on P from = make_piece (side_to_move_ P) t /\ own_piece_at P from
  /\ type_of (piece_on P from) = t.
Proof.
  intros V Ht Hf Hbit.
  apply (vf_sync P V from _ t Hf (vf_side P V) Ht) in Hbit.
  destruct (make_piece_color_type _ t (vf_side P V) Ht) as [E1 E2].
  unfold own_piece_at. rewrite Hbit. auto.
Qed.

Lemma piece_moves_ok P t (att : Square -> Bitboard) moves :
  valid_facts P -> real_type t ->
  Forall (quiet_ok P) moves ->
  Forall (quiet_ok P)
    (for_each_square (pieces P (side_to_move_ P) t)
       (fun from moves =>
          push_attacks P from
            (Z.land (att from) (U64 (Z.lnot (occupied_by_color P (side_to_move_ P)))))
            moves)
       moves).
Proof.
  intros V Ht Hmoves.
  apply (for_each_square_ind (Forall (quiet_ok P))).
  - apply pieces_range. exact V.
  - intros from a Hf Hbit Ha.
    destruct (own_of_bit P t from V Ht Hf Hbit) as (_ & Hown & _).
    apply push_attacks_ok; assumption.
  - exact Hmoves.
Qed.

Lemma knight_moves_ok P moves :
  valid_facts P -> Forall (quiet_ok P) moves ->
  Forall (quiet_ok P) (generate_knight_moves P moves (side_to_move_ P)).
Proof. intros V H. apply (piece_moves_ok P Knight knight_attacks); [assumption|discriminate|assumption]. Qed.

Lemma bishop_moves_ok P moves :
  valid_facts P -> Forall (quiet_ok P) moves ->
  Forall (quiet_ok P) (generate_bishop_moves P moves (side_to_move_ P)).
Proof.
  intros V H.
  apply (piece_moves_ok P Bishop (fun from => bishop_attacks from (occupied P)));
    [assumption|discriminate|assumption].
Qed.

Lemma rook_moves_ok P moves :
  valid_facts P -> Forall (quiet_ok P) moves ->
  Forall (quiet_ok P) (generate_rook_moves P moves (side_to_move_ P)).
Proof.
  intros V H.
  apply (piece_moves_ok P Rook (fun from => rook_attacks from (occupied P)));
    [assumption|discriminate|assumption].
Qed.

Lemma queen_moves_ok P moves :
  valid_facts P -> Forall (quiet_ok P) moves ->
  Forall (quiet_ok P) (generate_queen_moves P moves (side_to_move_ P)).
Proof.
  intros V H.
  apply (piece_moves_ok P Queen (fun from => queen_attacks from (occupied P)));
    [assumption|discriminate|assumption].
Qed.

Lemma king_moves_ok P moves :
  valid_facts P -> Forall (quiet_ok P) moves ->
  Forall (quiet_ok P) (generate_king_moves P moves (side_to_move_ P)).
Proof.
  intros V H. unfold generate_king_moves.
  pose proof (pieces_range P (side_to_move_ P) King V) as Hr.
  rewrite count_bits_pos by assumption.
  destruct (pieces P (side_to_move_ P) King =? 0) eqn:E; cbn [negb]; [exact H|].
  apply Z.eqb_neq in E.
  destruct (pop_lsb_spec _ Hr E) as (k & (Hk & Hbit & _) & Hpop).
  rewrite Hpop.
  destruct (own_of_bit P King k V ltac:(discriminate) Hk Hbit) as (_ & Hown & _).
  apply push_attacks_ok; assumption.
Qed.

Lemma rank_of_nonneg sq : 0 <= sq -> rank_of sq = sq / 8.
Proof. intros H. unfold rank_of, File_NB. apply Z.quot_div_nonneg; lia. Qed.

Lemma file_of_nonneg sq : 0 <= sq -> file_of sq = sq mod 8.
Proof. intros H. unfold file_of, File_NB. apply Z.rem_mod_nonneg; lia. Qed.

Lemma en_passant_range P :
  valid_facts P -> en_passant_square_ P <> Square_None ->
  0 <= en_passant_square_ P < 64.
Proof.
  intros V Hne. pose proof (vf_en_passant P V) as H. unfold en_passant_ok in H.
  apply orb_true_iff in H. destruct H as [H|H].
  - apply orb_true_iff in H. destruct H as [H|H].
    + apply Z.eqb_eq in H. contradiction.
    + repeat (apply andb_true_iff in H; destruct H as [H ?]). lia.
  - repeat (apply andb_true_iff in H; destruct H as [H ?]). lia.
Qed.

Lemma push_promotions_ok P from to moves :
  valid_facts P -> 0 <= from < 64 -> 0 <= to < 64 ->
  own_piece_at P from -> type_of (piece_on P from) = Pawn -> not_own_at P to ->
  Forall (quiet_ok P) moves ->
  Forall (quiet_ok P) (push_promotions from to (side_to_move_ P) moves).
Proof.
  intros V Hf Ht Hown Hpawn Hno Hmoves. unfold push_promotions.
  apply Forall_app. split; [exact Hmoves|].
  assert (H : forall t, real_type t -> t <> Pawn ->
                quiet_ok P (Move_new from to Promotion (make_piece (side_to_move_ P) t))).
  { intros t Hrt Hnp. split; [|discriminate].
    unfold move_ok, Move_new. cbn [from_square to_square move_type promotion_piece].
    split; [exact Hf|]. split; [exact Ht|]. split; [exact Hown|].
    split; [exact Hpawn|]. split; [exact Hno|]. exists t. auto. }
  repeat constructor; apply H; discriminate.
Qed.

Lemma pawn_moves_ok P moves :
  valid_facts P -> Forall (quiet_ok P) moves ->
  Forall (quiet_ok P) (generate_pawn_moves P moves (side_to_move_ P)).
Proof.
  intros V Hmoves. unfold generate_pawn_moves.
  pose proof (vf_side P V) as Hside.
  apply (for_each_square_ind (Forall (quiet_ok P))); [apply pieces_range; exact V| |exact Hmoves].
  intros from a Hf Hbit Ha.
  destruct (own_of_bit P Pawn from V ltac:(discriminate) Hf Hbit) as (Hmp & Hown & Hpawn).
  set (c := side_to_move_ P) in *.
  set (push_offset := direction_offset (if decide (c = White) then North else South)).
  set (start_rank := if decide (c = White) then 1 else 6).
  set (promo_rank := if decide (c = White) then 7 else 0).
  (* the moves after the push block *)
  match goal with
  | |- Forall _ (if _ then _ else for_each_square ?att ?body ?m1) =>
      assert (H1 : Forall (quiet_ok P) m1); [|
        assert (H2 : Forall (quiet_ok P) (for_each_square att body m1))]
  end.
  - destruct ((from + push_offset >=? A1) && (from + push_offset <=? H8)
              && negb (is_bit_set (occupied P) (from + push_offset))) eqn:Epush;
      [|exact Ha].
    apply andb_true_iff in Epush. destruct Epush as [Er Eocc].
    apply andb_true_iff in Er. destruct Er as [Er1 Er2].
    assert (Hto : 0 <= from + push_offset < 64) by (unfold A1, H8 in *; lia).
    rewrite is_bit_set_spec in Eocc by assumption. apply negb_true_iff in Eocc.
    pose proof (unoccupied_none P _ V Hto Eocc) as Hempty.
    pose proof (not_own_of_empty P _ V Hempty) as Hno.
    destruct (rank_of (from + push_offset) =? promo_rank).
    + apply push_promotions_ok; assumption.
    + assert (Hsingle : Forall (quiet_ok P)
                (a ++ [Move_new from (from + push_offset) Normal Piece_None])).
      { apply Forall_snoc; [exact Ha|]. split; [|discriminate].
        unfold move_ok, Move_new. cbn [from_square to_square move_type]. auto. }
      destruct (rank_of from =? start_rank) eqn:Estart; [|exact Hsingle].
      apply Z.eqb_eq in Estart. rewrite rank_of_nonneg in Estart by lia.
      assert (Hd : 0 <= from + 2 * push_offset < 64).
      { unfold start_rank, push_offset in *.
        destruct (decide (c = White)); cbn [direction_offset] in *;
          pose proof (Z.div_mod from 8 ltac:(lia));
          pose proof (Z.mod_pos_bound from 8 ltac:(lia)); lia. }
      destruct (negb (is_bit_set (occupied P) (from + 2 * push_offset))) eqn:Ed;
        [|exact Hsingle].
      rewrite is_bit_set_spec in Ed by assumption. apply negb_true_iff in Ed.
      pose proof (unoccupied_none P _ V Hd Ed) as Hempty2.
      apply Forall_snoc; [exact Hsingle|]. split; [|discriminate].
      unfold move_ok, Move_new. cbn [from_square to_square move_type].
      split; [exact Hf|]. split; [exact Hd|]. split; [exact Hown|].
      apply not_own_of_empty; assumption.
  - apply (for_each_square_ind (Forall (quiet_ok P))); [| |exact H1].
    + apply land_range_r, occupied_by_color_range; [exact V|].
      destruct (decide (c = White)); cbv; tauto.
    + intros cap_sq a' Hcap Hbit' Ha'.
      rewrite Z.land_spec in Hbit'. apply andb_true_iff in Hbit'.
      destruct Hbit' as [_ Henemy].
      assert (Hno : not_own_at P cap_sq).
      { unfold not_own_at. fold c.
        apply occupied_by_color_iff in Henemy;
          [|exact V|exact Hcap|destruct (decide (c = White)); cbv; tauto].
        rewrite Henemy. destruct (decide (c = White)) as [E|E]; [rewrite E; discriminate|].
        destruct Hside as [E'|E']; [contradiction|]. fold c in E'. rewrite E'. discriminate. }
      destruct (rank_of cap_sq =? promo_rank).
      * apply push_promotions_ok; assumption.
      * apply Forall_snoc; [exact Ha'|]. split; [|discriminate].
        unfold move_ok, Move_new. cbn [from_square to_square move_type]. auto.
  - destruct (negb (en_passant_square P =? Square_None)) eqn:Eep; [|exact H2].
    apply negb_true_iff, Z.eqb_neq in Eep.
    destruct (is_bit_set (pawn_attacks from c) (en_passant_square P)); [|exact H2].
    apply Forall_snoc; [exact H2|]. split; [|discriminate].
    unfold move_ok, Move_new. cbn [from_square to_square move_type].
    split; [exact Hf|]. split; [apply en_passant_range; assumption|].
    split; [exact Hown|]. split; [exact Hpawn|reflexivity].
Qed.

Lemma lsb_index_bit bb k :
  bb_range bb -> 0 <= k < 64 -> get_lsb_index bb = k -> Z.testbit bb k = true.
Proof.
  intros Hr Hk E. destruct (Z.eq_dec bb 0) as [->|Hnz].
  - vm_compute in E. lia.
  - destruct (get_lsb_index_spec bb Hr Hnz) as (_ & Hb & _). now rewrite E in Hb.
Qed.

Lemma king_on_square P sq :
  valid_facts P -> 0 <= sq < 64 -> king_square P (side_to_move_ P) = sq ->
  piece_on P sq = make_piece (side_to_move_ P) King.
Proof.
  intros V Hsq E. unfold king_square in E.
  apply lsb_index_bit in E; [|apply pieces_range; exact V|exact Hsq].
  apply (vf_sync P V) in E; [exact E|exact Hsq|exact (vf_side P V)|discriminate].
Qed.

Lemma empty_of_clear P sq :
  valid_facts P -> 0 <= sq < 64 ->
  negb (is_bit_set (occupied P) sq) = true -> piece_on P sq = Piece_None.
Proof.
  intros V Hsq H. rewrite is_bit_set_spec in H by exact Hsq.
  apply negb_true_iff in H. now apply unoccupied_none.
Qed.

Lemma castling_block_ok P right between crossed enemy rook_sq rook king_from king_to moves :
  (forallb (fun sq => negb (is_bit_set (occupied P) sq)) between = true ->
   piece_on P rook_sq = rook ->
   move_ok P (Move_new king_from king_to Castle Piece_None)) ->
  Forall (move_ok P) moves ->
  Forall (move_ok P)
    (castling_block P right between crossed enemy rook_sq rook king_from king_to moves).
Proof.
  intros Hc Hmoves. unfold castling_block.
  destruct (has_castling_right _ _); [|exact Hmoves].
  destruct (forallb _ between) eqn:Eb; [|exact Hmoves].
  destruct (forallb _ crossed); [|exact Hmoves].
  destruct (decide _) as [Er|]; [|exact Hmoves].
  apply Forall_snoc; [exact Hmoves|]. now apply Hc.
Qed.

Lemma castle_move_ok P king_from king_to rook_sq between :
  valid_facts P ->
  0 <= king_from < 64 -> 0 <= king_to < 64 ->
  ((side_to_move_ P = White /\ king_from = E1 /\ (king_to = G1 \/ king_to = C1))
   \/ (side_to_move_ P = Black /\ king_from = E8 /\ (king_to = G8 \/ king_to = C8))) ->
  king_square P (side_to_move_ P) = king_from ->
  fst (castle_rook_squares king_to) = rook_sq ->
  In king_to between -> In (snd (castle_rook_squares king_to)) between ->
  Forall (fun sq => 0 <= sq < 64) between ->
  forallb (fun sq => negb (is_bit_set (occupied P) sq)) between = true ->
  piece_on P rook_sq = make_piece (side_to_move_ P) Rook ->
  move_ok P (Move_new king_from king_to Castle Piece_None).
Proof.
  intros V Hf Ht Hside Hking Hrook Hin1 Hin2 Hrange Hb Hr.
  pose proof (king_on_square P king_from V Hf Hking) as Hk.
  rewrite forallb_forall in Hb. rewrite List.Forall_forall in Hrange.
  unfold move_ok, Move_new. cbn [from_square to_square move_type].
  split; [exact Hf|]. split; [exact Ht|]. split.
  - unfold own_piece_at. rewrite Hk.
    apply make_piece_color_type; [exact (vf_side P V)|discriminate].
  - unfold castle_ok. cbn [from_square to_square].
    split; [exact Hside|]. split; [exact Hk|]. split; [now rewrite Hrook|].
    split; (apply empty_of_clear;
      [exact V|apply Hrange; assumption|apply Hb; assumption]).
Qed.

Lemma castling_moves_ok P moves :
  valid_facts P -> Forall (move_ok P) moves ->
  Forall (move_ok P) (generate_castling_moves P moves (side_to_move_ P)).
Proof.
  intros V Hmoves. unfold generate_castling_moves.
  destruct (is_in_check P); [exact Hmoves|].
  destruct (decide (side_to_move_ P = White)) as [Ew|Enw].
  - rewrite Ew. rewrite bool_decide_eq_true_2 by reflexivity.
    rewrite (bool_decide_eq_false_2 (White = Black)) by discriminate.
    cbn [andb orb].
    destruct (king_square P White =? E1) eqn:Ek; [|exact Hmoves].
    apply Z.eqb_eq in Ek. cbn [negb]. rewrite <- Ew in Ek.
    apply castling_block_ok; [|apply castling_block_ok; [|exact Hmoves]];
      intros Hb Hr;
      (eapply castle_move_ok;
       [exact V| | | |exact Ek|reflexivity| | | |exact Hb|rewrite Ew; exact Hr]);
      try (left; split; [exact Ew|split; [reflexivity|tauto]]);
      try (cbn; tauto);
      try (vm_compute; intuition congruence);
      repeat constructor; vm_compute; intuition congruence.
  - assert (Eb : side_to_move_ P = Black) by (destruct (vf_side P V); [contradiction|assumption]).
    rewrite Eb. rewrite (bool_decide_eq_false_2 (Black = White)) by discriminate.
    rewrite (bool_decide_eq_true_2 (Black = Black)) by reflexivity.
    cbn [andb orb].
    destruct (king_square P Black =? E8) eqn:Ek; [|exact Hmoves].
    apply Z.eqb_eq in Ek. cbn [negb]. rewrite <- Eb in Ek.
    apply castling_block_ok; [|apply castling_block_ok; [|exact Hmoves]];
      intros Hb Hr;
      (eapply castle_move_ok;
       [exact V| | | |exact Ek|reflexivity| | | |exact Hb|rewrite Eb; exact Hr]);
      try (right; split; [exact Eb|split; [reflexivity|tauto]]);
      try (cbn; tauto);
      try (vm_compute; intuition congruence);
      repeat constructor; vm_compute; intuition congruence.
Qed.

Lemma Forall_quiet_move P moves : Forall (quiet_ok P) moves -> Forall (move_ok P) moves.
Proof. intros H. eapply List.Forall_impl; [|exact H]. intros m [Hm _]. exact Hm. Qed.

Lemma generate_all_moves_ok P :
  valid_facts P ->
  Forall (move_ok P) (generate_all_moves P [] (side_to_move_ P)).
Proof.
  intros V. unfold generate_all_moves.
  apply castling_moves_ok; [exact V|]. apply Forall_quiet_move.
  apply king_moves_ok; [exact V|]. apply queen_moves_ok; [exact V|].
  apply rook_moves_ok; [exact V|]. apply bishop_moves_ok; [exact V|].
  apply knight_moves_ok; [exact V|]. apply pawn_moves_ok; [exact V|].
  constructor.
Qed.

Lemma legal_moves_pseudo_legal P m :
  In m (generate_legal_moves P) ->
  In m (generate_all_moves P [] (side_to_move_ P)) /\ leaves_king_safe P m = true
  /\ only_kings P = false.
Proof.
  unfold generate_legal_moves. destruct (only_kings P); [intros []|].
  intros H. apply list_elem_of_In, list_elem_of_filter in H.
  destruct H as [H1 H2]. apply list_elem_of_In in H2. auto.
Qed.

Lemma legal_move_ok P m :
  valid_facts P -> In m (generate_legal_moves P) -> move_ok P m.
Proof.
  intros V H. apply legal_moves_pseudo_legal in H. destruct H as [H _].
  pose proof (generate_all_moves_ok P V) as HF. rewrite List.Forall_forall in HF.
  apply HF. exact H.
Qed.


(* ===================================================================== *)
(** * make_move and undo_move on the arrays *)
(* ===================================================================== *)

Lemma testbit_clear_bit_lt bb sq i :
  0 <= sq < 64 -> 0 <= i < 64 ->
  Z.testbit (clear_bit bb sq) i = negb (sq =? i) && Z.testbit bb i.
Proof.
  intros H Hi. unfold clear_bit.
  rewrite Z.land_spec, testbit_U64, Z.lnot_spec, testbit_bit_of by lia.
  replace (i <? 64) with true by (symmetry; apply Z.ltb_lt; lia).
  cbn [andb]. apply andb_comm.
Qed.

Lemma bit_pl_set l i s k b :
  (i < length l)%nat -> 0 <= s < 64 -> 0 <= b < 64 ->
  Z.testbit (entry (pl_set l i s) k) b
  = (bool_decide (k = i) && (s =? b)) || Z.testbit (entry l k) b.
Proof.
  intros Hi Hs Hb. rewrite entry_pl_set by exact Hi.
  destruct (decide (k = i)) as [->|Hne].
  - rewrite bool_decide_eq_true_2 by reflexivity. apply testbit_set_bit; exact Hs.
  - rewrite bool_decide_eq_false_2 by exact Hne. reflexivity.
Qed.

Lemma bit_pl_clear l i s k b :
  (i < length l)%nat -> 0 <= s < 64 -> 0 <= b < 64 ->
  Z.testbit (entry (pl_clear l i s) k) b
  = negb (bool_decide (k = i) && (s =? b)) && Z.testbit (entry l k) b.
Proof.
  intros Hi Hs Hb. rewrite entry_pl_clear by exact Hi.
  destruct (decide (k = i)) as [->|Hne].
  - rewrite bool_decide_eq_true_2 by reflexivity. apply testbit_clear_bit_lt; assumption.
  - rewrite bool_decide_eq_false_2 by exact Hne. reflexivity.
Qed.

Lemma pl_set_range l i s :
  0 <= s < 64 -> (forall k, bb_range (entry l k)) ->
  forall k, bb_range (entry (pl_set l i s) k).
Proof.
  intros Hs Hl k. destruct (decide (i < length l)%nat) as [Hi|Hi].
  - rewrite entry_pl_set by exact Hi. destruct (decide (k = i)); [|apply Hl].
    apply set_bit_range; [exact Hs|apply Hl].
  - unfold pl_set. rewrite list_insert_ge by lia. apply Hl.
Qed.

Lemma pl_clear_range l i s :
  (forall k, bb_range (entry l k)) ->
  forall k, bb_range (entry (pl_clear l i s) k).
Proof.
  intros Hl k. destruct (decide (i < length l)%nat) as [Hi|Hi].
  - rewrite entry_pl_clear by exact Hi. destruct (decide (k = i)); [|apply Hl].
    apply clear_bit_range, Hl.
  - unfold pl_clear. rewrite list_insert_ge by lia. apply Hl.
Qed.

Lemma pieces_list_eq (l1 l2 : list Bitboard) :
  length l1 = length l2 ->
  (forall k, bb_range (entry l1 k)) -> (forall k, bb_range (entry l2 k)) ->
  (forall k b, 0 <= b < 64 -> Z.testbit (entry l1 k) b = Z.testbit (entry l2 k) b) ->
  l1 = l2.
Proof.
  intros Hlen H1 H2 Hbits. apply list_eq_entries; [exact Hlen|].
  intros k. apply bb_eq_of_bits; auto.
Qed.

Lemma cell_put (b : list Piece) s p q :
  length b = 64%nat -> 0 <= s < 64 -> 0 <= q < 64 ->
  cell (<[Z.to_nat s := p]> b) (Z.to_nat q) = if s =? q then p else cell b (Z.to_nat q).
Proof.
  intros Hlen Hs Hq. rewrite cell_insert by lia.
  destruct (s =? q) eqn:E.
  - apply Z.eqb_eq in E. subst. now rewrite decide_True by reflexivity.
  - apply Z.eqb_neq in E. rewrite decide_False by lia. reflexivity.
Qed.

Lemma board_list_eq (l1 l2 : list Piece) :
  length l1 = 64%nat -> length l2 = 64%nat ->
  (forall q, 0 <= q < 64 -> cell l1 (Z.to_nat q) = cell l2 (Z.to_nat q)) ->
  l1 = l2.
Proof.
  intros H1 H2 Hc. apply list_eq_cells; [congruence|].
  intros k. destruct (decide (k < 64)%nat) as [Hk|Hk].
  - specialize (Hc (Z.of_nat k) ltac:(lia)). now rewrite Nat2Z.id in Hc.
  - unfold cell. rewrite !lookup_ge_None_2 by lia. reflexivity.
Qed.

(** The arrays after the primitive updates. *)
Lemma pieces_of_set_bit c t s P :
  pieces_ (pieces_set_bit c t s P) = pl_set (pieces_ P) (pieces_index c t) s.
Proof. reflexivity. Qed.

Lemma pieces_of_clear_bit c t s P :
  pieces_ (pieces_clear_bit c t s P) = pl_clear (pieces_ P) (pieces_index c t) s.
Proof. reflexivity. Qed.

Lemma board_of_set_bit c t s P : board_ (pieces_set_bit c t s P) = board_ P.
Proof. reflexivity. Qed.

Lemma board_of_clear_bit c t s P : board_ (pieces_clear_bit c t s P) = board_ P.
Proof. reflexivity. Qed.

Lemma pieces_of_board_put s p P : pieces_ (board_put s p P) = pieces_ P.
Proof. reflexivity. Qed.

Lemma board_of_board_put s p P :
  board_ (board_put s p P) = <[Z.to_nat s := p]> (board_ P).
Proof. reflexivity. Qed.

Lemma pieces_of_halfmove n P : pieces_ (with_halfmove_clock n P) = pieces_ P.
Proof. reflexivity. Qed.

Lemma board_of_halfmove n P : board_ (with_halfmove_clock n P) = board_ P.
Proof. reflexivity. Qed.

Lemma piece_on_cell P s : piece_on P s = cell (board_ P) (Z.to_nat s).
Proof. reflexivity. Qed.

Ltac arrays :=
  repeat rewrite ?pieces_of_set_bit, ?pieces_of_clear_bit, ?board_of_set_bit,
    ?board_of_clear_bit, ?pieces_of_board_put, ?board_of_board_put,
    ?pieces_of_halfmove, ?board_of_halfmove.

Ltac arrays_in H :=
  repeat rewrite ?pieces_of_set_bit, ?pieces_of_clear_bit, ?board_of_set_bit,
    ?board_of_clear_bit, ?pieces_of_board_put, ?board_of_board_put,
    ?pieces_of_halfmove, ?board_of_halfmove in H.

(** What the mailbox and the bitboards of a valid position say of a
    pseudo-legal move. *)
Lemma bit_of_piece P c t sq :
  valid_facts P -> 0 <= sq < 64 -> real_color c -> real_type t ->
  Z.testbit (entry (pieces_ P) (pieces_index c t)) sq
  = bool_decide (cell (board_ P) (Z.to_nat sq) = make_piece c t).
Proof.
  intros V Hsq Hc Ht. pose proof (vf_sync P V sq c t Hsq Hc Ht) as H.
  rewrite pieces_entry in H. unfold piece_on in H. fold (cell (board_ P) (Z.to_nat sq)) in H.
  destruct (Z.testbit _ sq).
  - symmetry. apply bool_decide_eq_true_2. now apply H.
  - symmetry. apply bool_decide_eq_false_2. intros E. apply H in E. discriminate.
Qed.


(* ===================================================================== *)
(** * Round trips on the bitboard array and on the mailbox *)
(* ===================================================================== *)

Ltac pl_len :=
  repeat first [rewrite length_pl_set | rewrite length_pl_clear | rewrite length_insert];
  (assumption || lia).

Ltac pl_range :=
  repeat first [apply pl_set_range; [assumption|] | apply pl_clear_range]; assumption.

Ltac pl_bits :=
  repeat first
    [ rewrite bit_pl_set by first [assumption | pl_len]
    | rewrite bit_pl_clear by first [assumption | pl_len] ].

Ltac split_index :=
  repeat match goal with
    | |- context [bool_decide (?k = ?i)] =>
        destruct (decide (k = i));
        [ try subst k; rewrite ?bool_decide_eq_true_2 by reflexivity
        | rewrite (bool_decide_eq_false_2 (k = i)) by assumption ]
    end.

Ltac split_square :=
  repeat match goal with
    | |- context [?s =? ?q] => destruct (Z.eqb_spec s q); [try subst q|]
    end.

Ltac bits_done :=
  cbn [andb orb negb];
  try reflexivity; try congruence; try lia;
  repeat match goal with H : Z.testbit _ _ = _ |- _ => rewrite H end;
  try reflexivity; try congruence;
  match goal with |- context [Z.testbit ?x ?y] => destruct (Z.testbit x y) end;
  congruence.

Ltac pl_solve :=
  apply pieces_list_eq; [pl_len|pl_range|assumption|];
  let k := fresh "k" in let q := fresh "q" in let Hq := fresh "Hq" in
  intros k q Hq; pl_bits; split_index; split_square; bits_done.

Ltac board_solve :=
  apply board_list_eq; [pl_len|assumption|];
  let q := fresh "q" in let Hq := fresh "Hq" in
  intros q Hq; rewrite !cell_put by first [assumption | pl_len];
  split_square; try reflexivity; try congruence; try lia.

(** A move to an empty square and back: [i] leaves [f], [j] lands on [t]
    ([j] is [i] unless the move promotes). *)
Lemma quiet_pieces_round_trip (l : list Bitboard) (i j : nat) (f t : Square) :
  length l = 12%nat -> (forall k, bb_range (entry l k)) ->
  (i < 12)%nat -> (j < 12)%nat -> 0 <= f < 64 -> 0 <= t < 64 ->
  Z.testbit (entry l i) f = true -> Z.testbit (entry l j) t = false ->
  pl_set (pl_clear (pl_set (pl_clear l i f) j t) j t) i f = l.
Proof. intros Hlen Hrange Hi Hj Hf Ht H1 H2. pl_solve. Qed.

(** A capture and back: [i] leaves [f], [p] lands on [t], where [j] stood. *)
Lemma capture_pieces_round_trip (l : list Bitboard) (i j p : nat) (f t : Square) :
  length l = 12%nat -> (forall k, bb_range (entry l k)) ->
  (i < 12)%nat -> (j < 12)%nat -> (p < 12)%nat -> 0 <= f < 64 -> 0 <= t < 64 ->
  Z.testbit (entry l i) f = true -> Z.testbit (entry l j) t = true ->
  Z.testbit (entry l p) t = false ->
  pl_set (pl_set (pl_clear (pl_set (pl_clear (pl_clear l i f) j t) p t) p t) i f) j t = l.
Proof. intros Hlen Hrange Hi Hj Hp Hf Ht H1 H2 H3. pl_solve. Qed.

(** Castling and back: the king [i] from [f] to [t], the rook [j] from
    [g] to [h]. *)
Lemma castle_pieces_round_trip (l : list Bitboard) (i j : nat) (f t g h : Square) :
  length l = 12%nat -> (forall k, bb_range (entry l k)) ->
  (i < 12)%nat -> (j < 12)%nat ->
  0 <= f < 64 -> 0 <= t < 64 -> 0 <= g < 64 -> 0 <= h < 64 ->
  i <> j ->
  Z.testbit (entry l i) f = true -> Z.testbit (entry l i) t = false ->
  Z.testbit (entry l j) g = true -> Z.testbit (entry l j) h = false ->
  pl_set (pl_clear (pl_set (pl_clear
    (pl_set (pl_clear (pl_set (pl_clear l i f) i t) j g) j h) i t) i f) j h) j g = l.
Proof. intros Hlen Hrange Hi Hj Hf Ht Hg Hh Hij H1 H2 H3 H4. pl_solve. Qed.

(** An en-passant capture and back: the pawn [i] from [f] to [t], the
    enemy pawn [j] taken on [g]. *)
Lemma en_passant_pieces_round_trip (l : list Bitboard) (i j : nat) (f t g : Square) :
  length l = 12%nat -> (forall k, bb_range (entry l k)) ->
  (i < 12)%nat -> (j < 12)%nat -> 0 <= f < 64 -> 0 <= t < 64 -> 0 <= g < 64 ->
  i <> j ->
  Z.testbit (entry l i) f = true -> Z.testbit (entry l i) t = false ->
  Z.testbit (entry l j) g = true ->
  pl_set (pl_set (pl_clear (pl_clear (pl_set (pl_clear l i f) i t) j g) i t) i f) j g = l.
Proof. intros Hlen Hrange Hi Hj Hf Ht Hg Hij H1 H2 H3. pl_solve. Qed.

Lemma quiet_board_round_trip (b : list Piece) (f t : Square) (mp mp' : Piece) :
  length b = 64%nat -> 0 <= f < 64 -> 0 <= t < 64 ->
  cell b (Z.to_nat f) = mp -> cell b (Z.to_nat t) = Piece_None ->
  <[Z.to_nat f := mp]> (<[Z.to_nat t := Piece_None]>
    (<[Z.to_nat t := mp']> (<[Z.to_nat f := Piece_None]> b))) = b.
Proof. intros Hblen Hf Ht H1 H2. board_solve. Qed.

Lemma capture_board_round_trip (b : list Piece) (f t : Square) (mp mp' cap : Piece) :
  length b = 64%nat -> 0 <= f < 64 -> 0 <= t < 64 ->
  f <> t ->
  cell b (Z.to_nat f) = mp -> cell b (Z.to_nat t) = cap ->
  <[Z.to_nat t := cap]> (<[Z.to_nat f := mp]> (<[Z.to_nat t := Piece_None]>
    (<[Z.to_nat t := mp']> (<[Z.to_nat f := Piece_None]> b)))) = b.
Proof. intros Hblen Hf Ht Hne H1 H2. board_solve. Qed.

Lemma castle_board_round_trip (b : list Piece) (f t g h : Square) (king rook : Piece) :
  length b = 64%nat -> 0 <= f < 64 -> 0 <= t < 64 -> 0 <= g < 64 -> 0 <= h < 64 ->
  f <> t -> g <> h ->
  cell b (Z.to_nat f) = king -> cell b (Z.to_nat t) = Piece_None ->
  cell b (Z.to_nat g) = rook -> cell b (Z.to_nat h) = Piece_None ->
  <[Z.to_nat g := rook]> (<[Z.to_nat h := Piece_None]>
    (<[Z.to_nat f := king]> (<[Z.to_nat t := Piece_None]>
      (<[Z.to_nat h := rook]> (<[Z.to_nat g := Piece_None]>
        (<[Z.to_nat t := king]> (<[Z.to_nat f := Piece_None]> b))))))) = b.
Proof. intros Hblen Hf Ht Hg Hh Hft Hgh H1 H2 H3 H4. board_solve. Qed.

Lemma en_passant_board_round_trip (b : list Piece) (f t g : Square) (mp pawn : Piece) :
  length b = 64%nat -> 0 <= f < 64 -> 0 <= t < 64 -> 0 <= g < 64 ->
  cell b (Z.to_nat f) = mp -> cell b (Z.to_nat t) = Piece_None ->
  cell b (Z.to_nat g) = pawn ->
  <[Z.to_nat g := pawn]> (<[Z.to_nat f := mp]> (<[Z.to_nat t := Piece_None]>
    (<[Z.to_nat g := Piece_None]> (<[Z.to_nat t := mp]>
      (<[Z.to_nat f := Piece_None]> b))))) = b.
Proof. intros Hblen Hf Ht Hg H1 H2 H3. board_solve. Qed.


Section RoundTrip.
Variable P : Position.
Variable m : Move.
Hypothesis V : valid_facts P.
Hypothesis Hok : move_ok P m.

Let from := from_square m.
Let to := to_square m.
Let c := side_to_move_ P.
Let mp := piece_on P from.
Let cap := piece_on P to.
Let t := type_of mp.
Let l := pieces_ P.
Let b := board_ P.

Lemma rt_from : 0 <= from < 64.
Proof. apply Hok. Qed.

Lemma rt_to : 0 <= to < 64.
Proof. apply Hok. Qed.

Lemma rt_c : real_color c.
Proof. exact (vf_side P V). Qed.

Lemma rt_color : color_of mp = c.
Proof. apply Hok. Qed.

Lemma rt_mp : mp = make_piece c t /\ real_type t.
Proof. apply own_piece_real; [exact V|apply Hok]. Qed.

Lemma rt_len : length l = 12%nat.
Proof. exact (vf_pieces_length P V). Qed.

Lemma rt_blen : length b = 64%nat.
Proof. exact (vf_board_length P V). Qed.

Lemma rt_range : forall k, bb_range (entry l k).
Proof. exact (vf_range P V). Qed.

Lemma rt_idx c' t' : real_color c' -> real_type t' -> (pieces_index c' t' < length l)%nat.
Proof. intros. rewrite rt_len. now apply pieces_index_lt. Qed.

Lemma rt_from_bit : Z.testbit (entry l (pieces_index c t)) from = true.
Proof.
  unfold l. rewrite bit_of_piece; [|exact V|exact rt_from|exact rt_c|apply rt_mp].
  apply bool_decide_eq_true_2. apply rt_mp.
Qed.

Lemma rt_to_not_own : forall tp, not_own_at P to -> cell b (Z.to_nat to) <> make_piece c tp \/ ~ real_type tp.
Proof.
  intros tp Hno. destruct (decide (real_type tp)) as [Hr|Hr]; [left|right; exact Hr].
  intros E. apply Hno. rewrite piece_on_cell. fold b. rewrite E.
  apply make_piece_color_type; [exact rt_c|exact Hr].
Qed.

Lemma rt_cell_from : cell b (Z.to_nat from) = mp.
Proof. reflexivity. Qed.

Lemma rt_cell_to : cell b (Z.to_nat to) = cap.
Proof. reflexivity. Qed.

Lemma rt_i : (pieces_index c t < 12)%nat.
Proof. apply pieces_index_lt; [exact rt_c|apply rt_mp]. Qed.

(** No bitboard of the mover has the destination's bit when the
    destination does not hold one of the mover's pieces. *)
Lemma rt_to_bit tp :
  not_own_at P to -> real_type tp ->
  Z.testbit (entry l (pieces_index c tp)) to = false.
Proof.
  intros Hno Hr. unfold l.
  rewrite bit_of_piece; [|exact V|exact rt_to|exact rt_c|exact Hr].
  apply bool_decide_eq_false_2. intros E. apply Hno.
  rewrite piece_on_cell, E. apply make_piece_color_type; [exact rt_c|exact Hr].
Qed.

(** The captured piece, when there is one. *)
Lemma rt_captured :
  cap <> Piece_None ->
  real_color (color_of cap) /\ real_type (type_of cap)
  /\ (pieces_index (color_of cap) (type_of cap) < 12)%nat
  /\ Z.testbit (entry l (pieces_index (color_of cap) (type_of cap))) to = true.
Proof.
  intros Hne. destruct (piece_cases cap) as [E|[E|(Hc & Ht & E)]].
  - contradiction.
  - exfalso. exact (vf_not_nb P V to rt_to E).
  - split; [exact Hc|]. split; [exact Ht|]. split; [now apply pieces_index_lt|].
    unfold l. rewrite bit_of_piece; [|exact V|exact rt_to|exact Hc|exact Ht].
    apply bool_decide_eq_true_2. exact E.
Qed.

Lemma rt_from_to : not_own_at P to -> from <> to.
Proof.
  intros Hno E. apply Hno. fold to. rewrite <- E. exact rt_color.
Qed.

Lemma rt_switch_normal (mws : Move) (Q : Position) :
  move_type m = Normal \/ move_type m = Capture ->
  from_square mws = from -> to_square mws = to -> move_type mws = move_type m ->
  captured_piece mws = cap ->
  let R := make_move_switch m mp cap mws
             (board_put from Piece_None (pieces_clear_bit (color_of mp) t from P)) in
  pieces_ Q = pieces_ (fst R) -> board_ Q = board_ (fst R) ->
  let mp' := piece_on Q (to_square (snd R)) in
  pieces_ (undo_move_switch (snd R) mp' Q) = l
  /\ board_ (undo_move_switch (snd R) mp' Q) = b.
Proof.
  intros Hmt Hf Ht Hty Hcap R HQp HQb mp'.
  assert (Hno : not_own_at P to).
  { destruct Hok as (_ & _ & _ & H). destruct Hmt as [E|E]; rewrite E in H; exact H. }
  pose proof rt_from as Hfrom. pose proof rt_to as Hto.
  pose proof rt_len as Hlen. pose proof rt_blen as Hblen.
  pose proof rt_range as Hrange. pose proof rt_i as Hi.
  pose proof rt_from_bit as Hb1.
  pose proof (rt_to_bit t Hno (proj2 rt_mp)) as Hb2.
  assert (E2 : snd R = mws)
    by (unfold R, make_move_switch; destruct Hmt as [E|E]; rewrite E; reflexivity).
  assert (E3 : pieces_ Q = pl_set (if decide (cap <> Piece_None)
                                   then pl_clear (pl_clear l (pieces_index c t) from)
                                          (pieces_index (color_of cap) (type_of cap)) to
                                   else pl_clear l (pieces_index c t) from)
                             (pieces_index c t) to).
  { rewrite HQp. unfold R, make_move_switch. fold to. fold t. rewrite rt_color.
    destruct Hmt as [E|E]; rewrite E; cbn [fst]; repeat case_decide; arrays; reflexivity. }
  assert (E4 : board_ Q = <[Z.to_nat to := mp]> (<[Z.to_nat from := Piece_None]> b)).
  { rewrite HQb. unfold R, make_move_switch. fold to. fold t.
    destruct Hmt as [E|E]; rewrite E; cbn [fst]; repeat case_decide; arrays; reflexivity. }
  assert (Hmp' : mp' = mp).
  { unfold mp'. rewrite E2, Ht, piece_on_cell, E4, cell_put, Z.eqb_refl;
      [reflexivity|pl_len|exact Hto|exact Hto]. }
  rewrite Hmp'. clear Hmp' mp' HQp HQb.
  unfold undo_move_switch. rewrite E2, Hf, Ht, Hcap, Hty. fold t. rewrite rt_color.
  clear E2.
  assert (Goal :
    pieces_ (let P0 := board_put from mp (pieces_set_bit c t from
                         (board_put to Piece_None (pieces_clear_bit c t to Q))) in
             if decide (cap <> Piece_None)
             then board_put to cap (pieces_set_bit (color_of cap) (type_of cap) to P0)
             else P0) = l
    /\ board_ (let P0 := board_put from mp (pieces_set_bit c t from
                         (board_put to Piece_None (pieces_clear_bit c t to Q))) in
             if decide (cap <> Piece_None)
             then board_put to cap (pieces_set_bit (color_of cap) (type_of cap) to P0)
             else P0) = b).
  { cbv zeta. destruct (decide (cap <> Piece_None)) as [Hc|Hc].
    - destruct (rt_captured Hc) as (Hcc & Hct & Hj & Hb3).
      arrays. rewrite E3, E4. split.
      + apply capture_pieces_round_trip; assumption.
      + apply capture_board_round_trip; try assumption; try reflexivity.
        apply rt_from_to; exact Hno.
    - apply dec_stable in Hc. arrays. rewrite E3, E4. split.
      + apply quiet_pieces_round_trip; assumption.
      + apply quiet_board_round_trip; try assumption; try reflexivity. }
  destruct Hmt as [E|E]; rewrite E; exact Goal.
Qed.

Lemma rt_switch_promotion (mws : Move) (Q : Position) :
  move_type m = Promotion ->
  from_square mws = from -> to_square mws = to -> move_type mws = move_type m ->
  promotion_piece mws = promotion_piece m -> captured_piece mws = cap ->
  let R := make_move_switch m mp cap mws
             (board_put from Piece_None (pieces_clear_bit (color_of mp) t from P)) in
  pieces_ Q = pieces_ (fst R) -> board_ Q = board_ (fst R) ->
  let mp' := make_piece c Pawn in
  pieces_ (undo_move_switch (snd R) mp' Q) = l
  /\ board_ (undo_move_switch (snd R) mp' Q) = b.
Proof.
  intros Hmt Hf Ht Hty Hpp Hcap R HQp HQb mp'.
  destruct Hok as (_ & _ & _ & H). rewrite Hmt in H.
  destruct H as (Hpawn & Hno & tp & Etp & Hrt & Hnp).
  fold from in Hpawn. fold mp in Hpawn. fold t in Hpawn. fold c in Etp.
  pose proof rt_from as Hfrom. pose proof rt_to as Hto.
  pose proof rt_len as Hlen. pose proof rt_blen as Hblen.
  pose proof rt_range as Hrange. pose proof rt_i as Hi.
  pose proof rt_from_bit as Hb1.
  pose proof (rt_to_bit tp Hno Hrt) as Hb2.
  pose proof rt_c as Hc.
  assert (Hp : (pieces_index c tp < 12)%nat) by now apply pieces_index_lt.
  assert (Etype : type_of (promotion_piece m) = tp)
    by (rewrite Etp; now apply make_piece_color_type).
  assert (Emp : make_piece c Pawn = mp) by (rewrite <- Hpawn; symmetry; apply rt_mp).
  assert (Ecm : color_of mp' = c /\ type_of mp' = Pawn)
    by (apply make_piece_color_type; [exact Hc|discriminate]).
  destruct Ecm as [Ecm Etm].
  assert (E2 : snd R = mws) by (unfold R, make_move_switch; rewrite Hmt; reflexivity).
  assert (E3 : pieces_ Q = pl_set (if decide (cap <> Piece_None)
                                   then pl_clear (pl_clear l (pieces_index c t) from)
                                          (pieces_index (color_of cap) (type_of cap)) to
                                   else pl_clear l (pieces_index c t) from)
                             (pieces_index c tp) to).
  { rewrite HQp. unfold R, make_move_switch. fold to. fold t. rewrite rt_color, Hmt, Etype.
    cbn [fst]; repeat case_decide; arrays; reflexivity. }
  assert (E4 : board_ Q
               = <[Z.to_nat to := promotion_piece m]> (<[Z.to_nat from := Piece_None]> b)).
  { rewrite HQb. unfold R, make_move_switch. fold to. fold t. rewrite Hmt.
    cbn [fst]; repeat case_decide; arrays; reflexivity. }
  clear HQp HQb.
  unfold undo_move_switch. rewrite E2, Hf, Ht, Hcap, Hty, Hmt, Hpp, Etype, Ecm. clear E2.
  cbv zeta. rewrite Hpawn in *. destruct (decide (cap <> Piece_None)) as [Hcp|Hcp].
  - destruct (rt_captured Hcp) as (Hcc & Hct & Hj & Hb3).
    arrays. rewrite E3, E4, Emp. split.
    + apply capture_pieces_round_trip; assumption.
    + apply capture_board_round_trip; try assumption; try reflexivity.
      apply rt_from_to; exact Hno.
  - apply dec_stable in Hcp. arrays. rewrite E3, E4, Emp. split.
    + apply quiet_pieces_round_trip; assumption.
    + apply quiet_board_round_trip; try assumption; try reflexivity.
Qed.

Lemma rt_switch_en_passant (mws : Move) (Q : Position) :
  move_type m = EnPassant ->
  from_square mws = from -> to_square mws = to -> move_type mws = move_type m ->
  let R := make_move_switch m mp cap mws
             (board_put from Piece_None (pieces_clear_bit (color_of mp) t from P)) in
  pieces_ Q = pieces_ (fst R) -> board_ Q = board_ (fst R) ->
  let mp' := piece_on Q (to_square (snd R)) in
  pieces_ (undo_move_switch (snd R) mp' Q) = l
  /\ board_ (undo_move_switch (snd R) mp' Q) = b.
Proof.
  intros Hmt Hf Ht Hty R HQp HQb mp'.
  destruct Hok as (_ & _ & _ & H). rewrite Hmt in H. destruct H as (Hpawn & Hep).
  fold from in Hpawn. fold mp in Hpawn. fold t in Hpawn. fold to in Hep.
  pose proof rt_from as Hfrom. pose proof rt_to as Hto.
  pose proof rt_len as Hlen. pose proof rt_blen as Hblen.
  pose proof rt_range as Hrange. pose proof rt_i as Hi.
  pose proof rt_from_bit as Hb1. pose proof rt_c as Hc.
  set (g := if decide (c = White) then to - 8 else to + 8).
  set (enemy := opposite_color c).
  assert (Hfacts : 0 <= g < 64 /\ cap = Piece_None
                   /\ cell b (Z.to_nat g) = make_piece enemy Pawn).
  { pose proof (vf_en_passant P V) as H. unfold en_passant_ok in H.
    rewrite <- Hep in H. fold c in H. rewrite !piece_on_cell in H. fold b in H.
    unfold g, enemy, cap. rewrite piece_on_cell. fold b.
    apply orb_true_iff in H. destruct H as [H|H].
    - apply orb_true_iff in H. destruct H as [H|H].
      + apply Z.eqb_eq in H. unfold Square_None in H. lia.
      + repeat (apply andb_true_iff in H; destruct H as [H ?]).
        apply bool_decide_eq_true_1 in H. rewrite H.
        rewrite decide_True by reflexivity.
        repeat match goal with
               | X : bool_decide _ = true |- _ => apply bool_decide_eq_true_1 in X
               end.
        split; [lia|]. split; assumption.
    - repeat (apply andb_true_iff in H; destruct H as [H ?]).
      apply bool_decide_eq_true_1 in H. rewrite H.
      rewrite decide_False by discriminate.
      repeat match goal with
             | X : bool_decide _ = true |- _ => apply bool_decide_eq_true_1 in X
             end.
      split; [lia|]. split; assumption. }
  destruct Hfacts as (Hg & Hcap0 & Hcg).
  assert (Hno : not_own_at P to) by (apply not_own_of_empty; [exact V|exact Hcap0]).
  pose proof (rt_to_bit t Hno (proj2 rt_mp)) as Hb2.
  assert (He : (pieces_index enemy Pawn < 12)%nat)
    by (apply pieces_index_lt; [apply real_color_opposite|discriminate]).
  assert (Hb3 : Z.testbit (entry l (pieces_index enemy Pawn)) g = true).
  { unfold l. rewrite bit_of_piece;
      [|exact V|exact Hg|apply real_color_opposite|discriminate].
    apply bool_decide_eq_true_2. exact Hcg. }
  assert (Hie : pieces_index c t <> pieces_index enemy Pawn).
  { intros E. apply pieces_index_inj in E;
      [|exact Hc|apply rt_mp|apply real_color_opposite|discriminate].
    destruct E as [E _]. symmetry in E. revert E. apply opposite_color_neq. exact Hc. }
  assert (E2 : snd R = with_captured_piece (make_piece enemy Pawn) mws)
    by (unfold R, make_move_switch; rewrite Hmt, rt_color; reflexivity).
  assert (E3 : pieces_ Q = pl_clear (pl_set (pl_clear l (pieces_index c t) from)
                                       (pieces_index c t) to)
                             (pieces_index enemy Pawn) g).
  { rewrite HQp. unfold R, make_move_switch. fold to. fold t. rewrite rt_color, Hmt.
    cbn [fst]. arrays. reflexivity. }
  assert (E4 : board_ Q = <[Z.to_nat g := Piece_None]>
                            (<[Z.to_nat to := mp]> (<[Z.to_nat from := Piece_None]> b))).
  { rewrite HQb. unfold R, make_move_switch. fold to. fold t. rewrite rt_color, Hmt.
    cbn [fst]. arrays. reflexivity. }
  assert (Hgt : g <> to) by (unfold g; destruct (decide (c = White)); lia).
  assert (Hmp' : mp' = mp).
  { unfold mp'. rewrite E2. cbn [with_captured_piece to_square].
    rewrite Ht, piece_on_cell, E4, !cell_put by first [assumption|pl_len].
    rewrite Z.eqb_refl. destruct (Z.eqb_spec g to); [contradiction|reflexivity]. }
  rewrite Hmp'. clear Hmp' mp' HQp HQb.
  unfold undo_move_switch. rewrite E2.
  cbn [with_captured_piece from_square to_square move_type captured_piece].
  rewrite Hf, Ht, Hty, Hmt, rt_color. clear E2.
  cbv zeta. fold g. fold enemy. arrays. rewrite E3, E4.
  rewrite Hpawn in *. split.
  - apply en_passant_pieces_round_trip; assumption.
  - apply en_passant_board_round_trip; try assumption; try reflexivity.
Qed.

Lemma rt_switch_castle (mws : Move) (Q : Position) :
  move_type m = Castle ->
  from_square mws = from -> to_square mws = to -> move_type mws = move_type m ->
  let R := make_move_switch m mp cap mws
             (board_put from Piece_None (pieces_clear_bit (color_of mp) t from P)) in
  pieces_ Q = pieces_ (fst R) -> board_ Q = board_ (fst R) ->
  let mp' := piece_on Q (to_square (snd R)) in
  pieces_ (undo_move_switch (snd R) mp' Q) = l
  /\ board_ (undo_move_switch (snd R) mp' Q) = b.
Proof.
  intros Hmt Hf Ht Hty R HQp HQb mp'.
  destruct Hok as (_ & _ & _ & H). rewrite Hmt in H.
  destruct H as (Hsq & Hking & Hrook & Hto0 & Hrt0).
  fold from in Hsq, Hking. fold to in Hsq, Hrook, Hto0, Hrt0. fold c in Hsq, Hking, Hrook.
  fold mp in Hking.
  pose proof rt_from as Hfrom. pose proof rt_to as Hto.
  pose proof rt_len as Hlen. pose proof rt_blen as Hblen.
  pose proof rt_range as Hrange. pose proof rt_i as Hi.
  pose proof rt_from_bit as Hb1. pose proof rt_c as Hc.
  assert (Htk : t = King).
  { unfold t. rewrite Hking. apply make_piece_color_type; [exact Hc|discriminate]. }
  set (g := fst (castle_rook_squares to)) in *.
  set (h := snd (castle_rook_squares to)) in *.
  assert (Egh : castle_rook_squares to = (g, h)) by (unfold g, h; now destruct (castle_rook_squares to)).
  assert (Hsquares : 0 <= g < 64 /\ 0 <= h < 64 /\ g <> h
                     /\ g <> from /\ g <> to /\ h <> from /\ h <> to /\ from <> to).
  { unfold g, h.
    destruct Hsq as [(_ & -> & [-> | ->])|(_ & -> & [-> | ->])]; vm_compute;
      repeat split; congruence. }
  destruct Hsquares as (Hg & Hh & Hgh & Hgf & Hgt & Hhf & Hht & Hft).
  assert (Hno : not_own_at P to) by (apply not_own_of_empty; [exact V|exact Hto0]).
  pose proof (rt_to_bit t Hno (proj2 rt_mp)) as Hb2.
  assert (Hr : (pieces_index c Rook < 12)%nat)
    by (apply pieces_index_lt; [exact Hc|discriminate]).
  assert (Hb3 : Z.testbit (entry l (pieces_index c Rook)) g = true).
  { unfold l. rewrite bit_of_piece; [|exact V|exact Hg|exact Hc|discriminate].
    apply bool_decide_eq_true_2. exact Hrook. }
  assert (Hb4 : Z.testbit (entry l (pieces_index c Rook)) h = false).
  { unfold l. rewrite bit_of_piece; [|exact V|exact Hh|exact Hc|discriminate].
    apply bool_decide_eq_false_2. rewrite <- piece_on_cell, Hrt0.
    intros E. symmetry in E. revert E. apply make_piece_real; [exact Hc|discriminate]. }
  assert (Hkr : pieces_index c t <> pieces_index c Rook).
  { rewrite Htk. intros E. apply pieces_index_inj in E;
      [|exact Hc|discriminate|exact Hc|discriminate].
    destruct E as [_ E]. discriminate. }
  set (rook := make_piece c Rook) in *.
  assert (E2 : snd R = mws).
  { unfold R, make_move_switch. rewrite Hmt. fold to. rewrite Egh. reflexivity. }
  assert (E3 : pieces_ Q = pl_set (pl_clear (pl_set (pl_clear l (pieces_index c t) from)
                                               (pieces_index c t) to)
                                     (pieces_index c Rook) g)
                             (pieces_index c Rook) h).
  { rewrite HQp. unfold R, make_move_switch. fold to. fold t. rewrite rt_color, Hmt, Egh, Htk.
    cbn [fst]. arrays. reflexivity. }
  assert (E4 : board_ Q = <[Z.to_nat h := rook]> (<[Z.to_nat g := Piece_None]>
                            (<[Z.to_nat to := mp]> (<[Z.to_nat from := Piece_None]> b)))).
  { rewrite HQb. unfold R, make_move_switch. fold to. fold t. rewrite rt_color, Hmt, Egh.
    cbn [fst]. arrays. rewrite piece_on_cell. arrays.
    rewrite !cell_put by first [assumption|pl_len].
    destruct (Z.eqb_spec to g); [congruence|].
    destruct (Z.eqb_spec from g); [congruence|].
    rewrite <- piece_on_cell, Hrook. reflexivity. }
  assert (Hmp' : mp' = mp).
  { unfold mp'. rewrite E2, Ht, piece_on_cell, E4, !cell_put by first [assumption|pl_len].
    destruct (Z.eqb_spec h to); [congruence|].
    destruct (Z.eqb_spec g to); [congruence|].
    now rewrite Z.eqb_refl. }
  rewrite Hmp'. clear Hmp' mp' HQp HQb.
  unfold undo_move_switch. rewrite E2, Hf, Ht, Hty, Hmt, rt_color, Egh. clear E2.
  cbv zeta. arrays. rewrite piece_on_cell. arrays. rewrite E3, E4.
  rewrite !cell_put by first [assumption|pl_len].
  destruct (Z.eqb_spec from h); [congruence|].
  destruct (Z.eqb_spec to h); [congruence|].
  rewrite Z.eqb_refl. rewrite Htk in *. split.
  - apply castle_pieces_round_trip; assumption.
  - apply castle_board_round_trip; try assumption; try reflexivity.
Qed.

End RoundTrip.

(* ===================================================================== *)
(** * The blocks of make_move and undo_move that leave the board alone *)
(* ===================================================================== *)

Lemma keeps_board_refl A : keeps_board A A.
Proof. repeat split. Qed.

Lemma keeps_board_trans A B C : keeps_board A B -> keeps_board B C -> keeps_board A C.
Proof.
  intros (H1 & H2 & H3 & H4 & H5) (G1_ & G2_ & G3_ & G4_ & G5_).
  unfold keeps_board. rewrite H1, H2, H3, H4, H5. auto.
Qed.

Lemma clear_castling_right_keeps (cond : bool) right P :
  keeps_board (if cond then clear_castling_right right P else P) P.
Proof. destruct cond; repeat split. Qed.

Lemma castling_rights_keeps type color from to P :
  keeps_board (make_move_castling_rights type color from to P) P.
Proof.
  unfold make_move_castling_rights.
  repeat (eapply keeps_board_trans; [apply clear_castling_right_keeps|]).
  destruct (decide (type = King)); [destruct (decide (color = White))|]; repeat split.
Qed.

Lemma en_passant_keeps type color from to P :
  keeps_board (make_move_en_passant type color from to P) P.
Proof.
  unfold make_move_en_passant.
  destruct (decide (type = Pawn)); [|repeat split].
  destruct (Z.abs _ =? 2); [|repeat split].
  destruct (decide (color = White)); repeat split.
Qed.

Lemma make_switch_keeps move moving_piece captured mws P :
  keeps_state (fst (make_move_switch move moving_piece captured mws P)) P.
Proof.
  unfold make_move_switch.
  destruct (move_type move); cbn [fst]; repeat case_decide;
    try destruct (castle_rook_squares (to_square move)); repeat split.
Qed.

Lemma undo_switch_keeps move moving_piece P :
  keeps_state (undo_move_switch move moving_piece P) P
  /\ halfmove_clock_ (undo_move_switch move moving_piece P) = halfmove_clock_ P.
Proof.
  unfold undo_move_switch.
  destruct (move_type move); repeat case_decide;
    try destruct (castle_rook_squares (to_square move)); repeat split.
Qed.

(** The record [make_move] pushes: the move, what stood on its
    destination (the enemy pawn for an en-passant capture), and the
    state before the move. *)
Lemma make_switch_record move moving_piece captured mws P :
  let mv := snd (make_move_switch move moving_piece captured mws P) in
  from_square mv = from_square mws /\ to_square mv = to_square mws
  /\ move_type mv = move_type mws /\ promotion_piece mv = promotion_piece mws
  /\ previous_castling_rights mv = previous_castling_rights mws
  /\ previous_en_passant_square mv = previous_en_passant_square mws
  /\ previous_halfmove_clock mv = previous_halfmove_clock mws.
Proof.
  unfold make_move_switch.
  destruct (move_type move); cbn [snd]; repeat case_decide;
    try destruct (castle_rook_squares (to_square move)); repeat split.
Qed.

Lemma hash_position_ext A B :
  board_ A = board_ B -> castling_rights_ A = castling_rights_ B ->
  en_passant_square_ A = en_passant_square_ B -> side_to_move_ A = side_to_move_ B ->
  hash_position A = hash_position B.
Proof.
  intros H1 H2 H3 H4.
  unfold hash_position, piece_on, castling_rights, en_passant_square, side_to_move.
  rewrite H1, H2, H3, H4. reflexivity.
Qed.

Lemma update_bitboards_ext A B :
  pieces_ A = pieces_ B ->
  occupied_by_color_ (update_bitboards A) = occupied_by_color_ (update_bitboards B)
  /\ occupied_ (update_bitboards A) = occupied_ (update_bitboards B).
Proof.
  intros H. unfold update_bitboards, pieces.
  cbn [with_occupancy occupied_by_color_ occupied_]. rewrite H. split; reflexivity.
Qed.

Lemma Position_ext A B :
  pieces_ A = pieces_ B -> occupied_by_color_ A = occupied_by_color_ B ->
  occupied_ A = occupied_ B -> board_ A = board_ B ->
  side_to_move_ A = side_to_move_ B -> castling_rights_ A = castling_rights_ B ->
  en_passant_square_ A = en_passant_square_ B ->
  halfmove_clock_ A = halfmove_clock_ B -> fullmove_number_ A = fullmove_number_ B ->
  move_history_ A = move_history_ B -> hash_key_ A = hash_key_ B ->
  A = B.
Proof. destruct A, B. cbn. intros. subst. reflexivity. Qed.

(** The end of [undo_move] brings back a valid position from its arrays
    and scalar fields. *)
Lemma undo_finish_restores P U h :
  valid_facts P ->
  pieces_ U = pieces_ P -> board_ U = board_ P ->
  side_to_move_ U = side_to_move_ P -> castling_rights_ U = castling_rights_ P ->
  en_passant_square_ U = en_passant_square_ P ->
  halfmove_clock_ U = halfmove_clock_ P -> fullmove_number_ U = fullmove_number_ P ->
  h = move_history_ P ->
  with_hash_key (hash_position (with_move_history h (update_bitboards U)))
    (with_move_history h (update_bitboards U)) = P.
Proof.
  intros V Hp Hb Hs Hc He Hh Hf Hm.
  destruct (update_bitboards_ext U P Hp) as [Ho1 Ho2].
  rewrite (vf_aggregates P V) in Ho1, Ho2.
  apply Position_ext; try assumption.
  - rewrite (vf_hash P V). cbn [with_hash_key hash_key_].
    apply hash_position_ext; assumption.
Qed.

Lemma make_finish_fields mv X :
  let Q := make_move_finish mv X in
  pieces_ Q = pieces_ X /\ board_ Q = board_ X
  /\ side_to_move_ Q = opposite_color (side_to_move_ X)
  /\ fullmove_number_ Q
     = (if decide (opposite_color (side_to_move_ X) = White)
        then fullmove_number_ X + 1 else fullmove_number_ X)
  /\ move_history_ Q = move_history_ X ++ [mv].
Proof.
  unfold make_move_finish. cbv zeta.
  cbn [with_side_to_move side_to_move_ update_bitboards with_occupancy].
  destruct (decide (opposite_color (side_to_move_ X) = White)); repeat split.
Qed.

Lemma fullmove_round_trip (c : Color) (n : Z) :
  real_color c ->
  (if decide (opposite_color (opposite_color c) = Black)
   then (if decide (opposite_color c = White) then n + 1 else n) - 1
   else (if decide (opposite_color c = White) then n + 1 else n)) = n.
Proof. intros [-> | ->]; cbn [opposite_color]; repeat case_decide; try congruence; lia. Qed.

(** The two [switch] statements undo each other on the arrays. *)
Lemma switch_round_trip P m mws Q :
  valid_facts P -> move_ok P m ->
  from_square mws = from_square m -> to_square mws = to_square m ->
  move_type mws = move_type m -> promotion_piece mws = promotion_piece m ->
  captured_piece mws = piece_on P (to_square m) ->
  let R := make_move_switch m (piece_on P (from_square m)) (piece_on P (to_square m)) mws
             (board_put (from_square m) Piece_None
                (pieces_clear_bit (color_of (piece_on P (from_square m)))
                   (type_of (piece_on P (from_square m))) (from_square m) P)) in
  pieces_ Q = pieces_ (fst R) -> board_ Q = board_ (fst R) ->
  side_to_move_ Q = side_to_move_ P ->
  let mp' := if decide (move_type (snd R) = Promotion)
             then make_piece (side_to_move_ Q) Pawn
             else piece_on Q (to_square (snd R)) in
  pieces_ (undo_move_switch (snd R) mp' Q) = pieces_ P
  /\ board_ (undo_move_switch (snd R) mp' Q) = board_ P.
Proof.
  intros V Hok Hf Ht Hty Hpp Hcap R HQp HQb HQs mp'.
  assert (Hmv : move_type (snd R) = move_type m).
  { destruct (make_switch_record m (piece_on P (from_square m)) (piece_on P (to_square m)) mws
                (board_put (from_square m) Piece_None
                   (pieces_clear_bit (color_of (piece_on P (from_square m)))
                      (type_of (piece_on P (from_square m))) (from_square m) P)))
      as (_ & _ & H & _).
    fold R in H. congruence. }
  unfold mp'. rewrite Hmv, HQs.
  destruct (move_type m) eqn:E.
  - rewrite decide_False by discriminate.
    apply (rt_switch_normal P m V Hok mws Q); auto; congruence.
  - rewrite decide_False by discriminate.
    apply (rt_switch_normal P m V Hok mws Q); auto; congruence.
  - rewrite decide_False by discriminate.
    apply (rt_switch_castle P m V Hok mws Q); auto; congruence.
  - rewrite decide_False by discriminate.
    apply (rt_switch_en_passant P m V Hok mws Q); auto; congruence.
  - rewrite decide_True by reflexivity.
    apply (rt_switch_promotion P m V Hok mws Q); auto; congruence.
  - destruct Hok as (_ & _ & _ & H). rewrite E in H. contradiction.
Qed.

(** What [make_move] leaves in the fields that [undo_move] reads. *)
Lemma make_move_fields P m :
  let R := make_move_switch m (piece_on P (from_square m)) (piece_on P (to_square m))
             (with_captured_piece (piece_on P (to_square m))
                (mkMove (from_square m) (to_square m) (move_type m) (promotion_piece m)
                   (captured_piece m) (castling_rights_ P) (en_passant_square_ P)
                   (halfmove_clock_ P)))
             (board_put (from_square m) Piece_None
                (pieces_clear_bit (color_of (piece_on P (from_square m)))
                   (type_of (piece_on P (from_square m))) (from_square m) P)) in
  let Q := make_move m P in
  pieces_ Q = pieces_ (fst R) /\ board_ Q = board_ (fst R)
  /\ side_to_move_ Q = opposite_color (side_to_move_ P)
  /\ fullmove_number_ Q
     = (if decide (opposite_color (side_to_move_ P) = White)
        then fullmove_number_ P + 1 else fullmove_number_ P)
  /\ move_history_ Q = move_history_ P ++ [snd R].
Proof.
  intros R Q. unfold Q, make_move. fold R.
  pose proof (make_switch_keeps m (piece_on P (from_square m)) (piece_on P (to_square m))
                (with_captured_piece (piece_on P (to_square m))
                   (mkMove (from_square m) (to_square m) (move_type m) (promotion_piece m)
                      (captured_piece m) (castling_rights_ P) (en_passant_square_ P)
                      (halfmove_clock_ P)))
                (board_put (from_square m) Piece_None
                   (pieces_clear_bit (color_of (piece_on P (from_square m)))
                      (type_of (piece_on P (from_square m))) (from_square m) P))) as Hks.
  fold R in Hks. destruct R as [P2 mv]. cbn [fst snd] in *.
  destruct Hks as (Hs1 & Hs2 & Hs3 & Hs4 & Hs5).
  match goal with
  | |- context [make_move_finish mv ?X] =>
      assert (Hkb : keeps_board X P2)
        by (eapply keeps_board_trans; [apply en_passant_keeps|apply castling_rights_keeps]);
      destruct (make_finish_fields mv X) as (Hq1 & Hq2 & Hq3 & Hq4 & Hq5);
      generalize dependent (make_move_finish mv X); generalize dependent X
  end.
  intros X (Hk1 & Hk2 & Hk3 & Hk4 & Hk5) Q' Hq1 Hq2 Hq3 Hq4 Hq5.
  rewrite Hq1, Hq2, Hq3, Hq4, Hq5, Hk1, Hk2, Hk3, Hk4, Hk5, Hs1, Hs4, Hs5.
  cbn [side_to_move_ fullmove_number_ move_history_ board_put pieces_clear_bit
       with_board with_pieces].
  repeat split.
Qed.

(** [undo_move] on a position whose last record is [mv], when the
    [switch] brings the arrays of [P] back. *)
Lemma undo_move_restores P Q mv :
  valid_facts P ->
  move_history_ Q = move_history_ P ++ [mv] ->
  side_to_move_ Q = opposite_color (side_to_move_ P) ->
  fullmove_number_ Q
    = (if decide (opposite_color (side_to_move_ P) = White)
       then fullmove_number_ P + 1 else fullmove_number_ P) ->
  previous_castling_rights mv = castling_rights_ P ->
  previous_en_passant_square mv = en_passant_square_ P ->
  previous_halfmove_clock mv = halfmove_clock_ P ->
  (forall Q3, pieces_ Q3 = pieces_ Q -> board_ Q3 = board_ Q ->
              side_to_move_ Q3 = side_to_move_ P ->
              let mp' := if decide (move_type mv = Promotion)
                         then make_piece (side_to_move_ Q3) Pawn
                         else piece_on Q3 (to_square mv) in
              pieces_ (undo_move_switch mv mp' Q3) = pieces_ P
              /\ board_ (undo_move_switch mv mp' Q3) = board_ P) ->
  undo_move Q = P.
Proof.
  intros V Hhist Hside Hfm Hr5 Hr6 Hr7 Hsw.
  pose proof (vf_side P V) as Hreal.
  pose proof (fullmove_round_trip (side_to_move_ P) (fullmove_number_ P) Hreal) as Hfmr.
  pose proof (opposite_color_involutive (side_to_move_ P) Hreal) as Hinv.
  unfold undo_move. rewrite Hhist, last_snoc. cbv zeta.
  match goal with
  | |- context [undo_move_switch mv ?mp' ?X] =>
      assert (HQ3 : pieces_ X = pieces_ Q /\ board_ X = board_ Q
                /\ side_to_move_ X = side_to_move_ P
                /\ castling_rights_ X = castling_rights_ P
                /\ en_passant_square_ X = en_passant_square_ P
                /\ halfmove_clock_ X = halfmove_clock_ P
                /\ fullmove_number_ X = fullmove_number_ P
                /\ move_history_ X = move_history_ P ++ [mv]);
      [|generalize dependent X]
  end.
  { cbn [with_side_to_move side_to_move_ fullmove_number_].
    rewrite Hside, Hfm.
    destruct (decide (opposite_color (opposite_color (side_to_move_ P)) = Black));
      cbn [with_halfmove_clock with_en_passant_square with_castling_rights
           with_side_to_move with_fullmove_number side_to_move_ pieces_ board_
           castling_rights_ en_passant_square_ halfmove_clock_ fullmove_number_
           move_history_];
      rewrite ?Hfm;
      (split; [reflexivity|]); (split; [reflexivity|]); (split; [exact Hinv|]);
      (split; [exact Hr5|]); (split; [exact Hr6|]); (split; [exact Hr7|]);
      (split; [exact Hfmr|exact Hhist]). }
  intros Q3 (G1_ & G2_ & G3_ & G4_ & G5_ & G6_ & G7_ & G8_).
  specialize (Hsw Q3 G1_ G2_ G3_). cbv zeta in Hsw. destruct Hsw as [Hp Hb].
  match goal with
  | |- context [undo_move_switch mv ?mp' Q3] =>
      destruct (undo_switch_keeps mv mp' Q3) as ((Hu1 & Hu2 & Hu3 & Hu4 & Hu5) & Hu6)
  end.
  apply undo_finish_restores.
  - exact V.
  - exact Hp.
  - exact Hb.
  - rewrite Hu1. exact G3_.
  - rewrite Hu2. exact G4_.
  - rewrite Hu3. exact G5_.
  - rewrite Hu6. exact G6_.
  - rewrite Hu4. exact G7_.
  - cbn [update_bitboards with_occupancy move_history_].
    rewrite Hu5, G8_. apply removelast_last.
Qed.

(** [undo_move] after [make_move] gives the position back, for a
    pseudo-legal move of a valid position. *)
Lemma make_undo_identity P m :
  valid_facts P -> move_ok P m -> undo_move (make_move m P) = P.
Proof.
  intros V Hok.
  destruct (make_move_fields P m) as (Hq1 & Hq2 & Hq3 & Hq4 & Hq5).
  pose proof (switch_round_trip P m
                (with_captured_piece (piece_on P (to_square m))
                   (mkMove (from_square m) (to_square m) (move_type m) (promotion_piece m)
                      (captured_piece m) (castling_rights_ P) (en_passant_square_ P)
                      (halfmove_clock_ P)))) as Hsw.
  pose proof (make_switch_record m (piece_on P (from_square m)) (piece_on P (to_square m))
                (with_captured_piece (piece_on P (to_square m))
                   (mkMove (from_square m) (to_square m) (move_type m) (promotion_piece m)
                      (captured_piece m) (castling_rights_ P) (en_passant_square_ P)
                      (halfmove_clock_ P)))
                (board_put (from_square m) Piece_None
                   (pieces_clear_bit (color_of (piece_on P (from_square m)))
                      (type_of (piece_on P (from_square m))) (from_square m) P))) as Hrec.
  cbv zeta in Hsw, Hrec.
  destruct Hrec as (_ & _ & _ & _ & Hr5 & Hr6 & Hr7).
  generalize dependent (make_move m P). intros Q Hq1 Hq2 Hq3 Hq4 Hq5.
  eapply undo_move_restores.
  - exact V.
  - exact Hq5.
  - exact Hq3.
  - exact Hq4.
  - exact Hr5.
  - exact Hr6.
  - exact Hr7.
  - intros Q3 G1_ G2_ G3_.
    apply Hsw; try assumption; try reflexivity; congruence.
Qed.


(* ===================================================================== *)
(** * make_move followed by undo_move *)
(* ===================================================================== *)

(** C1. For a position that satisfies the invariants of the data model
    and a move [m] of its legal-move list, [make_move m] followed by
    [undo_move] gives back the same position: the mailbox, the twelve
    piece bitboards, the occupancy aggregates, the side to move, the
    castling rights, the en-passant square, both clocks, the hash key and
    the FEN string are those of [P] (and so is the history). *)
Theorem make_undo_round_trip (P : Position) (m : Move) :
  valid_position P = true ->
  In m (generate_legal_moves P) ->
  let P' := undo_move (make_move m P) in
  P' = P
  /\ board_ P' = board_ P
  /\ pieces_ P' = pieces_ P
  /\ occupied_by_color_ P' = occupied_by_color_ P
  /\ occupied P' = occupied P
  /\ side_to_move P' = side_to_move P
  /\ castling_rights P' = castling_rights P
  /\ en_passant_square P' = en_passant_square P
  /\ halfmove_clock P' = halfmove_clock P
  /\ fullmove_number P' = fullmove_number P
  /\ hash_key P' = hash_key P
  /\ to_fen P' = to_fen P.
Proof.
  intros Hvalid Hin P'.
  assert (E : P' = P).
  { apply make_undo_identity.
    - apply valid_position_facts. exact Hvalid.
    - apply legal_move_ok; [apply valid_position_facts; exact Hvalid|exact Hin]. }
  rewrite E. repeat split.
Qed.

Lemma make_undo_round_trip_witness :
  let P' := undo_move (make_move move_e2e4 Position_new) in
  P' = Position_new
  /\ board_ P' = board_ Position_new
  /\ pieces_ P' = pieces_ Position_new
  /\ occupied_by_color_ P' = occupied_by_color_ Position_new
  /\ occupied P' = occupied Position_new
  /\ side_to_move P' = side_to_move Position_new
  /\ castling_rights P' = castling_rights Position_new
  /\ en_passant_square P' = en_passant_square Position_new
  /\ halfmove_clock P' = halfmove_clock Position_new
  /\ fullmove_number P' = fullmove_number Position_new
  /\ hash_key P' = hash_key Position_new
  /\ to_fen P' = to_fen Position_new.
Proof.
  apply (make_undo_round_trip Position_new move_e2e4).
  - vm_compute. reflexivity.
  - vm_compute. do 9 right. left. reflexivity.
Defined.


(* ===================================================================== *)
(** * Castling moves in the pseudo-legal list *)
(* ===================================================================== *)

Lemma in_snoc {A} (x y : A) l : In x (l ++ [y]) <-> In x l \/ x = y.
Proof.
  rewrite in_app_iff. cbn [In]. intuition.
Qed.

Lemma castling_block_In P right between crossed enemy rook_sq rook king_from king_to moves m :
  In m (castling_block P right between crossed enemy rook_sq rook king_from king_to moves)
  <-> In m moves
      \/ (m = Move_new king_from king_to Castle Piece_None
          /\ has_castling_right (castling_rights_ P) right = true
          /\ forallb (fun sq => negb (is_bit_set (occupied P) sq)) between = true
          /\ forallb (fun sq => negb (is_square_attacked P sq enemy)) crossed = true
          /\ piece_on P rook_sq = rook).
Proof.
  unfold castling_block, castling_rights.
  destruct (has_castling_right _ _); [|intuition discriminate].
  destruct (forallb _ between); [|intuition discriminate].
  destruct (forallb _ crossed); [|intuition discriminate].
  destruct (decide _) as [Er|Er]; [|intuition].
  rewrite in_snoc. intuition.
Qed.

Lemma between_empty_iff P between :
  valid_facts P -> Forall (fun sq => 0 <= sq < 64) between ->
  forallb (fun sq => negb (is_bit_set (occupied P) sq)) between = true
  <-> forall sq, In sq between -> piece_on P sq = Piece_None.
Proof.
  intros V Hr. rewrite forallb_forall. rewrite List.Forall_forall in Hr.
  split; intros H sq Hin.
  - apply empty_of_clear; auto.
  - rewrite is_bit_set_spec by auto. apply negb_true_iff.
    destruct (Z.testbit (occupied P) sq) eqn:E; [|reflexivity].
    apply occupied_iff in E; [|exact V|auto]. exfalso. apply E. auto.
Qed.

Lemma crossed_safe_iff P enemy crossed :
  forallb (fun sq => negb (is_square_attacked P sq enemy)) crossed = true
  <-> forall sq, In sq crossed -> is_square_attacked P sq enemy = false.
Proof.
  rewrite forallb_forall. split; intros H sq Hin.
  - apply negb_true_iff. auto.
  - apply negb_true_iff. auto.
Qed.

(** One block of the generator against the conditions of the claim. *)
Lemma castling_block_conditions P color enemy rook right between crossed rook_sq
    king_from king_to moves m :
  valid_facts P -> side_to_move_ P = color -> real_color color ->
  enemy = opposite_color color -> rook = make_piece color Rook ->
  is_in_check P = false -> king_square P color = king_from ->
  Forall (fun sq => 0 <= sq < 64) between ->
  In m (castling_block P right between crossed enemy rook_sq rook king_from king_to moves)
  <-> In m moves
      \/ (m = Move_new king_from king_to Castle Piece_None
          /\ castle_conditions P color right king_from rook_sq between crossed).
Proof.
  intros V Hside Hc -> -> Hchk Hking Hr.
  rewrite castling_block_In, (between_empty_iff P between V Hr), crossed_safe_iff.
  unfold castle_conditions. intuition.
Qed.

Lemma generate_castling_moves_In P moves m :
  valid_facts P ->
  In m (generate_castling_moves P moves (side_to_move_ P))
  <-> In m moves \/ castling_allowed P m.
Proof.
  intros V. unfold generate_castling_moves, castling_allowed.
  assert (Hnot : forall c r kf rs bt cr,
             is_in_check P = true \/ side_to_move_ P <> c \/ king_square P c <> kf ->
             ~ castle_conditions P c r kf rs bt cr).
  { intros c r kf rs bt cr H (H1 & H2 & H3 & _). destruct H as [H|[H|H]]; congruence. }
  destruct (is_in_check P) eqn:Echk.
  { split; [auto|]. intros [H|[[_ H]|[[_ H]|[[_ H]|[_ H]]]]]; [exact H| | | |];
      exfalso; revert H; apply Hnot; auto. }
  destruct (decide (side_to_move_ P = White)) as [Ew|Enw].
  - rewrite Ew. rewrite (bool_decide_eq_true_2 (White = White)) by reflexivity.
    rewrite (bool_decide_eq_false_2 (White = Black)) by discriminate.
    cbn [andb orb].
    destruct (king_square P White =? E1) eqn:Ek; cbn [negb andb orb].
    + apply Z.eqb_eq in Ek.
      rewrite (castling_block_conditions P White Black WhiteRook White_OOO [D1; C1; B1] [D1; C1] A1 E1 C1);
        try assumption; try reflexivity; try (left; reflexivity);
        [|repeat constructor; vm_compute; intuition congruence].
      rewrite (castling_block_conditions P White Black WhiteRook White_OO [F1; G1] [F1; G1] H1 E1 G1);
        try assumption; try reflexivity; try (left; reflexivity);
        [|repeat constructor; vm_compute; intuition congruence].
      split; [tauto|].
      intros [H|[H|[H|[[_ H]|[_ H]]]]]; try tauto;
        exfalso; revert H; apply Hnot; right; left; rewrite Ew; discriminate.
    + apply Z.eqb_neq in Ek. split; [auto|].
      intros [H|[[_ H]|[[_ H]|[[_ H]|[_ H]]]]]; [exact H| | | |];
        exfalso; revert H; apply Hnot;
        first [right; right; exact Ek | right; left; rewrite Ew; discriminate].
  - assert (Eb : side_to_move_ P = Black)
      by (destruct (vf_side P V); [contradiction|assumption]).
    rewrite Eb. rewrite (bool_decide_eq_false_2 (Black = White)) by discriminate.
    rewrite (bool_decide_eq_true_2 (Black = Black)) by reflexivity.
    cbn [andb orb].
    destruct (king_square P Black =? E8) eqn:Ek; cbn [negb andb orb];
      rewrite ?decide_False by discriminate.
    + apply Z.eqb_eq in Ek.
      rewrite (castling_block_conditions P Black White BlackRook Black_OOO [D8; C8; B8] [D8; C8] A8 E8 C8);
        try assumption; try reflexivity; try (right; reflexivity);
        [|repeat constructor; vm_compute; intuition congruence].
      rewrite (castling_block_conditions P Black White BlackRook Black_OO [F8; G8] [F8; G8] H8 E8 G8);
        try assumption; try reflexivity; try (right; reflexivity);
        [|repeat constructor; vm_compute; intuition congruence].
      split; [tauto|].
      intros [H|[[_ H]|[[_ H]|[H|H]]]]; try tauto;
        exfalso; revert H; apply Hnot; right; left; rewrite Eb; discriminate.
    + apply Z.eqb_neq in Ek. split; [auto|].
      intros [H|[[_ H]|[[_ H]|[[_ H]|[_ H]]]]]; [exact H| | | |];
        exfalso; revert H; apply Hnot;
        first [right; right; exact Ek | right; left; rewrite Eb; discriminate].
Qed.

(** A castling move is in the pseudo-legal list exactly when its
    conditions hold. *)
Lemma pseudo_legal_castle_iff P m :
  valid_facts P -> move_type m = Castle ->
  In m (generate_all_moves P [] (side_to_move_ P)) <-> castling_allowed P m.
Proof.
  intros V Hty. unfold generate_all_moves.
  rewrite generate_castling_moves_In by exact V.
  split; [|auto]. intros [H|H]; [|exact H]. exfalso.
  assert (HF : Forall (quiet_ok P)
                 (generate_king_moves P
                    (generate_queen_moves P
                       (generate_rook_moves P
                          (generate_bishop_moves P
                             (generate_knight_moves P
                                (generate_pawn_moves P [] (side_to_move_ P))
                                (side_to_move_ P)) (side_to_move_ P)) (side_to_move_ P))
                       (side_to_move_ P)) (side_to_move_ P))).
  { apply king_moves_ok; [exact V|]. apply queen_moves_ok; [exact V|].
    apply rook_moves_ok; [exact V|]. apply bishop_moves_ok; [exact V|].
    apply knight_moves_ok; [exact V|]. apply pawn_moves_ok; [exact V|]. constructor. }
  rewrite List.Forall_forall in HF. destruct (HF m H) as [_ Hq]. contradiction.
Qed.

(* ===================================================================== *)
(** * The position after a castling move *)
(* ===================================================================== *)

Lemma update_bitboards_occupied_bit X sq :
  Z.testbit (occupied_ (update_bitboards X)) sq
  = existsb (fun c => existsb (fun pt => Z.testbit (pieces X c pt) sq) piece_type_range)
      color_range.
Proof.
  unfold update_bitboards.
  cbn [occupied_ with_occupancy map color_range fold_left piece_type_range existsb].
  rewrite !Z.lor_spec, !Z.bits_0. cbn [orb]. rewrite !orb_false_r, !orb_assoc.
  reflexivity.
Qed.

Lemma make_move_occupied P m :
  occupied (make_move m P) = occupied_ (update_bitboards (make_move m P)).
Proof.
  unfold occupied, make_move.
  destruct (make_move_switch _ _ _ _ _) as [P2 mv].
  unfold make_move_finish. cbv zeta.
  match goal with
  | |- context [update_bitboards ?X] => generalize X
  end.
  intros X. destruct (decide (side_to_move_ _ = White)); reflexivity.
Qed.

(** The occupancy bit of a square in terms of the twelve bitboards. *)
Lemma occupied_bit_pieces P sq :
  valid_facts P ->
  Z.testbit (occupied P) sq
  = existsb (fun c => existsb (fun pt => Z.testbit (pieces P c pt) sq) piece_type_range)
      color_range.
Proof.
  intros V. rewrite <- update_bitboards_occupied_bit.
  rewrite (vf_aggregates P V). reflexivity.
Qed.

(** The squares and pieces of a castling move the generator allows. *)
Lemma castle_squares P m :
  valid_facts P -> move_ok P m -> move_type m = Castle ->
  let c := side_to_move_ P in
  let f := from_square m in
  let t := to_square m in
  let g := fst (castle_rook_squares t) in
  let h := snd (castle_rook_squares t) in
  ((c = White /\ f = E1 /\ ((t = G1 /\ g = H1 /\ h = F1) \/ (t = C1 /\ g = A1 /\ h = D1)))
   \/ (c = Black /\ f = E8 /\ ((t = G8 /\ g = H8 /\ h = F8) \/ (t = C8 /\ g = A8 /\ h = D8))))
  /\ piece_on P f = make_piece c King /\ piece_on P g = make_piece c Rook
  /\ piece_on P t = Piece_None /\ piece_on P h = Piece_None.
Proof.
  intros V Hok Hty c f t g h.
  destruct Hok as (_ & _ & _ & H). rewrite Hty in H.
  destruct H as (Hsq & Hking & Hrook & Hto0 & Hrt0).
  split; [|auto].
  unfold g, h, t, f, c.
  destruct Hsq as [(Hc & Hf & [Ht | Ht])|(Hc & Hf & [Ht | Ht])]; rewrite Ht;
    [left|left|right|right]; (split; [exact Hc|]); (split; [exact Hf|]);
    [left|right|left|right]; repeat split.
Qed.

Lemma castle_make_arrays P m :
  valid_facts P -> move_ok P m -> move_type m = Castle ->
  let c := side_to_move_ P in
  let f := from_square m in
  let t := to_square m in
  let g := fst (castle_rook_squares t) in
  let h := snd (castle_rook_squares t) in
  pieces_ (make_move m P)
  = pl_set (pl_clear (pl_set (pl_clear (pieces_ P) (pieces_index c King) f)
                        (pieces_index c King) t)
              (pieces_index c Rook) g)
      (pieces_index c Rook) h
  /\ board_ (make_move m P)
     = <[Z.to_nat h := make_piece c Rook]> (<[Z.to_nat g := Piece_None]>
         (<[Z.to_nat t := make_piece c King]> (<[Z.to_nat f := Piece_None]> (board_ P)))).
Proof.
  intros V Hok Hty c f t g h.
  destruct (castle_squares P m V Hok Hty) as (Hsq & Hking & Hrook & Hto0 & Hrt0).
  fold c f t g h in Hsq, Hking, Hrook, Hto0, Hrt0.
  destruct (make_move_fields P m) as (Hq1 & Hq2 & _).
  rewrite Hq1, Hq2. clear Hq1 Hq2.
  fold f t. rewrite Hking.
  assert (Hct : color_of (make_piece c King) = c /\ type_of (make_piece c King) = King)
    by (apply make_piece_color_type; [exact (vf_side P V)|discriminate]).
  destruct Hct as [Hcol Htyp]. rewrite Hcol, Htyp.
  assert (Egh : castle_rook_squares t = (g, h))
    by (unfold g, h; now destruct (castle_rook_squares t)).
  pose proof (vf_board_length P V) as Hblen.
  assert (Hsquares : 0 <= f < 64 /\ 0 <= t < 64 /\ 0 <= g < 64 /\ 0 <= h < 64
                     /\ g <> f /\ g <> t).
  { destruct Hsq as [(_ & -> & [(-> & -> & ->) | (-> & -> & ->)])
                    |(_ & -> & [(-> & -> & ->) | (-> & -> & ->)])];
      vm_compute; repeat split; congruence. }
  destruct Hsquares as (Hf & Ht & Hg & Hh & Hgf & Hgt).
  unfold make_move_switch. rewrite Hty. fold t. rewrite Hcol, Egh.
  cbn [fst]. arrays. rewrite piece_on_cell. arrays.
  rewrite !cell_put by first [assumption|pl_len].
  destruct (Z.eqb_spec t g); [congruence|].
  destruct (Z.eqb_spec f g); [congruence|].
  rewrite <- piece_on_cell, Hrook. split; reflexivity.
Qed.

Section AfterCastle.
Variable P : Position.
Variable m : Move.
Hypothesis V : valid_facts P.
Hypothesis Hok : move_ok P m.
Hypothesis Hty : move_type m = Castle.

Let c := side_to_move_ P.
Let f := from_square m.
Let t := to_square m.
Let g := fst (castle_rook_squares t).
Let h := snd (castle_rook_squares t).
Let K := pieces_index c King.
Let R := pieces_index c Rook.

Lemma ac_squares :
  0 <= f < 64 /\ 0 <= t < 64 /\ 0 <= g < 64 /\ 0 <= h < 64
  /\ f <> t /\ f <> g /\ f <> h /\ t <> g /\ t <> h /\ g <> h.
Proof.
  destruct (castle_squares P m V Hok Hty) as (Hsq & _).
  fold c f t g h in Hsq.
  destruct Hsq as [(_ & -> & [(-> & -> & ->) | (-> & -> & ->)])
                  |(_ & -> & [(-> & -> & ->) | (-> & -> & ->)])];
    vm_compute; repeat split; congruence.
Qed.

Lemma ac_indices : (K < 12)%nat /\ (R < 12)%nat /\ K <> R.
Proof.
  pose proof (vf_side P V) as Hc. fold c in Hc.
  split; [apply pieces_index_lt; [exact Hc|discriminate]|].
  split; [apply pieces_index_lt; [exact Hc|discriminate]|].
  intros E. apply pieces_index_inj in E; [|exact Hc|discriminate|exact Hc|discriminate].
  destruct E as [_ E]. discriminate.
Qed.

(** A bit of a bitboard after the move. *)
Lemma ac_bit k q :
  0 <= q < 64 ->
  Z.testbit (entry (pieces_ (make_move m P)) k) q
  = (bool_decide (k = R) && (h =? q))
    || (negb (bool_decide (k = R) && (g =? q))
        && ((bool_decide (k = K) && (t =? q))
            || (negb (bool_decide (k = K) && (f =? q))
                && Z.testbit (entry (pieces_ P) k) q))).
Proof.
  intros Hq. destruct (castle_make_arrays P m V Hok Hty) as [E _].
  fold c f t g h K R in E. rewrite E.
  destruct ac_squares as (Hf & Ht & Hg & Hh & _).
  destruct ac_indices as (HK & HR & _).
  pose proof (vf_pieces_length P V) as Hlen.
  rewrite <- Hlen in HK, HR.
  pl_bits. reflexivity.
Qed.

Lemma ac_bit_elsewhere k q :
  0 <= q < 64 -> q <> f -> q <> t -> q <> g -> q <> h ->
  Z.testbit (entry (pieces_ (make_move m P)) k) q = Z.testbit (entry (pieces_ P) k) q.
Proof.
  intros Hq H1 H2 H3 H4. rewrite ac_bit by exact Hq.
  destruct (Z.eqb_spec h q); [congruence|].
  destruct (Z.eqb_spec g q); [congruence|].
  destruct (Z.eqb_spec t q); [congruence|].
  destruct (Z.eqb_spec f q); [congruence|].
  rewrite !andb_false_r. reflexivity.
Qed.

Lemma ac_length : length (pieces_ (make_move m P)) = 12%nat.
Proof.
  destruct (castle_make_arrays P m V Hok Hty) as [E _]. rewrite E.
  pose proof (vf_pieces_length P V). pl_len.
Qed.

Lemma ac_range k : bb_range (entry (pieces_ (make_move m P)) k).
Proof.
  destruct (castle_make_arrays P m V Hok Hty) as [E _]. rewrite E.
  destruct ac_squares as (Hf & Ht & Hg & Hh & _).
  pose proof (vf_range P V) as Hr. revert k. pl_range.
Qed.

(** The bitboards of the other side are untouched. *)
Lemma ac_enemy pt :
  real_type pt ->
  pieces (make_move m P) (opposite_color c) pt = pieces P (opposite_color c) pt.
Proof.
  intros Hpt. rewrite !pieces_entry.
  pose proof (vf_side P V) as Hc. fold c in Hc.
  assert (Hk : pieces_index (opposite_color c) pt <> K
               /\ pieces_index (opposite_color c) pt <> R).
  { split; intros E; apply pieces_index_inj in E;
      try assumption; try discriminate; try apply real_color_opposite;
      destruct E as [E _]; revert E; apply opposite_color_neq; exact Hc. }
  destruct Hk as [Hk1 Hk2].
  apply bb_eq_of_bits; [apply ac_range|apply (vf_range P V)|].
  intros q Hq. rewrite ac_bit by exact Hq.
  rewrite (bool_decide_eq_false_2 _ Hk1), (bool_decide_eq_false_2 _ Hk2). reflexivity.
Qed.

Lemma existsb_ext_in {A} (p q : A -> bool) l :
  (forall x, In x l -> p x = q x) -> existsb p l = existsb q l.
Proof.
  induction l as [|x l IH]; intros H; [reflexivity|].
  cbn [existsb]. rewrite (H x) by (left; reflexivity).
  rewrite IH; [reflexivity|]. intros y Hy. apply H. right. exact Hy.
Qed.

(** The occupancy changes on the four squares of the move only. *)
Lemma ac_occupied_elsewhere q :
  0 <= q < 64 -> q <> f -> q <> t -> q <> g -> q <> h ->
  Z.testbit (occupied (make_move m P)) q = Z.testbit (occupied P) q.
Proof.
  intros Hq H1 H2 H3 H4.
  rewrite make_move_occupied, update_bitboards_occupied_bit, (occupied_bit_pieces P q V).
  apply existsb_ext_in. intros c' _. apply existsb_ext_in. intros pt _.
  rewrite !pieces_entry. apply ac_bit_elsewhere; assumption.
Qed.

Lemma ac_occupied_rook : Z.testbit (occupied (make_move m P)) h = true.
Proof.
  destruct ac_squares as (Hf & Ht & Hg & Hh & _).
  rewrite make_move_occupied, update_bitboards_occupied_bit.
  apply existsb_exists. exists c. split.
  { destruct (vf_side P V) as [E|E]; fold c in E; rewrite E; cbn; tauto. }
  apply existsb_exists. exists Rook. split; [cbn; tauto|].
  rewrite pieces_entry. fold R. rewrite ac_bit by exact Hh.
  rewrite bool_decide_eq_true_2 by reflexivity. rewrite Z.eqb_refl. reflexivity.
Qed.

(** The mailbox changes on the four squares of the move only. *)
Lemma ac_piece_elsewhere q :
  0 <= q < 64 -> q <> f -> q <> t -> q <> g -> q <> h ->
  piece_on (make_move m P) q = piece_on P q.
Proof.
  intros Hq H1 H2 H3 H4. rewrite !piece_on_cell.
  destruct (castle_make_arrays P m V Hok Hty) as [_ E].
  fold c f t g h in E. rewrite E.
  destruct ac_squares as (Hf & Ht & Hg & Hh & _).
  pose proof (vf_board_length P V) as Hblen.
  rewrite !cell_put by first [assumption|pl_len].
  destruct (Z.eqb_spec h q); [congruence|].
  destruct (Z.eqb_spec g q); [congruence|].
  destruct (Z.eqb_spec t q); [congruence|].
  destruct (Z.eqb_spec f q); [congruence|]. reflexivity.
Qed.

Hypothesis Hking : king_square P c = f.

(** The king is found on its destination. *)
Lemma ac_king_square : king_square (make_move m P) c = t.
Proof.
  destruct (castle_squares P m V Hok Hty) as (Hsq & _ & _ & _ & Hh0).
  fold c f t g h in Hsq, Hh0.
  destruct ac_squares as (Hf & Ht & Hg & Hh & Hft & _).
  destruct ac_indices as (HK & HR & HKR).
  unfold king_square in *. rewrite pieces_entry in *. fold K in Hking |- *.
  assert (Hlow : is_lowest (entry (pieces_ P) K) f).
  { rewrite <- Hking. apply get_lsb_index_spec; [apply (vf_range P V)|].
    intros E. rewrite E in Hking. change (get_lsb_index 0) with 65 in Hking. lia. }
  destruct Hlow as (_ & Hbf & Hbelow).
  assert (Hbh : Z.testbit (entry (pieces_ P) K) h = false).
  { unfold K. rewrite bit_of_piece;
      [|exact V|exact Hh|exact (vf_side P V)|discriminate].
    apply bool_decide_eq_false_2. rewrite <- piece_on_cell, Hh0.
    intros E. symmetry in E. revert E.
    apply make_piece_real; [exact (vf_side P V)|discriminate]. }
  assert (Hlow' : is_lowest (entry (pieces_ (make_move m P)) K) t).
  { split; [exact Ht|]. split.
    - rewrite ac_bit by exact Ht.
      rewrite (bool_decide_eq_false_2 _ HKR), (bool_decide_eq_true_2 (K = K)) by reflexivity.
      rewrite Z.eqb_refl. reflexivity.
    - intros j Hj. rewrite ac_bit by lia.
      rewrite (bool_decide_eq_false_2 _ HKR), (bool_decide_eq_true_2 (K = K)) by reflexivity.
      cbn [andb negb orb].
      destruct (Z.eqb_spec t j); [lia|].
      destruct (Z.eqb_spec f j) as [E|E]; [reflexivity|]. cbn [negb andb orb].
      destruct (Z_lt_ge_dec j f) as [Hlt|Hge]; [apply Hbelow; lia|].
      assert (j = h); [|subst j; exact Hbh].
      clear - Hsq Hj Hge E.
      destruct Hsq as [(_ & Ef & [(Et & _ & Eh) | (Et & _ & Eh)])
                      |(_ & Ef & [(Et & _ & Eh) | (Et & _ & Eh)])];
        rewrite Ef in *; rewrite Et in *; rewrite Eh;
        unfold E1, G1, C1, F1, D1, E8, G8, C8, F8, D8 in *; lia. }
  assert (Hnz : entry (pieces_ (make_move m P)) K <> 0).
  { intros E. destruct Hlow' as (_ & Hb & _). rewrite E, Z.bits_0 in Hb. discriminate. }
  exact (is_lowest_unique _ _ _ (get_lsb_index_spec _ (ac_range K) Hnz) Hlow').
Qed.

End AfterCastle.

(* ===================================================================== *)
(** * Slider attacks when the occupancy changes *)
(* ===================================================================== *)

(** A square seen along a ray under [occ'] is seen under [occ] too, when
    the two occupancies differ on [changed] only and every changed square
    inside the ray lies at or behind a square [hsq] that [occ'] holds. *)
Lemma visible_transfer s occ occ' changed hsq d u :
  0 <= s < 64 ->
  (forall q, 0 <= q < 64 -> ~ In q changed -> Z.testbit occ' q = Z.testbit occ q) ->
  Z.testbit occ' hsq = true ->
  (forall j, 1 <= j < ray_steps s d -> In (ray_square s d j) changed ->
             exists i, 1 <= i <= j /\ ray_square s d i = hsq) ->
  visible_along s occ' d u -> visible_along s occ d u.
Proof.
  intros Hs Hagree Hh Hcrit (k & Hk & Hu & Hfree).
  exists k. split; [exact Hk|]. split; [exact Hu|].
  intros j Hj. rewrite <- Hagree.
  - apply Hfree. exact Hj.
  - apply ray_square_in_board; [exact Hs|lia].
  - intros Hin. destruct (Hcrit j ltac:(lia) Hin) as (i & Hi & Ei).
    specialize (Hfree i ltac:(lia)). rewrite Ei, Hh in Hfree. discriminate.
Qed.

Lemma count_zero_subset A A' E :
  bb_range E ->
  (forall u, Z.testbit A' u = true -> Z.testbit A u = true) ->
  (count_bits (Z.land A E) >? 0) = false ->
  (count_bits (Z.land A' E) >? 0) = false.
Proof.
  intros HE Hsub H.
  rewrite count_bits_pos in H by (apply land_range_r; exact HE).
  rewrite count_bits_pos by (apply land_range_r; exact HE).
  apply negb_false_iff, Z.eqb_eq in H. apply negb_false_iff, Z.eqb_eq.
  apply Z.bits_inj'. intros u _. rewrite Z.bits_0, Z.land_spec.
  destruct (Z.testbit A' u) eqn:EA; [|reflexivity].
  apply Hsub in EA.
  assert (Hb : Z.testbit (Z.land A E) u = false) by (rewrite H; apply Z.bits_0).
  rewrite Z.land_spec, EA in Hb. exact Hb.
Qed.

Ltac ray_check :=
  let j := fresh "j" in
  let Hj := fresh "Hj" in
  let Hin := fresh "Hin" in
  intros j Hj Hin;
  match type of Hj with
  | _ <= _ < ?n => let v := eval vm_compute in n in change n with v in Hj
  end;
  first
    [ lia
    | assert (j = 1 \/ j = 2 \/ j = 3 \/ j = 4 \/ j = 5 \/ j = 6) as Hc by lia;
      destruct Hc as [-> | [-> | [-> | [-> | [-> | ->]]]]];
      first [ lia
            | exists 1; split; [lia|reflexivity]
            | exfalso; cbv in Hin; intuition congruence ] ].

(** The rays from the king's destination meet the squares of a castling
    move only at or behind the rook's destination. *)
Lemma castle_rays f t g h d :
  (f = E1 /\ ((t = G1 /\ g = H1 /\ h = F1) \/ (t = C1 /\ g = A1 /\ h = D1)))
  \/ (f = E8 /\ ((t = G8 /\ g = H8 /\ h = F8) \/ (t = C8 /\ g = A8 /\ h = D8))) ->
  forall j, 1 <= j < ray_steps t d -> In (ray_square t d j) [f; t; g; h] ->
            exists i, 1 <= i <= j /\ ray_square t d i = h.
Proof.
  intros [(-> & [(-> & -> & ->) | (-> & -> & ->)])
         |(-> & [(-> & -> & ->) | (-> & -> & ->)])];
    destruct d; ray_check.
Qed.

(* ===================================================================== *)
(** * A castling move that meets its conditions is legal *)
(* ===================================================================== *)

Section CastleSafety.
Variable P : Position.
Variable m : Move.
Hypothesis V : valid_facts P.
Hypothesis Hok : move_ok P m.
Hypothesis Hty : move_type m = Castle.
Hypothesis Hking : king_square P (side_to_move_ P) = from_square m.
Hypothesis Hsafe :
  is_square_attacked P (to_square m) (opposite_color (side_to_move_ P)) = false.

Let c := side_to_move_ P.
Let e := opposite_color c.
Let f := from_square m.
Let t := to_square m.
Let g := fst (castle_rook_squares t).
Let h := snd (castle_rook_squares t).
Let P' := make_move m P.

Lemma cs_agree q :
  0 <= q < 64 -> ~ In q [f; t; g; h] ->
  Z.testbit (occupied P') q = Z.testbit (occupied P) q.
Proof.
  intros Hq Hn. apply ac_occupied_elsewhere; try assumption;
    intros E; apply Hn; rewrite E; cbn; tauto.
Qed.

Lemma cs_visible d u :
  visible_along t (occupied P') d u -> visible_along t (occupied P) d u.
Proof.
  destruct (castle_squares P m V Hok Hty) as (Hsq & _).
  destruct (ac_squares P m V Hok Hty) as (_ & Ht & _).
  apply (visible_transfer t (occupied P) (occupied P') [f; t; g; h] h d u).
  - exact Ht.
  - exact cs_agree.
  - apply ac_occupied_rook; assumption.
  - apply castle_rays. fold c f t g h in Hsq. tauto.
Qed.

Lemma cs_enemy_range pt pt' :
  bb_range (Z.lor (pieces P e pt) (pieces P e pt')).
Proof. apply lor_range; apply pieces_range; exact V. Qed.

Lemma cs_pawn :
  is_square_attacked_by_pawn P' t e = is_square_attacked_by_pawn P t e.
Proof.
  destruct (castle_squares P m V Hok Hty) as (Hsq & _).
  fold c f t g h in Hsq.
  assert (Hp : forall q, 0 <= q < 64 -> q <> f -> q <> t -> q <> g -> q <> h ->
                         piece_on P' q = piece_on P q)
    by (intros; apply ac_piece_elsewhere; assumption).
  unfold is_square_attacked_by_pawn, e.
  destruct Hsq as [(Ec & Ef & [(Et & Eg & Eh) | (Et & Eg & Eh)])
                  |(Ec & Ef & [(Et & Eg & Eh) | (Et & Eg & Eh)])];
    rewrite Ec, Et; rewrite Ef, Et, Eg, Eh in Hp; cbn [opposite_color];
    first [rewrite decide_False by discriminate|rewrite decide_True by reflexivity];
    change (rank_of G1) with 0; change (rank_of C1) with 0;
    change (rank_of G8) with 7; change (rank_of C8) with 7;
    change (file_of G1) with 6; change (file_of C1) with 2;
    change (file_of G8) with 6; change (file_of C8) with 2;
    cbn [Z.ltb Z.gtb Z.compare Pos.compare Pos.compare_cont andb orb];
    rewrite !Hp by (vm_compute; intuition congruence); reflexivity.
Qed.

(** After the move the king's destination is no more attacked than
    before. *)
Lemma cs_destination_safe : is_square_attacked P' t e = false.
Proof.
  destruct (ac_squares P m V Hok Hty) as (_ & Ht & _).
  fold c e t in Hsafe. unfold is_square_attacked in Hsafe |- *.
  rewrite cs_pawn.
  unfold P', e, c. rewrite !ac_enemy by (try assumption; discriminate).
  fold c e P'.
  destruct (is_square_attacked_by_pawn P t e); [discriminate|].
  destruct (count_bits (Z.land (knight_attacks t) _) >? 0); [discriminate|].
  destruct (count_bits (Z.land (king_attacks t) _) >? 0); [discriminate|].
  destruct (count_bits (Z.land (bishop_attacks t (occupied P)) _) >? 0) eqn:Eb;
    [discriminate|].
  destruct (count_bits (Z.land (rook_attacks t (occupied P)) _) >? 0) eqn:Er;
    [discriminate|].
  assert (Hb : forall u, Z.testbit (bishop_attacks t (occupied P')) u = true ->
                         Z.testbit (bishop_attacks t (occupied P)) u = true).
  { intros u. rewrite !bishop_attacks_spec by exact Ht.
    intros (d & Hd & Hv). exists d. split; [exact Hd|apply cs_visible; exact Hv]. }
  assert (Hr : forall u, Z.testbit (rook_attacks t (occupied P')) u = true ->
                         Z.testbit (rook_attacks t (occupied P)) u = true).
  { intros u. rewrite !rook_attacks_spec by exact Ht.
    intros (d & Hd & Hv). exists d. split; [exact Hd|apply cs_visible; exact Hv]. }
  rewrite (count_zero_subset _ _ _ (cs_enemy_range Bishop Queen) Hb Eb).
  rewrite (count_zero_subset _ _ _ (cs_enemy_range Rook Queen) Hr Er).
  reflexivity.
Qed.

Lemma cs_leaves_king_safe : leaves_king_safe P m = true.
Proof.
  unfold leaves_king_safe, side_to_move. fold c.
  assert (Ee : (if decide (c = White) then Black else White) = e).
  { unfold e. destruct (vf_side P V) as [E|E]; fold c in E; rewrite E; reflexivity. }
  rewrite Ee. unfold c. rewrite ac_king_square by assumption.
  fold c t P'. rewrite cs_destination_safe. reflexivity.
Qed.

End CastleSafety.

Lemma rook_not_only_kings P sq :
  valid_facts P -> 0 <= sq < 64 ->
  piece_on P sq = make_piece (side_to_move_ P) Rook -> only_kings P = false.
Proof.
  intros V Hsq Hrook. apply not_true_iff_false. intros H.
  unfold only_kings in H. rewrite forallb_forall in H.
  pose proof (vf_side P V) as Hc.
  assert (Hin : In (side_to_move_ P) color_range)
    by (destruct Hc as [E|E]; rewrite E; cbn; tauto).
  specialize (H _ Hin). rewrite forallb_forall in H.
  specialize (H Rook ltac:(cbn; tauto)).
  rewrite bool_decide_eq_false_2 in H by discriminate. cbn [negb andb] in H.
  apply negb_true_iff in H.
  rewrite count_bits_pos in H by (apply pieces_range; exact V).
  apply negb_false_iff, Z.eqb_eq in H.
  apply (vf_sync P V sq _ Rook Hsq Hc ltac:(discriminate)) in Hrook.
  rewrite H, Z.bits_0 in Hrook. discriminate.
Qed.

Lemma castle_conditions_facts P m :
  castling_allowed P m ->
  move_type m = Castle
  /\ king_square P (side_to_move_ P) = from_square m
  /\ is_square_attacked P (to_square m) (opposite_color (side_to_move_ P)) = false
  /\ exists sq, 0 <= sq < 64 /\ piece_on P sq = make_piece (side_to_move_ P) Rook.
Proof.
  intros [(-> & H)|[(-> & H)|[(-> & H)|(-> & H)]]];
    destruct H as (Hs & _ & Hk & _ & _ & Hcr & Hr); rewrite Hs;
    (split; [reflexivity|]); (split; [exact Hk|]);
    (split; [apply Hcr; cbn; tauto|]);
    eexists; (split; [|exact Hr]); vm_compute; intuition congruence.
Qed.

(** A castling move is in the legal list exactly when its conditions
    hold. *)
Lemma legal_castle_iff P m :
  valid_facts P -> move_type m = Castle ->
  In m (generate_legal_moves P) <-> castling_allowed P m.
Proof.
  intros V Hty. split.
  - intros H. apply legal_moves_pseudo_legal in H. destruct H as (H & _).
    apply pseudo_legal_castle_iff; assumption.
  - intros H.
    destruct (castle_conditions_facts P m H) as (_ & Hk & Hs & sq & Hsq & Hr).
    apply (pseudo_legal_castle_iff P m V Hty) in H.
    assert (Hok : move_ok P m).
    { pose proof (generate_all_moves_ok P V) as HF. rewrite List.Forall_forall in HF.
      apply HF. exact H. }
    unfold generate_legal_moves. rewrite (rook_not_only_kings P sq V Hsq Hr).
    apply list_elem_of_In, list_elem_of_filter. split.
    + apply cs_leaves_king_safe; assumption.
    + apply list_elem_of_In. exact H.
Qed.


(** C3. In a position that satisfies the invariants of the data model, a
    move of type Castle is in the generated list, pseudo-legal or legal,
    if and only if it is one of the four castling moves and, for that
    move, all of these hold: it is the mover's, who is not in check; the
    king stands on its home square; the castling right is held; the
    squares between king and rook are empty (the b-file square included
    on the queenside); the two squares the king crosses, destination
    included, are not attacked by the other side; and the mover's rook
    stands on the corner. *)
Theorem castling_generated_iff (P : Position) (m : Move) :
  valid_position P = true ->
  move_type m = Castle ->
  (In m (generate_all_moves P [] (side_to_move P)) <-> castling_allowed P m)
  /\ (In m (generate_legal_moves P) <-> castling_allowed P m).
Proof.
  intros Hvalid Hty. apply valid_position_facts in Hvalid. split.
  - apply pseudo_legal_castle_iff; assumption.
  - apply legal_castle_iff; assumption.
Qed.

Lemma castling_generated_iff_witness :
  (In (Move_new E1 G1 Castle Piece_None)
      (generate_all_moves kiwipete_position [] (side_to_move kiwipete_position))
   <-> castling_allowed kiwipete_position (Move_new E1 G1 Castle Piece_None))
  /\ (In (Move_new E1 G1 Castle Piece_None) (generate_legal_moves kiwipete_position)
      <-> castling_allowed kiwipete_position (Move_new E1 G1 Castle Piece_None)).
Proof.
  apply (castling_generated_iff kiwipete_position (Move_new E1 G1 Castle Piece_None)).
  - vm_compute. reflexivity.
  - reflexivity.
Defined.

